(** * Cross-validation of tree-sitter-kotlin against the JetBrains PSI

    A shallow embedding of [tools/cross-validation]: the tree model
    ([models.py]), the correspondence tables ([mapping.py]), the two
    normalizers ([normalizer.py]) and the structural comparator
    ([comparator.py]), followed by the properties of the specification that
    are settled against them. *)

From Stdlib Require Import String List Arith Lia DecimalString.
From stdpp Require Import base strings gmap list.
Import ListNotations.
Local Open Scope string_scope.
Local Open Scope list_scope.

(* ===================================================================== *)
(** ** models.py *)
(* ===================================================================== *)

(** [Node]: a name and an ordered list of children.  Python's [__eq__] is
    structural, which is Rocq's equality on this type. *)
#[local] Unset Elimination Schemes.
Inductive Node : Type :=
  mkNode { name : string; children : list Node }.
#[local] Set Elimination Schemes.

(** [Node("X")]: the [children] field defaults to the empty list. *)
Definition leaf (n : string) : Node := mkNode n [].

(** The induction principle that reaches the children of a node. *)
Definition Node_forall_ind (P : Node -> Prop)
  (step : forall n cs, Forall P cs -> P (mkNode n cs)) : forall t, P t :=
  fix go (t : Node) : P t :=
    match t with
    | mkNode n cs =>
        step n cs
          ((fix all (l : list Node) : Forall P l :=
              match l with
              | [] => List.Forall_nil P
              | c :: l' => List.Forall_cons P c l' (go c) (all l')
              end) cs)
    end.

(** [_tree_depth] of the test suite: the number of nodes on the longest
    branch. *)
Fixpoint depth (t : Node) : nat :=
  S (fold_right (fun c m => Nat.max (depth c) m) 0 (children t)).

(* ===================================================================== *)
(** ** comparator.py *)
(* ===================================================================== *)

Inductive Status : Type :=
  | MATCH
  | MISMATCH
  | TS_PARSE_ERROR
  | PSI_PARSE_ERROR.

Inductive DiffKind : Type :=
  | NAME_MISMATCH
  | MISSING_CHILD
  | EXTRA_CHILD
  | CHILD_COUNT_MISMATCH.

Record Difference : Type := mkDifference {
  path : string;
  expected : string;
  actual : string;
  kind : DiffKind
}.

Record CompareResult : Type := mkCompareResult {
  status : Status;
  differences : list Difference
}.

(** Python's [str(n)] and the [{i}] of an f-string, for a natural number. *)
Definition str (n : nat) : string := NilZero.string_of_uint (Nat.to_uint n).

(** [f"{path} > {psi_node.name}" if path else psi_node.name]: an empty
    string is falsy. *)
Definition current_path_of (path psi_name : string) : string :=
  if String.eqb path "" then psi_name else path +:+ " > " +:+ psi_name.

(** [f"{current_path} > [child {i}]"]. *)
Definition child_path_of (current_path : string) (i : nat) : string :=
  current_path +:+ " > [child " +:+ str i +:+ "]".

(** [ts_children[i].name]; the loops below only use indices in range. *)
Definition name_at (l : list Node) (i : nat) : string :=
  name (nth i l (leaf "")).

(** The loop [for i in range(min_count)] of [_compare_nodes]: it visits
    [ts_children[i]] with [psi_children[i]] for each index below the length
    of the shorter list, which is a walk down both lists in step. *)
Definition pairwise
    (visit : Node -> Node -> list Difference -> list Difference) :
    list Node -> list Node -> list Difference -> list Difference :=
  fix loop (ts_children psi_children : list Node)
      (differences : list Difference) : list Difference :=
    match ts_children, psi_children with
    | t :: ts_rest, p :: psi_rest =>
        loop ts_rest psi_rest (visit t p differences)
    | _, _ => differences
    end.

(** [_compare_nodes].  The accumulator [differences], which the Python code
    extends in place, is threaded through; [append] is [++ [_]].  The two
    loops over [range(min_count, len(...))] run over [seq]. *)
Fixpoint _compare_nodes (ts_node psi_node : Node) (path : string)
    (differences : list Difference) {struct ts_node} : list Difference :=
  let current_path := current_path_of path (name psi_node) in
  let differences :=
    if negb (String.eqb (name ts_node) (name psi_node)) then
      differences ++
        [mkDifference current_path (name psi_node) (name ts_node) NAME_MISMATCH]
    else differences in
  let ts_children := children ts_node in
  let psi_children := children psi_node in
  let differences :=
    if negb (Nat.eqb (length ts_children) (length psi_children)) then
      differences ++
        [mkDifference current_path (str (length psi_children))
           (str (length ts_children)) CHILD_COUNT_MISMATCH]
    else differences in
  let min_count := Nat.min (length ts_children) (length psi_children) in
  let differences :=
    pairwise (fun t p => _compare_nodes t p current_path)
      ts_children psi_children differences in
  let differences :=
    fold_left (fun differences i =>
      differences ++
        [mkDifference (child_path_of current_path i) "(absent)"
           (name_at ts_children i) EXTRA_CHILD])
      (seq min_count (length ts_children - min_count)) differences in
  let differences :=
    fold_left (fun differences i =>
      differences ++
        [mkDifference (child_path_of current_path i)
           (name_at psi_children i) "(absent)" MISSING_CHILD])
      (seq min_count (length psi_children - min_count)) differences in
  differences.

(** [compare_trees]; [None] is an absent tree.  [CompareResult(status=s)]
    has the default, empty, list of differences, and [if differences]
    tests the list for being non-empty. *)
Definition compare_trees (ts_tree psi_tree : option Node) : CompareResult :=
  match ts_tree with
  | None => mkCompareResult TS_PARSE_ERROR []
  | Some ts_tree =>
      match psi_tree with
      | None => mkCompareResult PSI_PARSE_ERROR []
      | Some psi_tree =>
          let differences := _compare_nodes ts_tree psi_tree "" [] in
          match differences with
          | [] => mkCompareResult MATCH []
          | _ :: _ => mkCompareResult MISMATCH differences
          end
      end
  end.

(* ===================================================================== *)
(** ** mapping.py *)
(* ===================================================================== *)

(** The value [None] of [TS_TO_PSI] ("no single PSI equivalent") is the
    value [None] of the map; a name that is not a key has no entry. *)
Definition TS_TO_PSI : gmap string (option string) :=
  list_to_map [
    ("source_file", Some "KtFile");
    ("package_header", Some "PACKAGE_DIRECTIVE");
    ("import_list", Some "IMPORT_LIST");
    ("import_header", Some "IMPORT_DIRECTIVE");
    ("import_alias", Some "IMPORT_ALIAS");
    ("wildcard_import", None);
    ("class_declaration", Some "CLASS");
    ("class_body", Some "CLASS_BODY");
    ("class_parameter", Some "VALUE_PARAMETER");
    ("companion_object", Some "OBJECT_DECLARATION");
    ("object_declaration", Some "OBJECT_DECLARATION");
    ("object_literal", Some "OBJECT_LITERAL");
    ("enum_class_body", Some "CLASS_BODY");
    ("enum_entry", Some "ENUM_ENTRY");
    ("type_alias", Some "TYPEALIAS");
    ("primary_constructor", Some "PRIMARY_CONSTRUCTOR");
    ("secondary_constructor", Some "SECONDARY_CONSTRUCTOR");
    ("constructor_delegation_call", Some "CONSTRUCTOR_DELEGATION_CALL");
    ("constructor_invocation", None);
    ("function_declaration", Some "FUN");
    ("function_body", Some "BLOCK");
    ("function_value_parameters", Some "VALUE_PARAMETER_LIST");
    ("parameter", Some "VALUE_PARAMETER");
    ("parameter_with_optional_type", Some "VALUE_PARAMETER");
    ("getter", Some "PROPERTY_ACCESSOR");
    ("setter", Some "PROPERTY_ACCESSOR");
    ("anonymous_function", Some "FUN");
    ("property_declaration", Some "PROPERTY");
    ("property_delegate", Some "PROPERTY_DELEGATE");
    ("type_parameters", Some "TYPE_PARAMETER_LIST");
    ("type_parameter", Some "TYPE_PARAMETER");
    ("type_arguments", Some "TYPE_ARGUMENT_LIST");
    ("type_projection", Some "TYPE_PROJECTION");
    ("user_type", Some "USER_TYPE");
    ("function_type", Some "FUNCTION_TYPE");
    ("function_type_parameters", Some "VALUE_PARAMETER_LIST");
    ("nullable_type", Some "NULLABLE_TYPE");
    ("not_nullable_type", None);
    ("parenthesized_type", Some "PARENTHESIZED");
    ("parenthesized_user_type", None);
    ("type_constraints", Some "TYPE_CONSTRAINT_LIST");
    ("type_constraint", Some "TYPE_CONSTRAINT");
    ("receiver_type", Some "FUNCTION_TYPE_RECEIVER");
    ("delegation_specifier", None);
    ("explicit_delegation", Some "DELEGATED_SUPER_TYPE_ENTRY");
    ("type_identifier", None);
    ("simple_identifier", None);
    ("identifier", None);
    ("modifiers", Some "MODIFIER_LIST");
    ("class_modifier", None);
    ("member_modifier", None);
    ("visibility_modifier", None);
    ("function_modifier", None);
    ("property_modifier", None);
    ("inheritance_modifier", None);
    ("parameter_modifier", None);
    ("parameter_modifiers", None);
    ("platform_modifier", None);
    ("reification_modifier", None);
    ("variance_modifier", None);
    ("type_modifiers", None);
    ("type_parameter_modifiers", None);
    ("type_projection_modifiers", None);
    ("annotation", Some "ANNOTATION_ENTRY");
    ("file_annotation", Some "FILE_ANNOTATION_LIST");
    ("use_site_target", Some "ANNOTATION_TARGET");
    ("call_expression", Some "CALL_EXPRESSION");
    ("call_suffix", None);
    ("navigation_expression", Some "DOT_QUALIFIED_EXPRESSION");
    ("navigation_suffix", None);
    ("indexing_expression", Some "ARRAY_ACCESS_EXPRESSION");
    ("indexing_suffix", Some "INDICES");
    ("value_arguments", Some "VALUE_ARGUMENT_LIST");
    ("value_argument", Some "VALUE_ARGUMENT");
    ("spread_expression", None);
    ("parenthesized_expression", Some "PARENTHESIZED");
    ("if_expression", Some "IF");
    ("when_expression", Some "WHEN");
    ("when_subject", None);
    ("when_entry", Some "WHEN_ENTRY");
    ("when_condition", None);
    ("try_expression", Some "TRY");
    ("catch_block", Some "CATCH");
    ("finally_block", Some "FINALLY");
    ("jump_expression", None);
    ("callable_reference", Some "CALLABLE_REFERENCE_EXPRESSION");
    ("collection_literal", Some "COLLECTION_LITERAL_EXPRESSION");
    ("this_expression", Some "THIS_EXPRESSION");
    ("super_expression", Some "SUPER_EXPRESSION");
    ("directly_assignable_expression", None);
    ("assignment", None);
    ("additive_expression", Some "BINARY_EXPRESSION");
    ("multiplicative_expression", Some "BINARY_EXPRESSION");
    ("comparison_expression", Some "BINARY_EXPRESSION");
    ("equality_expression", Some "BINARY_EXPRESSION");
    ("conjunction_expression", Some "BINARY_EXPRESSION");
    ("disjunction_expression", Some "BINARY_EXPRESSION");
    ("elvis_expression", Some "BINARY_EXPRESSION");
    ("range_expression", Some "BINARY_EXPRESSION");
    ("infix_expression", Some "BINARY_EXPRESSION");
    ("as_expression", Some "BINARY_WITH_TYPE");
    ("check_expression", Some "IS_EXPRESSION");
    ("prefix_expression", Some "PREFIX_EXPRESSION");
    ("postfix_expression", Some "POSTFIX_EXPRESSION");
    ("for_statement", Some "FOR");
    ("while_statement", Some "WHILE");
    ("do_while_statement", Some "DO_WHILE");
    ("control_structure_body", Some "BLOCK");
    ("range_test", Some "WHEN_CONDITION_IN_RANGE");
    ("type_test", Some "WHEN_CONDITION_IS_PATTERN");
    ("lambda_literal", Some "FUNCTION_LITERAL");
    ("lambda_parameters", Some "VALUE_PARAMETER_LIST");
    ("annotated_lambda", None);
    ("statements", None);
    ("multi_variable_declaration", Some "DESTRUCTURING_DECLARATION");
    ("variable_declaration", None);
    ("binding_pattern_kind", None);
    ("string_literal", Some "STRING_TEMPLATE");
    ("string_content", Some "LITERAL_STRING_TEMPLATE_ENTRY");
    ("interpolated_expression", Some "LONG_STRING_TEMPLATE_ENTRY");
    ("interpolated_identifier", Some "SHORT_STRING_TEMPLATE_ENTRY");
    ("character_literal", Some "CHARACTER_CONSTANT");
    ("character_escape_seq", Some "ESCAPE_STRING_TEMPLATE_ENTRY");
    ("integer_literal", Some "INTEGER_CONSTANT");
    ("real_literal", Some "FLOAT_CONSTANT");
    ("long_literal", None);
    ("hex_literal", Some "INTEGER_CONSTANT");
    ("bin_literal", Some "INTEGER_CONSTANT");
    ("unsigned_literal", Some "INTEGER_CONSTANT");
    ("boolean_literal", Some "BOOLEAN_CONSTANT");
    ("null_literal", Some "NULL");
    ("label", Some "LABEL");
    ("line_comment", None);
    ("multiline_comment", None);
    ("anonymous_initializer", Some "CLASS_INITIALIZER");
    ("shebang_line", None)
  ].

Definition SKIP_TS_NODES : gset string :=
  list_to_set [
    "simple_identifier";
    "type_identifier";
    "identifier";
    "line_comment";
    "multiline_comment";
    "class_modifier";
    "member_modifier";
    "visibility_modifier";
    "function_modifier";
    "property_modifier";
    "inheritance_modifier";
    "parameter_modifier";
    "parameter_modifiers";
    "platform_modifier";
    "reification_modifier";
    "variance_modifier";
    "type_modifiers";
    "type_parameter_modifiers";
    "type_projection_modifiers";
    "call_suffix";
    "navigation_suffix";
    "when_subject";
    "directly_assignable_expression";
    "binding_pattern_kind";
    "wildcard_import";
    "shebang_line";
    "statements";
    "annotated_lambda";
    "constructor_invocation";
    "delegation_specifier";
    "when_condition";
    "jump_expression";
    "variable_declaration";
    "assignment";
    "not_nullable_type";
    "parenthesized_user_type";
    "spread_expression";
    "long_literal"
  ].

Definition SKIP_PSI_NODES : gset string :=
  list_to_set [
    "TYPE_REFERENCE";
    "OPERATION_REFERENCE";
    "REFERENCE_EXPRESSION";
    "SUPER_TYPE_LIST";
    "SUPER_TYPE_CALL_ENTRY";
    "SUPER_TYPE_ENTRY";
    "CONSTRUCTOR_CALLEE";
    "CONSTRUCTOR_DELEGATION_REFERENCE";
    "BODY";
    "THEN";
    "ELSE";
    "LOOP_RANGE";
    "CONDITION";
    "RETURN";
    "THROW";
    "BREAK";
    "CONTINUE";
    "LAMBDA_EXPRESSION";
    "LAMBDA_ARGUMENT";
    "LABEL_QUALIFIER";
    "VALUE_ARGUMENT_NAME";
    "ANNOTATED_EXPRESSION";
    "ANNOTATION";
    "ENUM_ENTRY_SUPERCLASS_REFERENCE_EXPRESSION";
    "INITIALIZER_LIST";
    "LABELED_EXPRESSION";
    "KDOC_SECTION";
    "CLASS_LITERAL_EXPRESSION";
    "CONTEXT_RECEIVER";
    "CONTEXT_PARAMETER_LIST";
    "INTERSECTION_TYPE";
    "DYNAMIC_TYPE"
  ].

Definition WRAPPER_COLLAPSE : gmap string string :=
  list_to_map [
    ("TYPE_REFERENCE", "USER_TYPE");
    ("SUPER_TYPE_CALL_ENTRY", "CONSTRUCTOR_CALLEE");
    ("CONSTRUCTOR_CALLEE", "TYPE_REFERENCE");
    ("LAMBDA_EXPRESSION", "FUNCTION_LITERAL");
    ("ANNOTATED_EXPRESSION", "*");
    ("LABELED_EXPRESSION", "*")
  ].


(* ===================================================================== *)
(** ** normalizer.py: the tree-sitter side *)
(* ===================================================================== *)

(** [TS_TO_PSI.get(name)]: [None] for a name that is not a key and for a
    key whose value is [None]. *)
Definition TS_TO_PSI_get (n : string) : option string :=
  default None (TS_TO_PSI !! n).

(** Truthiness of a [str | None] value ([if mapped:]). *)
Definition truthy (s : option string) : bool :=
  match s with
  | Some s => negb (String.eqb s "")
  | None => false
  end.

(** [not l] for a list [l]. *)
Definition is_empty (l : list Node) : bool :=
  match l with
  | [] => true
  | _ :: _ => false
  end.

(** [any(c.name == n for c in l)]. *)
Definition any_named (n : string) (l : list Node) : bool :=
  existsb (fun c => String.eqb (name c) n) l.

(** [_nest_property_accessors].  [result[-1]] is [last result], and the
    assignment to [result[-1]] an update at index [len(result) - 1]. *)
Definition _nest_property_accessors (cs : list Node) : list Node :=
  if negb (any_named "PROPERTY_ACCESSOR" cs) then cs
  else
    fold_left (fun result child =>
      match last result with
      | Some prop =>
          if String.eqb (name child) "PROPERTY_ACCESSOR"
             && String.eqb (name prop) "PROPERTY"
          then <[pred (length result) :=
                   mkNode "PROPERTY" (children prop ++ [child])]> result
          else result ++ [child]
      | None => result ++ [child]
      end) cs [].

(** [_inject_value_parameter_list]; the loop state is
    [(result, param_group)]. *)
Definition _inject_value_parameter_list (cs : list Node) : list Node :=
  if negb (any_named "VALUE_PARAMETER" cs) then cs
  else
    let '(result, param_group) :=
      fold_left (fun '(result, param_group) child =>
        if String.eqb (name child) "VALUE_PARAMETER" then
          (result, param_group ++ [child])
        else
          let result :=
            if is_empty param_group then result
            else result ++ [mkNode "VALUE_PARAMETER_LIST" param_group] in
          (result ++ [child], []))
        cs ([], []) in
    if is_empty param_group then result
    else result ++ [mkNode "VALUE_PARAMETER_LIST" param_group].

(** [_unwrap_receiver_type]. *)
Definition _unwrap_receiver_type (cs : list Node) : list Node :=
  if negb (any_named "FUNCTION_TYPE_RECEIVER" cs) then cs
  else
    fold_left (fun result child =>
      if String.eqb (name child) "FUNCTION_TYPE_RECEIVER"
      then result ++ children child
      else result ++ [child]) cs [].

(** [_flatten_call_expression(inner.children)], by recursion on [inner]:
    the Python function calls itself on the children of the first element
    of its argument. *)
Fixpoint flatten_inner (inner : Node) : list Node :=
  match children inner with
  | [] => []
  | c :: rest =>
      if String.eqb (name c) "CALL_EXPRESSION" then flatten_inner c ++ rest
      else c :: rest
  end.

(** [_flatten_call_expression]. *)
Definition _flatten_call_expression (cs : list Node) : list Node :=
  match cs with
  | [] => cs
  | inner :: rest =>
      if negb (String.eqb (name inner) "CALL_EXPRESSION") then cs
      else
        let inner_flattened := flatten_inner inner in
        inner_flattened ++ rest
  end.

(** The set literal [type_names] of [_wrap_bare_types_in_value_parameter]. *)
Definition type_names : gset string :=
  list_to_set ["USER_TYPE"; "NULLABLE_TYPE"; "FUNCTION_TYPE"; "PARENTHESIZED"].

(** [_wrap_bare_types_in_value_parameter]. *)
Definition _wrap_bare_types_in_value_parameter (cs : list Node) : list Node :=
  if negb (existsb (fun c =>
             bool_decide (name c ∈ type_names)
             && negb (String.eqb (name c) "VALUE_PARAMETER")) cs)
  then cs
  else
    let has_value_params := any_named "VALUE_PARAMETER" cs in
    if has_value_params then cs
    else
      map (fun child =>
        if bool_decide (name child ∈ type_names)
        then mkNode "VALUE_PARAMETER" [child]
        else child) cs.

(** The set literal [type_children] of the [check_expression] rule. *)
Definition type_children : gset string :=
  list_to_set ["user_type"; "nullable_type"; "parenthesized_type";
               "function_type"; "type_identifier"].

(** The tuple [("statements", "line_comment", "multiline_comment")]. *)
Definition statement_or_comment : list string :=
  ["statements"; "line_comment"; "multiline_comment"].

(** The rule shared by [control_structure_body] and [function_body]:
    [Some r] is the early [return r], [None] falls through to the rules
    that follow. *)
Definition expression_body (body : string) (mapped_name : string)
    (node : Node) (normalized_children : list Node) : option (option Node) :=
  if String.eqb mapped_name "BLOCK" && String.eqb (name node) body then
    let has_statements := any_named "statements" (children node) in
    let has_non_comment_children :=
      existsb (fun c => negb (bool_decide (name c ∈ statement_or_comment)))
        (children node) in
    if negb has_statements && has_non_comment_children then
      if Nat.eqb (length normalized_children) 1 then
        Some (head normalized_children)
      else if is_empty normalized_children then Some None
      else None
    else None
  else None.

(** The part of [_normalize_ts_node] that a node reaches when it is not
    skipped and has a mapped name: the structural rules, from the
    [control_structure_body] rule to the final [return], as a function of
    [mapped_name] and of [normalized_children] at that point. *)
Definition _normalize_ts_node_mapped (node : Node) (mapped_name : string)
    (normalized_children : list Node) : option Node :=
  match expression_body "control_structure_body" mapped_name node
          normalized_children with
  | Some result => result
  | None =>
  if String.eqb mapped_name "DOT_QUALIFIED_EXPRESSION"
     && is_empty normalized_children then None
  else
  let normalized_children :=
    if String.eqb mapped_name "PRIMARY_CONSTRUCTOR"
       || String.eqb mapped_name "PROPERTY_ACCESSOR"
    then _inject_value_parameter_list normalized_children
    else normalized_children in
  let normalized_children :=
    if String.eqb mapped_name "FUN" || String.eqb mapped_name "PROPERTY"
    then _unwrap_receiver_type normalized_children
    else normalized_children in
  let normalized_children :=
    if String.eqb mapped_name "CALL_EXPRESSION"
    then _flatten_call_expression normalized_children
    else normalized_children in
  let normalized_children :=
    if String.eqb mapped_name "FUNCTION_LITERAL"
       && is_empty normalized_children
    then [leaf "BLOCK"]
    else normalized_children in
  let normalized_children :=
    if String.eqb mapped_name "CLASS_INITIALIZER"
       && negb (is_empty normalized_children)
    then [mkNode "BLOCK" normalized_children]
    else normalized_children in
  let normalized_children :=
    if String.eqb mapped_name "OBJECT_LITERAL"
       && negb (is_empty normalized_children)
    then [mkNode "OBJECT_DECLARATION" normalized_children]
    else normalized_children in
  let normalized_children :=
    if String.eqb mapped_name "VALUE_PARAMETER_LIST"
    then _wrap_bare_types_in_value_parameter normalized_children
    else normalized_children in
  match expression_body "function_body" mapped_name node
          normalized_children with
  | Some result => result
  | None =>
  if String.eqb mapped_name "MODIFIER_LIST"
     && is_empty normalized_children then None
  else
  if String.eqb mapped_name "VALUE_PARAMETER_LIST"
     && is_empty normalized_children then None
  else Some (mkNode mapped_name normalized_children)
  end
  end.

(** The body of [_normalize_ts_node] after its first loop, as a function of
    the list that loop has built ([normalized_children], the concatenation
    of [_normalize_ts_child(child)] over the children): accessor nesting,
    the skip set, the name mapping and the [check_expression] rule, and
    then the rules of [_normalize_ts_node_mapped]. *)
Definition _normalize_ts_node_body (node : Node)
    (normalized_children : list Node) : option Node :=
  let normalized_children := _nest_property_accessors normalized_children in
  if bool_decide (name node ∈ SKIP_TS_NODES) then
    if Nat.eqb (length normalized_children) 1 then head normalized_children
    else if Nat.ltb 1 (length normalized_children) then
      let mapped := TS_TO_PSI_get (name node) in
      match mapped with
      | Some mapped_name =>
          if truthy mapped then Some (mkNode mapped_name normalized_children)
          else None
      | None => None
      end
    else None
  else
  match TS_TO_PSI_get (name node) with
  | None =>
      if Nat.eqb (length normalized_children) 1 then head normalized_children
      else if Nat.ltb 1 (length normalized_children) then
        Some (mkNode (name node) normalized_children)
      else None
  | Some mapped_name =>
      let mapped_name :=
        if String.eqb (name node) "check_expression" then
          let has_type_child :=
            existsb (fun c => bool_decide (name c ∈ type_children))
              (children node) in
          if has_type_child then "IS_EXPRESSION" else "BINARY_EXPRESSION"
        else mapped_name in
      _normalize_ts_node_mapped node mapped_name normalized_children
  end.

(** [_normalize_ts_child].  In Python it calls [_normalize_ts_node(node)],
    which maps [_normalize_ts_child] over the children of [node], and, when
    that returns [None], maps [_normalize_ts_child] over the same children
    again; the two lists are the same value, computed here once. *)
Fixpoint _normalize_ts_child (node : Node) : list Node :=
  let promoted := flat_map _normalize_ts_child (children node) in
  match _normalize_ts_node_body node promoted with
  | Some result => [result]
  | None => promoted
  end.

(** [_normalize_ts_node]: the first loop, then the rest of the body. *)
Definition _normalize_ts_node (node : Node) : option Node :=
  let normalized_children := flat_map _normalize_ts_child (children node) in
  _normalize_ts_node_body node normalized_children.

Definition normalize_ts (node : Node) : option Node := _normalize_ts_node node.

(* ===================================================================== *)
(** ** normalizer.py: the PSI side *)
(* ===================================================================== *)

(** The body of [_normalize_psi_node] after its first loop.  In the
    wrapper-collapse rule, [other_children] drops the one element that
    [is] the child found: every element of [normalized_children] is a
    distinct object (each comes from a different call), so this is the
    list without the position of the first child named [target]. *)
Definition _normalize_psi_node_body (node : Node)
    (normalized_children : list Node) : option Node :=
  if String.eqb (name node) "PACKAGE_DIRECTIVE" && is_empty (children node)
  then None else
  if String.eqb (name node) "IMPORT_LIST" && is_empty normalized_children
  then None else
  if String.eqb (name node) "MODIFIER_LIST" && is_empty normalized_children
  then None else
  if String.eqb (name node) "VALUE_PARAMETER_LIST"
     && is_empty normalized_children
  then None else
  if String.eqb (name node) "DOT_QUALIFIED_EXPRESSION"
     && (let non_dqe :=
           List.filter (fun c =>
             negb (String.eqb (name c) "DOT_QUALIFIED_EXPRESSION"))
             normalized_children in
         is_empty non_dqe)
  then None else
  if bool_decide (name node ∈ SKIP_PSI_NODES) then
    if Nat.eqb (length normalized_children) 1 then head normalized_children
    else if Nat.ltb 1 (length normalized_children) then None
    else None
  else
  match WRAPPER_COLLAPSE !! name node with
  | Some target =>
      if String.eqb target "*" && Nat.eqb (length normalized_children) 1
      then head normalized_children
      else if negb (String.eqb target "*") then
        match list_find (fun c => name c = target) normalized_children with
        | Some (i, child) =>
            let other_children := delete i normalized_children in
            if negb (is_empty other_children) then
              Some (mkNode (name child) (children child ++ other_children))
            else Some child
        | None => Some (mkNode (name node) normalized_children)
        end
      else Some (mkNode (name node) normalized_children)
  | None => Some (mkNode (name node) normalized_children)
  end.

(** [_normalize_psi_child], with the list of promoted children shared as
    in [_normalize_ts_child]. *)
Fixpoint _normalize_psi_child (node : Node) : list Node :=
  let promoted := flat_map _normalize_psi_child (children node) in
  match _normalize_psi_node_body node promoted with
  | Some result => [result]
  | None => promoted
  end.

(** [_normalize_psi_node]. *)
Definition _normalize_psi_node (node : Node) : option Node :=
  let normalized_children := flat_map _normalize_psi_child (children node) in
  _normalize_psi_node_body node normalized_children.

Definition normalize_psi (node : Node) : option Node :=
  _normalize_psi_node node.

(* ===================================================================== *)
(** ** The recursive calls of the normalizer, counted *)
(* ===================================================================== *)

(** The recursive functions of [normalizer.py] once more, this time call
    for call as Python makes them: every call takes one unit of [fuel] and
    passes what is left to the calls it makes, so [fuel] bounds the depth
    of the call stack, and [None] stands for a call that ran out of it.
    The part of a body that makes no recursive call is the one of the
    functions above. *)
Module Calls.

(** [for child in node.children: acc.extend(f(child))]. *)
Fixpoint extend_all (f : Node -> option (list Node)) (cs : list Node) :
    option (list Node) :=
  match cs with
  | [] => Some []
  | child :: rest =>
      match f child with
      | Some normalized =>
          match extend_all f rest with
          | Some acc => Some (normalized ++ acc)
          | None => None
          end
      | None => None
      end
  end.

Fixpoint _flatten_call_expression (fuel : nat) (cs : list Node) :
    option (list Node) :=
  match fuel with
  | 0 => None
  | S fuel =>
      match cs with
      | [] => Some cs
      | inner :: rest =>
          if negb (String.eqb (name inner) "CALL_EXPRESSION") then Some cs
          else
            match _flatten_call_expression fuel (children inner) with
            | Some inner_flattened => Some (inner_flattened ++ rest)
            | None => None
            end
      end
  end.

Fixpoint _normalize_ts_node (fuel : nat) (node : Node) :
    option (option Node) :=
  match fuel with
  | 0 => None
  | S fuel =>
      match extend_all (_normalize_ts_child fuel) (children node) with
      | Some normalized_children =>
          Some (_normalize_ts_node_body node normalized_children)
      | None => None
      end
  end
with _normalize_ts_child (fuel : nat) (node : Node) : option (list Node) :=
  match fuel with
  | 0 => None
  | S fuel =>
      match _normalize_ts_node fuel node with
      | Some (Some result) => Some [result]
      | Some None => extend_all (_normalize_ts_child fuel) (children node)
      | None => None
      end
  end.

Fixpoint _normalize_psi_node (fuel : nat) (node : Node) :
    option (option Node) :=
  match fuel with
  | 0 => None
  | S fuel =>
      match extend_all (_normalize_psi_child fuel) (children node) with
      | Some normalized_children =>
          Some (_normalize_psi_node_body node normalized_children)
      | None => None
      end
  end
with _normalize_psi_child (fuel : nat) (node : Node) : option (list Node) :=
  match fuel with
  | 0 => None
  | S fuel =>
      match _normalize_psi_node fuel node with
      | Some (Some result) => Some [result]
      | Some None => extend_all (_normalize_psi_child fuel) (children node)
      | None => None
      end
  end.

End Calls.

(** The depth of the deepest tree of a list. *)
Definition forest_depth (cs : list Node) : nat :=
  fold_right (fun c m => Nat.max (depth c) m) 0 cs.

(* ===================================================================== *)
(** ** Positions in a pair of trees *)
(* ===================================================================== *)

#[global] Instance DiffKind_eq_dec : EqDecision DiffKind.
Proof. solve_decision. Defined.

#[global] Instance Status_eq_dec : EqDecision Status.
Proof. solve_decision. Defined.

(** A position is the list of child indices that leads to a node from the
    root; [subtree t pos] is the node of [t] at [pos], if there is one. *)
Fixpoint subtree (t : Node) (pos : list nat) : option Node :=
  match pos with
  | [] => Some t
  | i :: pos' =>
      match children t !! i with
      | Some c => subtree c pos'
      | None => None
      end
  end.

(** The breadcrumb of the node of [psi] at [pos]: the names on the way
    from the root, [path] being what precedes the root.  It is a function
    of the reference tree alone. *)
Fixpoint path_to (psi : Node) (path : string) (pos : list nat) :
    option string :=
  let current_path := current_path_of path (name psi) in
  match pos with
  | [] => Some current_path
  | i :: pos' =>
      match children psi !! i with
      | Some c => path_to c current_path pos'
      | None => None
      end
  end.

(** The positions of the children of two nodes, [i] being the index of the
    first child of the lists. *)
Definition child_positions (rec : Node -> Node -> list (list nat)) :
    nat -> list Node -> list Node -> list (list nat) :=
  fix loop (i : nat) (tcs pcs : list Node) : list (list nat) :=
    match tcs, pcs with
    | t :: tcs', p :: pcs' => map (cons i) (rec t p) ++ loop (S i) tcs' pcs'
    | _, _ => []
    end.

(** The positions that two trees have in common, root first. *)
Fixpoint positions (t p : Node) {struct t} : list (list nat) :=
  [] :: child_positions positions 0 (children t) (children p).

(** The candidate node, the reference node and the path at a common
    position of two trees. *)
Definition visit_at (ts psi : Node) (path : string) (pos : list nat) :
    option (Node * Node * string) :=
  match subtree ts pos, subtree psi pos, path_to psi path pos with
  | Some t, Some p, Some current_path => Some (t, p, current_path)
  | _, _, _ => None
  end.

(** The [NAME_MISMATCH] the specification asks for at a position. *)
Definition name_mismatch_at (ts psi : Node) (pos : list nat) :
    option Difference :=
  match visit_at ts psi "" pos with
  | Some (t, p, current_path) =>
      if decide (name t = name p) then None
      else Some (mkDifference current_path (name p) (name t) NAME_MISMATCH)
  | None => None
  end.

(** The elements of a list with their zero-based indices, from [i] on. *)
Fixpoint indexed_from (i : nat) (l : list Node) : list (nat * Node) :=
  match l with
  | [] => []
  | c :: l' => (i, c) :: indexed_from (S i) l'
  end.

(** The children of [longer] beyond the length of [shorter], each with its
    index in [longer]. *)
Definition unmatched (longer shorter : list Node) : list (nat * Node) :=
  drop (length shorter) (indexed_from 0 longer).

(** The [EXTRA_CHILD] and [MISSING_CHILD] differences the specification
    asks for at a position, with the separator the code puts before
    [[child i]]. *)
Definition extra_children_at (ts psi : Node) (pos : list nat) :
    list Difference :=
  match visit_at ts psi "" pos with
  | Some (t, p, current_path) =>
      map (fun '(i, c) =>
             mkDifference (current_path +:+ " > [child " +:+ str i +:+ "]")
               "(absent)" (name c) EXTRA_CHILD)
        (unmatched (children t) (children p))
  | None => []
  end.

Definition missing_children_at (ts psi : Node) (pos : list nat) :
    list Difference :=
  match visit_at ts psi "" pos with
  | Some (t, p, current_path) =>
      map (fun '(i, c) =>
             mkDifference (current_path +:+ " > [child " +:+ str i +:+ "]")
               (name c) "(absent)" MISSING_CHILD)
        (unmatched (children p) (children t))
  | None => []
  end.

(* ===================================================================== *)
(** ** The comparator, call by call *)
(* ===================================================================== *)

(** The differences [_compare_nodes] records at the node itself, before it
    visits the children ... *)
Definition name_diff (t p : Node) (current_path : string) : list Difference :=
  if negb (String.eqb (name t) (name p)) then
    [mkDifference current_path (name p) (name t) NAME_MISMATCH]
  else [].

Definition count_diff (t p : Node) (current_path : string) : list Difference :=
  if negb (Nat.eqb (length (children t)) (length (children p))) then
    [mkDifference current_path (str (length (children p)))
       (str (length (children t))) CHILD_COUNT_MISMATCH]
  else [].

(** ... and after it has visited them. *)
Definition extra_diffs (t p : Node) (current_path : string) : list Difference :=
  let min_count := Nat.min (length (children t)) (length (children p)) in
  map (fun i =>
         mkDifference (child_path_of current_path i) "(absent)"
           (name_at (children t) i) EXTRA_CHILD)
    (seq min_count (length (children t) - min_count)).

Definition missing_diffs (t p : Node) (current_path : string) : list Difference :=
  let min_count := Nat.min (length (children t)) (length (children p)) in
  map (fun i =>
         mkDifference (child_path_of current_path i)
           (name_at (children p) i) "(absent)" MISSING_CHILD)
    (seq min_count (length (children p) - min_count)).

(** What [_compare_nodes] adds to an empty accumulator. *)
Definition diffs (t p : Node) (path : string) : list Difference :=
  _compare_nodes t p path [].

(** The differences of the children, pair by pair. *)
Fixpoint children_diffs (current_path : string) (tcs pcs : list Node) :
    list Difference :=
  match tcs, pcs with
  | t :: tcs', p :: pcs' =>
      diffs t p current_path ++ children_diffs current_path tcs' pcs'
  | _, _ => []
  end.


(** Everything one call records at its own node. *)
Definition local_diffs (t p : Node) (current_path : string) : list Difference :=
  name_diff t p current_path ++ count_diff t p current_path
  ++ extra_diffs t p current_path ++ missing_diffs t p current_path.

(** Everything recorded at a common position of two trees. *)
Definition local_at (ts psi : Node) (path : string) (pos : list nat) :
    list Difference :=
  match visit_at ts psi path pos with
  | Some (t, p, current_path) => local_diffs t p current_path
  | None => []
  end.

(* ===================================================================== *)
(** ** The normalizers: names for what the properties speak of *)
(* ===================================================================== *)

(** The value of [normalized_children] in [_normalize_ts_node] when the
    skip set is consulted: the normalized children, accessors nested. *)
Definition normalized_children_ts (node : Node) : list Node :=
  _nest_property_accessors (flat_map _normalize_ts_child (children node)).

(** The value of [normalized_children] in [_normalize_psi_node]. *)
Definition normalized_children_psi (node : Node) : list Node :=
  flat_map _normalize_psi_child (children node).

(** [c] is a node of one of the trees of [l], with its own subtree. *)
Definition occurs (c : Node) (l : list Node) : Prop :=
  exists w pos, w ∈ l /\ subtree w pos = Some c.

(** What [_unwrap_receiver_type] puts in the place of a child. *)
Definition promote_receiver (child : Node) : list Node :=
  if String.eqb (name child) "FUNCTION_TYPE_RECEIVER" then children child
  else [child].

(* ===================================================================== *)
(** ** The comparator: the path of a position, from the names alone *)
(* ===================================================================== *)

(** The names of the reference nodes on the way from the root to [pos],
    the root's first and the node's own last. *)
Fixpoint names_to (psi : Node) (pos : list nat) : option (list string) :=
  match pos with
  | [] => Some [name psi]
  | i :: pos' =>
      match children psi !! i with
      | Some c => cons (name psi) <$> names_to c pos'
      | None => None
      end
  end.

(** A list of names without the empty names it starts with. *)
Fixpoint drop_empty (names : list string) : list string :=
  match names with
  | [] => []
  | n :: names' => if String.eqb n "" then drop_empty names' else names
  end.

(** The breadcrumb of a list of names: the names joined by [" > "], from
    the first name that is not empty on. *)
Definition breadcrumb (names : list string) : string :=
  String.concat " > " (drop_empty names).

(** The [NAME_MISMATCH] that belongs to a position: both trees have a node
    there, the names differ, and the path is the breadcrumb of the
    reference names down to the position. *)
Definition name_mismatch_record (ts psi : Node) (pos : list nat) :
    option Difference :=
  match subtree ts pos, subtree psi pos, names_to psi pos with
  | Some t, Some p, Some names =>
      if decide (name t = name p) then None
      else Some (mkDifference (breadcrumb names) (name p) (name t)
                   NAME_MISMATCH)
  | _, _, _ => None
  end.

(* ===================================================================== *)
(** ** Further names for what the properties speak of *)
(* ===================================================================== *)

(** The [CHILD_COUNT_MISMATCH] that belongs to a position: the two child
    counts in decimal, the reference's as [expected]. *)
Definition count_mismatch_at (ts psi : Node) (pos : list nat) :
    option Difference :=
  match visit_at ts psi "" pos with
  | Some (t, p, current_path) =>
      if decide (length (children t) = length (children p)) then None
      else Some (mkDifference current_path (str (length (children p)))
                   (str (length (children t))) CHILD_COUNT_MISMATCH)
  | None => None
  end.

(** [_count_nodes] of the test suite: the number of nodes of a tree. *)
Fixpoint size (t : Node) : nat :=
  S (fold_right (fun c m => size c + m) 0 (children t)).

Definition forest_size (cs : list Node) : nat :=
  fold_right (fun c m => size c + m) 0 cs.

(** [_collect_names] of the test suite, as a list: the names in a tree. *)
Fixpoint names (t : Node) : list string :=
  name t :: flat_map names (children t).

(** Steps 4 and 5 of [_validate_file] in [runner.py] (and of [debug_file]
    in [main.py]): both trees are normalized and the results compared. *)
Definition normalize_and_compare (ts_tree psi_tree : Node) : CompareResult :=
  let ts_norm := normalize_ts ts_tree in
  let psi_norm := normalize_psi psi_tree in
  compare_trees ts_norm psi_norm.

(** No [PROPERTY_ACCESSOR] stands right after a [PROPERTY] in a list. *)
Fixpoint accessors_nested (l : list Node) : Prop :=
  match l with
  | a :: (b :: _) as l' =>
      ~ (name a = "PROPERTY" /\ name b = "PROPERTY_ACCESSOR")
      /\ accessors_nested l'
  | _ => True
  end.

(** A [VALUE_PARAMETER_LIST] replaced by its children, any other node
    kept. *)
Definition expand_parameter_list (c : Node) : list Node :=
  if String.eqb (name c) "VALUE_PARAMETER_LIST" then children c else [c].

(** The child list that tree-sitter gives to a call with trailing lambdas:
    each further group of trailing nodes wraps what came before in one more
    [CALL_EXPRESSION]; [base] is the child list of the innermost call. *)
Definition call_chain (base : list Node) (trailing : list (list Node)) :
    list Node :=
  fold_left (fun inner lambdas => mkNode "CALL_EXPRESSION" inner :: lambdas)
    trailing base.

(** One round of the loop of [_nest_property_accessors]. *)
Definition nest_step (result : list Node) (child : Node) : list Node :=
  match last result with
  | Some prop =>
      if String.eqb (name child) "PROPERTY_ACCESSOR"
         && String.eqb (name prop) "PROPERTY"
      then <[pred (length result) :=
               mkNode "PROPERTY" (children prop ++ [child])]> result
      else result ++ [child]
  | None => result ++ [child]
  end.

(** One round of the loop of [_inject_value_parameter_list], on the pair
    [(result, param_group)]. *)
Definition inject_step (state : list Node * list Node) (child : Node) :
    list Node * list Node :=
  let '(result, param_group) := state in
  if String.eqb (name child) "VALUE_PARAMETER" then
    (result, param_group ++ [child])
  else
    let result :=
      if is_empty param_group then result
      else result ++ [mkNode "VALUE_PARAMETER_LIST" param_group] in
    (result ++ [child], []).

(** [result] is [children] with every [PROPERTY] and the whole run of
    [PROPERTY_ACCESSOR] nodes that directly follows it replaced by one
    [PROPERTY] that holds the children of the first followed by those
    accessors, every other node kept in its place. *)
Inductive accessors_absorbed : list Node -> list Node -> Prop :=
  | absorbed_nil : accessors_absorbed [] []
  | absorbed_other (c : Node) (cs rs : list Node) :
      name c <> "PROPERTY" ->
      accessors_absorbed cs rs ->
      accessors_absorbed (c :: cs) (c :: rs)
  | absorbed_run (p : Node) (accessors cs rs : list Node) :
      name p = "PROPERTY" ->
      Forall (fun a => name a = "PROPERTY_ACCESSOR") accessors ->
      (forall c, head cs = Some c -> name c <> "PROPERTY_ACCESSOR") ->
      accessors_absorbed cs rs ->
      accessors_absorbed (p :: accessors ++ cs)
        (mkNode "PROPERTY" (children p ++ accessors) :: rs).

(** [result] is [children] with every longest run of consecutive
    [VALUE_PARAMETER] nodes replaced by one [VALUE_PARAMETER_LIST] that
    holds the run, every other node kept in its place. *)
Inductive parameters_grouped : list Node -> list Node -> Prop :=
  | grouped_nil : parameters_grouped [] []
  | grouped_other (c : Node) (cs rs : list Node) :
      name c <> "VALUE_PARAMETER" ->
      parameters_grouped cs rs ->
      parameters_grouped (c :: cs) (c :: rs)
  | grouped_run (group cs rs : list Node) :
      group <> [] ->
      Forall (fun c => name c = "VALUE_PARAMETER") group ->
      (forall c, head cs = Some c -> name c <> "VALUE_PARAMETER") ->
      parameters_grouped cs rs ->
      parameters_grouped (group ++ cs)
        (mkNode "VALUE_PARAMETER_LIST" group :: rs).

(** [r] is what a child [c] becomes when bare types are wrapped: a
    [VALUE_PARAMETER] that holds [c] alone when [c] has a type name, [c]
    itself otherwise. *)
Definition wrapped_type (c r : Node) : Prop :=
  if bool_decide (name c ∈ type_names)
  then r = mkNode "VALUE_PARAMETER" [c]
  else r = c.

(** The rules of [_normalize_ts_node_mapped] that rewrite the child list,
    each as a function of [mapped_name] and the list it finds. *)
Definition rule_inject (mapped_name : string) (l : list Node) : list Node :=
  if String.eqb mapped_name "PRIMARY_CONSTRUCTOR"
     || String.eqb mapped_name "PROPERTY_ACCESSOR"
  then _inject_value_parameter_list l else l.

Definition rule_unwrap (mapped_name : string) (l : list Node) : list Node :=
  if String.eqb mapped_name "FUN" || String.eqb mapped_name "PROPERTY"
  then _unwrap_receiver_type l else l.

Definition rule_flatten (mapped_name : string) (l : list Node) : list Node :=
  if String.eqb mapped_name "CALL_EXPRESSION"
  then _flatten_call_expression l else l.

Definition rule_literal (mapped_name : string) (l : list Node) : list Node :=
  if String.eqb mapped_name "FUNCTION_LITERAL" && is_empty l
  then [leaf "BLOCK"] else l.

Definition rule_initializer (mapped_name : string) (l : list Node) :
    list Node :=
  if String.eqb mapped_name "CLASS_INITIALIZER" && negb (is_empty l)
  then [mkNode "BLOCK" l] else l.

Definition rule_object (mapped_name : string) (l : list Node) : list Node :=
  if String.eqb mapped_name "OBJECT_LITERAL" && negb (is_empty l)
  then [mkNode "OBJECT_DECLARATION" l] else l.

Definition rule_wrap (mapped_name : string) (l : list Node) : list Node :=
  if String.eqb mapped_name "VALUE_PARAMETER_LIST"
  then _wrap_bare_types_in_value_parameter l else l.

(** The child list of a mapped node after all of them, in the order of the
    source. *)
Definition children_rules (mapped_name : string) (l : list Node) :
    list Node :=
  rule_wrap mapped_name
    (rule_object mapped_name
       (rule_initializer mapped_name
          (rule_literal mapped_name
             (rule_flatten mapped_name
                (rule_unwrap mapped_name (rule_inject mapped_name l)))))).

(** No name in the tree is in [SKIP_TS_NODES]. *)
Definition clean_ts (t : Node) : Prop :=
  forall n, n ∈ names t -> n ∉ SKIP_TS_NODES.

(* ===================================================================== *)
(** ** parser_ts.py and parser_psi.py: the tree builders *)
(* ===================================================================== *)

(** The exceptions that the parsers raise. *)
Inductive Exception : Type :=
  | ValueError (msg : string)
  | IndexError.

(** What a call gives: a value, an exception, or nothing yet when the
    bound on the depth of calls was too small. *)
Inductive Outcome (A : Type) : Type :=
  | Returned (a : A)
  | Raised (e : Exception)
  | Unfinished.
Arguments Returned {A} a.
Arguments Raised {A} e.
Arguments Unfinished {A}.

(** [_parse_node(tokens, pos)] of [parser_ts.py], and its [while] loop
    ([_parse_node_loop], on [pos] and [children]).  [fuel] bounds the
    depth of calls and loop rounds; [tokens[pos]] is [tokens !! pos]. *)
Fixpoint _parse_node (fuel : nat) (tokens : list string) (pos : nat) :
    Outcome (Node * nat) :=
  match fuel with
  | 0 => Unfinished
  | S fuel =>
      if match tokens !! pos with
         | Some tok => negb (String.eqb tok "(")
         | None => true
         end
      then Raised (ValueError
             ("Expected '(' at position " +:+ str pos +:+ ", got "
              +:+ default "EOF" (tokens !! pos)))
      else
        let pos := pos + 1 in
        match tokens !! pos with
        | None => Raised (ValueError "Unexpected end of input after '('")
        | Some name =>
            let pos := pos + 1 in
            match _parse_node_loop fuel tokens pos [] with
            | Returned (children, pos) =>
                if Nat.leb (length tokens) pos then
                  Raised (ValueError "Unexpected end of input, expected ')'")
                else
                  let pos := pos + 1 in
                  Returned (mkNode name children, pos)
            | Raised e => Raised e
            | Unfinished => Unfinished
            end
        end
  end
with _parse_node_loop (fuel : nat) (tokens : list string) (pos : nat)
    (children : list Node) : Outcome (list Node * nat) :=
  match fuel with
  | 0 => Unfinished
  | S fuel =>
      match tokens !! pos with
      | None => Returned (children, pos)
      | Some tok =>
          if String.eqb tok ")" then Returned (children, pos)
          else if String.eqb tok "(" then
            match _parse_node fuel tokens pos with
            | Returned (child, pos) =>
                _parse_node_loop fuel tokens pos (children ++ [child])
            | Raised e => Raised e
            | Unfinished => Unfinished
            end
          else _parse_node_loop fuel tokens (pos + 1) children
      end
  end.

(** The tokens of a tree as an S-expression: [(], the name, the children,
    [)]. *)
Fixpoint tokens_of (t : Node) : list string :=
  "(" :: name t :: flat_map tokens_of (children t) ++ [")"].

(** The tokens that [_parse_node] looks at: the parentheses and the token
    after each opening one; [after_open] tells that the token before was
    an opening parenthesis read as such. *)
Fixpoint significant (after_open : bool) (tokens : list string) :
    list string :=
  match tokens with
  | [] => []
  | tok :: rest =>
      if after_open then tok :: significant false rest
      else if String.eqb tok "(" then tok :: significant true rest
      else if String.eqb tok ")" then tok :: significant false rest
      else significant false rest
  end.

(** [tokens[i:j]]. *)
Definition slice {A : Type} (l : list A) (i j : nat) : list A :=
  take (j - i) (drop i l).

(** [_build_tree(lines, start, parent_indent)] of [parser_psi.py], and its
    [while] loop ([_build_tree_loop], on [i] and [node.children]; [indent]
    is that of the node being built). *)
Fixpoint _build_tree (fuel : nat) (lines : list (Z * string)) (start : nat)
    (parent_indent : Z) : Outcome (Node * nat) :=
  match fuel with
  | 0 => Unfinished
  | S fuel =>
      match lines !! start with
      | None => Raised IndexError
      | Some (indent, name) =>
          let i := start + 1 in
          match _build_tree_loop fuel lines i indent [] with
          | Returned (children, i) => Returned (mkNode name children, i)
          | Raised e => Raised e
          | Unfinished => Unfinished
          end
      end
  end
with _build_tree_loop (fuel : nat) (lines : list (Z * string)) (i : nat)
    (indent : Z) (children : list Node) : Outcome (list Node * nat) :=
  match fuel with
  | 0 => Unfinished
  | S fuel =>
      match lines !! i with
      | None => Returned (children, i)
      | Some (child_indent, _) =>
          if Z.leb child_indent indent then Returned (children, i)
          else
            match _build_tree fuel lines i indent with
            | Returned (child, i) =>
                _build_tree_loop fuel lines i indent (children ++ [child])
            | Raised e => Raised e
            | Unfinished => Unfinished
            end
      end
  end.

(** The lines of a tree in the indented format, the root at indent [d] and
    each level [step] columns further in. *)
Fixpoint lines_of (step d : Z) (t : Node) : list (Z * string) :=
  (d, name t) :: flat_map (lines_of step (d + step)%Z) (children t).

(** [stripped.startswith(p)] is [String.prefix p stripped].
    [_should_skip] of [parser_psi.py]. *)
Definition _should_skip (stripped : string) : bool :=
  if String.prefix "PsiElement(" stripped then true
  else if String.prefix "PsiWhiteSpace(" stripped then true
  else if String.prefix "PsiComment(" stripped then true
  else if String.prefix "PsiErrorElement" stripped then true
  else if String.eqb stripped "<empty list>" then true
  else false.

(** The character classes [[A-Z]] and [[A-Z_0-9]], by character code
    ([A] is 65, [Z] 90, [_] 95, [0] 48, [9] 57; a line feed is 10). *)
Definition is_upper (c : Ascii.ascii) : bool :=
  Nat.leb 65 (Ascii.nat_of_ascii c) && Nat.leb (Ascii.nat_of_ascii c) 90.

Definition is_upper_digit_underscore (c : Ascii.ascii) : bool :=
  is_upper c
  || Nat.eqb (Ascii.nat_of_ascii c) 95
  || (Nat.leb 48 (Ascii.nat_of_ascii c) && Nat.leb (Ascii.nat_of_ascii c) 57).

(** [[A-Z_0-9]*$] at the start of a string: characters of the class up to
    the end of the string, or up to a line feed that ends it, which is
    where [$] matches. *)
Fixpoint matches_tail (s : string) : bool :=
  match s with
  | EmptyString => true
  | String c s' =>
      if is_upper_digit_underscore c then matches_tail s'
      else Nat.eqb (Ascii.nat_of_ascii c) 10 && String.eqb s' ""
  end.

(** [_is_composite_node] of [parser_psi.py]:
    [re.match(r"^[A-Z][A-Z_0-9]*$", name)]. *)
Definition _is_composite_node (name : string) : bool :=
  match name with
  | EmptyString => false
  | String c s' => is_upper c && matches_tail s'
  end.

(** [sub in s] for strings. *)
Fixpoint contains (sub s : string) : bool :=
  String.prefix sub s
  || match s with
     | EmptyString => false
     | String _ s' => contains sub s'
     end.

(** [s.count(sub)]: the occurrences of [sub] in [s] that do not overlap,
    found from the left; [skip] characters are passed over first, those of
    the occurrence just counted. *)
Fixpoint count_from (sub : string) (skip : nat) (s : string) : nat :=
  match s with
  | EmptyString => 0
  | String _ s' =>
      match skip with
      | S k => count_from sub k s'
      | 0 =>
          if String.prefix sub s
          then S (count_from sub (String.length sub - 1) s')
          else count_from sub 0 s'
      end
  end.

Definition count (sub s : string) : nat :=
  if String.eqb sub "" then S (String.length s) else count_from sub 0 s.

(** [_has_parse_errors] and [_count_parse_errors] of [runner.py]. *)
Definition _has_parse_errors (ts_output : string) : bool :=
  contains "(ERROR" ts_output || contains "(MISSING" ts_output.

Definition _count_parse_errors (ts_output : string) : nat :=
  count "(ERROR" ts_output + count "(MISSING" ts_output.

(** The kind of a difference seen from the other side. *)
Definition mirror_kind (k : DiffKind) : DiffKind :=
  match k with
  | EXTRA_CHILD => MISSING_CHILD
  | MISSING_CHILD => EXTRA_CHILD
  | NAME_MISMATCH => NAME_MISMATCH
  | CHILD_COUNT_MISMATCH => CHILD_COUNT_MISMATCH
  end.

(** [d'] says of the swapped trees what [d] says: expected and actual
    change places, a missing child is an extra one. *)
Definition mirrored (d d' : Difference) : Prop :=
  expected d' = actual d /\ actual d' = expected d
  /\ kind d' = mirror_kind (kind d).

(* ===================================================================== *)
(** ** The comparator: what one call records *)
(* ===================================================================== *)

Lemma depth_unfold (t : Node) : depth t = S (forest_depth (children t)).
Proof. destruct t; reflexivity. Qed.

Lemma fold_left_append {A B : Type} (f : A -> B) (l : list A) (acc : list B) :
  fold_left (fun acc i => acc ++ [f i]) l acc = acc ++ map f l.
Proof.
  revert acc. induction l as [|a l IH]; intros acc; simpl.
  - by rewrite app_nil_r.
  - rewrite IH. by rewrite <- app_assoc.
Qed.

Lemma _compare_nodes_unfold (t p : Node) (path : string) (acc : list Difference) :
  _compare_nodes t p path acc =
    let current_path := current_path_of path (name p) in
    pairwise (fun t' p' => _compare_nodes t' p' current_path)
      (children t) (children p)
      ((acc ++ name_diff t p current_path) ++ count_diff t p current_path)
    ++ extra_diffs t p current_path ++ missing_diffs t p current_path.
Proof.
  destruct t as [tn tcs]. cbn [_compare_nodes name children].
  rewrite !fold_left_append. cbv zeta.
  unfold name_diff, count_diff, extra_diffs, missing_diffs. cbn [name children].
  rewrite <- app_assoc. f_equal. f_equal.
  destruct (negb (String.eqb tn (name p))), (negb (Nat.eqb (length tcs) (length (children p))));
    by rewrite ?app_nil_r.
Qed.

(** The accumulator is only ever extended. *)
Lemma _compare_nodes_acc (t : Node) :
  forall (p : Node) (path : string) (acc : list Difference),
    _compare_nodes t p path acc = acc ++ diffs t p path.
Proof.
  induction t as [tn tcs IH] using Node_forall_ind. intros p path acc.
  unfold diffs. rewrite !_compare_nodes_unfold. cbv zeta. cbn [name children].
  set (cp := current_path_of path (name p)).
  assert (Hpw : forall pcs a,
    pairwise (fun t' p' => _compare_nodes t' p' cp) tcs pcs a =
      a ++ pairwise (fun t' p' => _compare_nodes t' p' cp) tcs pcs []).
  { induction IH as [|t' tcs' Ht' _ IHl]; intros pcs a.
    - simpl. by rewrite app_nil_r.
    - destruct pcs as [|p' pcs']; simpl; [by rewrite app_nil_r|].
      rewrite (IHl pcs' (_compare_nodes t' p' cp a)).
      rewrite (IHl pcs' (_compare_nodes t' p' cp [])).
      rewrite (Ht' p' cp a). unfold diffs. by rewrite app_assoc. }
  rewrite (Hpw (children p) ((acc ++ _) ++ _)).
  rewrite (Hpw (children p) (([] ++ _) ++ _)).
  simpl. by rewrite <- !app_assoc.
Qed.

Lemma pairwise_children_diffs (cp : string) (tcs pcs : list Node)
    (acc : list Difference) :
  pairwise (fun t' p' => _compare_nodes t' p' cp) tcs pcs acc =
    acc ++ children_diffs cp tcs pcs.
Proof.
  revert pcs acc. induction tcs as [|t' tcs' IH]; intros pcs acc; simpl.
  - by rewrite app_nil_r.
  - destruct pcs as [|p' pcs']; simpl; [by rewrite app_nil_r|].
    rewrite IH, _compare_nodes_acc. by rewrite app_assoc.
Qed.

(** One call of [_compare_nodes], in the order in which it appends. *)
Lemma diffs_unfold (t p : Node) (path : string) :
  diffs t p path =
    let current_path := current_path_of path (name p) in
    name_diff t p current_path ++ count_diff t p current_path
    ++ children_diffs current_path (children t) (children p)
    ++ extra_diffs t p current_path ++ missing_diffs t p current_path.
Proof.
  unfold diffs. rewrite _compare_nodes_unfold. cbv zeta.
  rewrite pairwise_children_diffs. simpl. by rewrite <- !app_assoc.
Qed.

Lemma differences_compare_trees (ts psi : Node) :
  differences (compare_trees (Some ts) (Some psi)) = diffs ts psi "".
Proof.
  unfold compare_trees, diffs. by destruct (_compare_nodes ts psi "" []).
Qed.

Lemma status_compare_trees (ts psi : Node) :
  status (compare_trees (Some ts) (Some psi)) =
    match diffs ts psi "" with [] => MATCH | _ :: _ => MISMATCH end.
Proof.
  unfold compare_trees, diffs. by destruct (_compare_nodes ts psi "" []).
Qed.

Lemma diffs_same (t : Node) : forall path, diffs t t path = [].
Proof.
  induction t as [tn tcs IH] using Node_forall_ind. intros path.
  rewrite diffs_unfold. cbv zeta. cbn [name children].
  unfold name_diff, count_diff, extra_diffs, missing_diffs. cbn [name children].
  rewrite String.eqb_refl, Nat.eqb_refl, Nat.min_id, Nat.sub_diag. simpl.
  rewrite app_nil_r.
  induction IH as [|t' tcs' Ht' _ IHl]; simpl; [done|].
  by rewrite Ht', IHl.
Qed.

(* ===================================================================== *)
(** ** Properties of the comparator *)
(* ===================================================================== *)

(** C1. For every tree [T], [compare_trees(T, T)] has status [MATCH] and an
    empty list of differences. *)
Theorem compare_trees_same (T : Node) :
  compare_trees (Some T) (Some T) = mkCompareResult MATCH [].
Proof.
  unfold compare_trees. fold (diffs T T ""). by rewrite diffs_same.
Qed.

(** C2. An absent first tree gives [TS_PARSE_ERROR] with no differences,
    whatever the second argument is, also when that is absent too; a
    present first tree with an absent second one gives [PSI_PARSE_ERROR]. *)
Theorem compare_trees_absent :
  (forall psi_tree : option Node,
     compare_trees None psi_tree = mkCompareResult TS_PARSE_ERROR [])
  /\ compare_trees None None = mkCompareResult TS_PARSE_ERROR []
  /\ (forall ts_tree : Node,
        compare_trees (Some ts_tree) None = mkCompareResult PSI_PARSE_ERROR []).
Proof. repeat split. Qed.

(* ===================================================================== *)
(** ** Positions *)
(* ===================================================================== *)

Lemma nil_not_in_child_positions rec i tcs pcs :
  [] ∉ child_positions rec i tcs pcs.
Proof.
  revert i pcs. induction tcs as [|t tcs IH]; intros i pcs; simpl.
  - apply not_elem_of_nil.
  - destruct pcs as [|p pcs]; [apply not_elem_of_nil|].
    rewrite elem_of_app. intros [H|H]; [|by eapply IH].
    apply list_elem_of_In, in_map_iff in H as (x & Hx & _). discriminate.
Qed.

Lemma elem_of_child_positions rec k tcs pcs i pos :
  (i :: pos) ∈ child_positions rec k tcs pcs ↔
  ∃ j t p, i = k + j ∧ tcs !! j = Some t ∧ pcs !! j = Some p ∧ pos ∈ rec t p.
Proof.
  revert k pcs. induction tcs as [|t tcs IH]; intros k pcs; simpl.
  - split; [by intros ?%elem_of_nil|]. by intros (j & ? & ? & _ & ? & _).
  - destruct pcs as [|p pcs].
    { split; [by intros ?%elem_of_nil|]. by intros (j & ? & ? & _ & _ & ? & _). }
    rewrite elem_of_app, IH. split.
    + intros [H|(j & t' & p' & -> & Ht & Hp & Hin)].
      * apply list_elem_of_In, in_map_iff in H as (x & [= <- <-] & Hx).
        exists 0, t, p. rewrite Nat.add_0_r. repeat split; try done.
        by apply list_elem_of_In.
      * exists (S j), t', p'. repeat split; try done. lia.
    + intros (j & t' & p' & -> & Ht & Hp & Hin). destruct j as [|j].
      * simpl in Ht, Hp. injection Ht as <-. injection Hp as <-. left.
        apply list_elem_of_In, in_map_iff. exists pos.
        rewrite Nat.add_0_r. split; [done|]. by apply list_elem_of_In.
      * right. exists j, t', p'. repeat split; try done. lia.
Qed.

(** [positions] lists exactly the positions at which both trees have a
    node ... *)
Lemma elem_of_positions (pos : list nat) :
  forall t p : Node,
    pos ∈ positions t p ↔ is_Some (subtree t pos) ∧ is_Some (subtree p pos).
Proof.
  induction pos as [|i pos IH]; intros [tn tcs] [pn pcs].
  - simpl. split; [by eauto|]. intros _. apply list_elem_of_here.
  - cbn [positions subtree children]. rewrite elem_of_cons.
    rewrite elem_of_child_positions. split.
    + intros [?|(j & t & p & -> & Ht & Hp & Hin)]; [done|].
      simpl. rewrite Ht, Hp. by apply IH.
    + intros [Ht Hp]. right.
      destruct (tcs !! i) as [t|] eqn:Et; [|by destruct Ht].
      destruct (pcs !! i) as [p|] eqn:Ep; [|by destruct Hp].
      exists i, t, p. repeat split; try done. by apply IH.
Qed.

(** ... and lists each of them once. *)
Lemma NoDup_positions (t : Node) : forall p : Node, NoDup (positions t p).
Proof.
  induction t as [tn tcs IH] using Node_forall_ind. intros [pn pcs].
  cbn [positions children]. apply NoDup_cons. split.
  { apply nil_not_in_child_positions. }
  generalize 0 as k. revert pcs.
  induction IH as [|t tcs Ht _ IHl]; intros pcs k; simpl; [apply NoDup_nil_2|].
  destruct pcs as [|p pcs]; [apply NoDup_nil_2|].
  apply NoDup_app. split; [|split].
  - change (NoDup (cons k <$> positions t p)). apply NoDup_fmap_2; [|done].
    by intros ?? [= ->].
  - intros x Hx%list_elem_of_In%in_map_iff. destruct Hx as (pos & <- & _).
    rewrite elem_of_child_positions. intros (j & ? & ? & ? & _). lia.
  - apply IHl.
Qed.

(* ===================================================================== *)
(** ** The comparator: every difference has its position *)
(* ===================================================================== *)

Lemma flat_map_map {A B C : Type} (f : B -> list C) (g : A -> B) (l : list A) :
  flat_map f (map g l) = flat_map (fun x => f (g x)) l.
Proof. induction l as [|x l IH]; simpl; [done|]. by rewrite IH. Qed.

Lemma visit_at_nil (t p : Node) (path : string) :
  visit_at t p path [] = Some (t, p, current_path_of path (name p)).
Proof. reflexivity. Qed.

Lemma visit_at_cons tn pn (tcs pcs : list Node) (path : string) i pos t p :
  tcs !! i = Some t → pcs !! i = Some p →
  visit_at (mkNode tn tcs) (mkNode pn pcs) path (i :: pos) =
    visit_at t p (current_path_of path pn) pos.
Proof. intros Ht Hp. unfold visit_at. simpl. by rewrite Ht, Hp. Qed.

Lemma children_diffs_by_position tn pn (path : string) (tcs : list Node) :
  Forall (fun t => forall (p : Node) (path : string),
            diffs t p path ≡ₚ flat_map (local_at t p path) (positions t p)) tcs ->
  forall pcs pre_t pre_p : list Node,
    length pre_t = length pre_p ->
    children_diffs (current_path_of path pn) tcs pcs ≡ₚ
      flat_map (local_at (mkNode tn (pre_t ++ tcs)) (mkNode pn (pre_p ++ pcs)) path)
        (child_positions positions (length pre_t) tcs pcs).
Proof.
  set (cp := current_path_of path pn).
  induction 1 as [|t tcs Ht _ IHl]; intros pcs pre_t pre_p Hlen; simpl; [done|].
  destruct pcs as [|p pcs]; simpl; [done|].
  rewrite flat_map_app. f_equiv.
  - rewrite (Ht p cp), flat_map_map.
    erewrite flat_map_ext; [reflexivity|]. intros pos. unfold local_at.
    rewrite (visit_at_cons _ _ _ _ _ _ _ t p); [done| |].
    + by apply list_lookup_middle.
    + by apply list_lookup_middle.
  - specialize (IHl pcs (pre_t ++ [t]) (pre_p ++ [p])).
    rewrite <- !app_assoc in IHl. simpl in IHl.
    rewrite length_app in IHl. simpl in IHl.
    rewrite Nat.add_1_r in IHl. apply IHl.
    rewrite !length_app. simpl. lia.
Qed.

(** The differences of two trees are, in some order, the differences
    recorded at their common positions. *)
Lemma diffs_by_position (t : Node) :
  forall (p : Node) (path : string),
    diffs t p path ≡ₚ flat_map (local_at t p path) (positions t p).
Proof.
  induction t as [tn tcs IH] using Node_forall_ind. intros [pn pcs] path.
  rewrite diffs_unfold. cbv zeta. cbn [positions flat_map name children].
  unfold local_at at 1. rewrite visit_at_nil. unfold local_diffs.
  cbn [name children]. set (cp := current_path_of path pn).
  pose proof (children_diffs_by_position tn pn path tcs IH pcs [] [] eq_refl) as Hc.
  simpl in Hc. fold cp in Hc.
  rewrite Hc. rewrite <- !app_assoc. do 2 f_equiv.
  rewrite (app_assoc (extra_diffs _ _ _)). apply Permutation_app_comm.
Qed.

(* ===================================================================== *)
(** ** The comparator: differences of one kind *)
(* ===================================================================== *)

Lemma filter_flat_map {A B : Type} (P : B -> Prop) `{!forall x, Decision (P x)}
    (f : A -> list B) (l : list A) :
  filter P (flat_map f l) = flat_map (fun x => filter P (f x)) l.
Proof.
  induction l as [|x l IH]; simpl; [done|]. by rewrite filter_app, IH.
Qed.

Lemma flat_map_option_list {A B : Type} (f : A -> option B) (l : list A) :
  flat_map (fun x => option_list (f x)) l = omap f l.
Proof.
  induction l as [|x l IH]; simpl; [done|]. rewrite IH. by destruct (f x).
Qed.

Lemma filter_map_none {A : Type} (P : Difference -> Prop)
    `{!forall x, Decision (P x)} (f : A -> Difference) (l : list A) :
  (forall x, ¬ P (f x)) -> filter P (map f l) = [].
Proof.
  intros Hf. induction l as [|x l IH]; simpl; [done|].
  rewrite filter_cons. destruct (decide (P (f x))); [by destruct (Hf x)|done].
Qed.

Lemma filter_map_all {A : Type} (P : Difference -> Prop)
    `{!forall x, Decision (P x)} (f : A -> Difference) (l : list A) :
  (forall x, P (f x)) -> filter P (map f l) = map f l.
Proof.
  intros Hf. induction l as [|x l IH]; simpl; [done|].
  rewrite filter_cons. destruct (decide (P (f x))) as [_|Hn]; [by rewrite IH|].
  destruct (Hn (Hf x)).
Qed.

Lemma filter_name_diff (k : DiffKind) (t p : Node) (cp : string) :
  filter (fun d => kind d = k) (name_diff t p cp) =
    if decide (k = NAME_MISMATCH) then name_diff t p cp else [].
Proof.
  unfold name_diff. destruct (negb _); [|by destruct (decide (k = NAME_MISMATCH))].
  rewrite filter_cons. cbn [kind]. rewrite filter_nil.
  destruct (decide (NAME_MISMATCH = k)) as [<-|Hk]; [done|].
  by destruct (decide (k = NAME_MISMATCH)).
Qed.

Lemma filter_count_diff (k : DiffKind) (t p : Node) (cp : string) :
  k ≠ CHILD_COUNT_MISMATCH ->
  filter (fun d => kind d = k) (count_diff t p cp) = [].
Proof.
  intros Hk. unfold count_diff. destruct (negb _); [|done].
  rewrite filter_cons. cbn [kind]. by destruct (decide (CHILD_COUNT_MISMATCH = k)).
Qed.

Lemma filter_extra_diffs (k : DiffKind) (t p : Node) (cp : string) :
  filter (fun d => kind d = k) (extra_diffs t p cp) =
    if decide (k = EXTRA_CHILD) then extra_diffs t p cp else [].
Proof.
  unfold extra_diffs. cbv zeta. destruct (decide (k = EXTRA_CHILD)) as [->|Hk].
  - by apply filter_map_all.
  - apply filter_map_none. intros i. cbn [kind]. congruence.
Qed.

Lemma filter_missing_diffs (k : DiffKind) (t p : Node) (cp : string) :
  filter (fun d => kind d = k) (missing_diffs t p cp) =
    if decide (k = MISSING_CHILD) then missing_diffs t p cp else [].
Proof.
  unfold missing_diffs. cbv zeta. destruct (decide (k = MISSING_CHILD)) as [->|Hk].
  - by apply filter_map_all.
  - apply filter_map_none. intros i. cbn [kind]. congruence.
Qed.

(** The members of a list from index [k] on, through [nth]. *)
Lemma drop_indexed_from (l : list Node) (d : Node) :
  forall n k : nat,
    drop k (indexed_from n l) =
      map (fun i => (n + i, nth i l d)) (seq k (length l - k)).
Proof.
  induction l as [|c l IH]; intros n k.
  - by destruct k.
  - destruct k as [|k].
    + rewrite drop_0. cbn [indexed_from length seq map nth Nat.sub].
      rewrite Nat.add_0_r. f_equal.
      pose proof (IH (S n) 0) as IH0. rewrite Nat.sub_0_r in IH0.
      rewrite drop_0 in IH0. rewrite IH0.
      rewrite <- seq_shift, map_map. apply map_ext. intros i. f_equal. lia.
    + cbn [indexed_from length Nat.sub]. rewrite skipn_cons, (IH (S n) k).
      rewrite <- seq_shift, map_map. apply map_ext. intros i.
      cbn [nth]. f_equal. lia.
Qed.

Lemma seq_beyond (lt lp : nat) :
  seq (Nat.min lt lp) (lt - Nat.min lt lp) = seq lp (lt - lp).
Proof.
  destruct (le_lt_dec lt lp) as [H|H].
  - rewrite Nat.min_l by done. rewrite Nat.sub_diag.
    replace (lt - lp) with 0 by lia. done.
  - rewrite Nat.min_r by lia. done.
Qed.

Lemma extra_diffs_unmatched (t p : Node) (cp : string) :
  extra_diffs t p cp =
    map (fun '(i, c) =>
           mkDifference (cp +:+ " > [child " +:+ str i +:+ "]")
             "(absent)" (name c) EXTRA_CHILD)
      (unmatched (children t) (children p)).
Proof.
  unfold extra_diffs, unmatched. cbv zeta.
  rewrite (drop_indexed_from _ (leaf "")), map_map, seq_beyond. done.
Qed.

Lemma missing_diffs_unmatched (t p : Node) (cp : string) :
  missing_diffs t p cp =
    map (fun '(i, c) =>
           mkDifference (cp +:+ " > [child " +:+ str i +:+ "]")
             (name c) "(absent)" MISSING_CHILD)
      (unmatched (children p) (children t)).
Proof.
  unfold missing_diffs, unmatched. cbv zeta.
  rewrite (drop_indexed_from _ (leaf "")), map_map, Nat.min_comm, seq_beyond. done.
Qed.

Lemma filter_diffs_by_position (k : DiffKind) (ts psi : Node) :
  filter (fun d => kind d = k) (differences (compare_trees (Some ts) (Some psi)))
  ≡ₚ flat_map (fun pos => filter (fun d => kind d = k) (local_at ts psi "" pos))
       (positions ts psi).
Proof.
  rewrite differences_compare_trees, (diffs_by_position ts psi "").
  by rewrite filter_flat_map.
Qed.

Lemma append_assoc (a b c : string) : (a +:+ b) +:+ c = a +:+ b +:+ c.
Proof.
  induction a as [|x a IH]; [reflexivity|].
  change (String x ((a +:+ b) +:+ c) = String x (a +:+ b +:+ c)).
  by rewrite IH.
Qed.

Lemma concat_extend (a b : string) (l : list string) :
  String.concat " > " ((a +:+ " > " +:+ b) :: l)
  = a +:+ " > " +:+ String.concat " > " (b :: l).
Proof.
  destruct l as [|c l]; [reflexivity|].
  change (((a +:+ " > " +:+ b) +:+ " > " +:+ String.concat " > " (c :: l))
          = a +:+ " > " +:+ (b +:+ " > " +:+ String.concat " > " (c :: l))).
  by rewrite !append_assoc.
Qed.

(** Below a path that is not empty, the code's path is the join. *)
Lemma fold_current_path (names : list string) :
  forall p, p <> "" ->
    fold_left current_path_of names p = String.concat " > " (p :: names).
Proof.
  induction names as [|n names IH]; intros p Hp; [reflexivity|].
  cbn [fold_left]. unfold current_path_of at 2.
  apply String.eqb_neq in Hp. rewrite Hp. rewrite IH.
  - apply concat_extend.
  - destruct p; [by apply String.eqb_neq in Hp|discriminate].
Qed.

Lemma fold_current_path_breadcrumb (names : list string) :
  fold_left current_path_of names "" = breadcrumb names.
Proof.
  unfold breadcrumb. induction names as [|n names IH]; [reflexivity|].
  cbn [fold_left drop_empty].
  change (current_path_of "" n) with n.
  destruct (String.eqb_spec n "") as [->|Hn]; [exact IH|].
  by apply fold_current_path.
Qed.

Lemma path_to_names (pos : list nat) :
  forall (psi : Node) (prefix : string),
    path_to psi prefix pos
    = (fun names => fold_left current_path_of names prefix)
        <$> names_to psi pos.
Proof.
  induction pos as [|i pos IH]; intros psi prefix; [reflexivity|].
  cbn [path_to names_to]. destruct (children psi !! i) as [c|]; [|reflexivity].
  rewrite IH. by destruct (names_to c pos).
Qed.

Lemma name_mismatch_at_record (ts psi : Node) (pos : list nat) :
  name_mismatch_at ts psi pos = name_mismatch_record ts psi pos.
Proof.
  unfold name_mismatch_at, name_mismatch_record, visit_at.
  rewrite path_to_names.
  destruct (subtree ts pos) as [t|]; [|reflexivity].
  destruct (subtree psi pos) as [p|]; [|reflexivity].
  destruct (names_to psi pos) as [names|]; [|reflexivity].
  cbn [fmap option_fmap option_map]. by rewrite fold_current_path_breadcrumb.
Qed.

Lemma breadcrumb_is_join (psi : Node) :
  name psi <> "" ->
  forall pos names,
    names_to psi pos = Some names ->
    breadcrumb names = String.concat " > " names.
Proof.
  intros Hroot%String.eqb_neq pos names Hnames.
  assert (Hhead : exists rest, names = name psi :: rest).
  { destruct pos as [|i pos]; cbn [names_to] in Hnames.
    - injection Hnames as <-. by eexists.
    - destruct (children psi !! i) as [c|]; [|discriminate Hnames].
      destruct (names_to c pos) as [rest|]; [|discriminate Hnames].
      injection Hnames as <-. by eexists. }
  destruct Hhead as [rest ->]. unfold breadcrumb. cbn [drop_empty].
  by rewrite Hroot.
Qed.

(** C3. One [NAME_MISMATCH] is recorded for each position at which both
    trees have a node and the two names differ, whether or not the names
    above it agree: its path is the breadcrumb of the reference names from
    the root down to that position ([expected] the reference name and
    [actual] the candidate name), and that breadcrumb is those names
    joined by [" > "] unless the root's name is empty.  [positions] lists
    every common position once.  In particular, comparing [X[A]] with
    [X[B]] records one [NAME_MISMATCH], at ["X > B"], expected ["B"],
    actual ["A"]. *)
Theorem name_mismatch_per_position :
  forall ts psi : Node,
    let recorded :=
      filter (fun d => kind d = NAME_MISMATCH)
        (differences (compare_trees (Some ts) (Some psi))) in
    NoDup (positions ts psi)
    /\ (forall pos,
          pos ∈ positions ts psi <->
          is_Some (subtree ts pos) /\ is_Some (subtree psi pos))
    /\ recorded ≡ₚ omap (name_mismatch_record ts psi) (positions ts psi)
    /\ (name psi <> "" ->
        forall pos names,
          names_to psi pos = Some names ->
          breadcrumb names = String.concat " > " names)
    /\ compare_trees (Some (mkNode "X" [leaf "A"])) (Some (mkNode "X" [leaf "B"]))
       = mkCompareResult MISMATCH [mkDifference "X > B" "B" "A" NAME_MISMATCH].
Proof.
  intros ts psi recorded. split; [apply NoDup_positions|].
  split; [intros pos; apply elem_of_positions|].
  split; [|split; [exact (breadcrumb_is_join psi)|reflexivity]].
  unfold recorded. rewrite filter_diffs_by_position.
  rewrite <- flat_map_option_list.
  erewrite flat_map_ext; [reflexivity|]. intros pos.
  cbv beta. rewrite <- name_mismatch_at_record.
  unfold local_at, name_mismatch_at.
  destruct (visit_at ts psi "" pos) as [[[t p] cp]|]; [|done].
  unfold local_diffs. rewrite !filter_app, filter_name_diff,
    filter_count_diff, filter_extra_diffs, filter_missing_diffs by done.
  simpl. rewrite app_nil_r. unfold name_diff.
  destruct (decide (name t = name p)) as [->|Hne].
  - by rewrite String.eqb_refl.
  - apply String.eqb_neq in Hne. by rewrite Hne.
Qed.

(** C4, as the code has it. One [EXTRA_CHILD] is recorded for each
    candidate child beyond the length of the reference's child list
    (expected ["(absent)"], actual the child's name), and one
    [MISSING_CHILD] for each reference child beyond the length of the
    candidate's (expected the child's name, actual ["(absent)"]), at every
    common position; the path is that of the parent followed by
    [" > [child i]"], [i] being the zero-based index of the unmatched
    child, so it ends in ["[child i]"].  In particular, comparing
    [X[A, B]] with [X[A]] records a [CHILD_COUNT_MISMATCH] with expected
    ["1"] and actual ["2"], and an [EXTRA_CHILD] at ["X > [child 1]"] with
    actual ["B"]. *)
Theorem unmatched_children_per_position :
  forall ts psi : Node,
    let recorded := differences (compare_trees (Some ts) (Some psi)) in
    NoDup (positions ts psi)
    /\ (forall pos,
          pos ∈ positions ts psi <->
          is_Some (subtree ts pos) /\ is_Some (subtree psi pos))
    /\ filter (fun d => kind d = EXTRA_CHILD) recorded
       ≡ₚ flat_map (extra_children_at ts psi) (positions ts psi)
    /\ filter (fun d => kind d = MISSING_CHILD) recorded
       ≡ₚ flat_map (missing_children_at ts psi) (positions ts psi)
    /\ (forall d,
          d ∈ recorded -> kind d = EXTRA_CHILD \/ kind d = MISSING_CHILD ->
          exists (parent : string) (i : nat),
            path d = (parent +:+ " > ") +:+ "[child " +:+ str i +:+ "]")
    /\ compare_trees (Some (mkNode "X" [leaf "A"; leaf "B"]))
         (Some (mkNode "X" [leaf "A"]))
       = mkCompareResult MISMATCH
           [mkDifference "X" "1" "2" CHILD_COUNT_MISMATCH;
            mkDifference "X > [child 1]" "(absent)" "B" EXTRA_CHILD].
Proof.
  intros ts psi recorded.
  assert (Hextra : filter (fun d => kind d = EXTRA_CHILD) recorded
       ≡ₚ flat_map (extra_children_at ts psi) (positions ts psi)).
  { unfold recorded. rewrite filter_diffs_by_position.
    erewrite flat_map_ext; [reflexivity|]. intros pos.
    unfold local_at, extra_children_at.
    destruct (visit_at ts psi "" pos) as [[[t p] cp]|]; [|done].
    unfold local_diffs. rewrite !filter_app, filter_name_diff,
      filter_count_diff, filter_extra_diffs, filter_missing_diffs by done.
    simpl. rewrite app_nil_r. apply extra_diffs_unmatched. }
  assert (Hmissing : filter (fun d => kind d = MISSING_CHILD) recorded
       ≡ₚ flat_map (missing_children_at ts psi) (positions ts psi)).
  { unfold recorded. rewrite filter_diffs_by_position.
    erewrite flat_map_ext; [reflexivity|]. intros pos.
    unfold local_at, missing_children_at.
    destruct (visit_at ts psi "" pos) as [[[t p] cp]|]; [|done].
    unfold local_diffs. rewrite !filter_app, filter_name_diff,
      filter_count_diff, filter_extra_diffs, filter_missing_diffs by done.
    simpl. apply missing_diffs_unmatched. }
  split; [apply NoDup_positions|].
  split; [intros pos; apply elem_of_positions|].
  split; [exact Hextra|]. split; [exact Hmissing|]. split; [|reflexivity].
  intros d Hd [Hk|Hk].
  - assert (Hin : d ∈ filter (fun d => kind d = EXTRA_CHILD) recorded)
      by (by apply list_elem_of_filter).
    rewrite Hextra in Hin. apply list_elem_of_In, in_flat_map in Hin.
    destruct Hin as (pos & _ & Hin). unfold extra_children_at in Hin.
    destruct (visit_at ts psi "" pos) as [[[t p] cp]|]; [|done].
    apply in_map_iff in Hin as ([i c] & <- & _). exists cp, i.
    cbn [path]. by rewrite append_assoc.
  - assert (Hin : d ∈ filter (fun d => kind d = MISSING_CHILD) recorded)
      by (by apply list_elem_of_filter).
    rewrite Hmissing in Hin. apply list_elem_of_In, in_flat_map in Hin.
    destruct Hin as (pos & _ & Hin). unfold missing_children_at in Hin.
    destruct (visit_at ts psi "" pos) as [[[t p] cp]|]; [|done].
    apply in_map_iff in Hin as ([i c] & <- & _). exists cp, i.
    cbn [path]. by rewrite append_assoc.
Qed.

(** C4, as the specification words its example: no [EXTRA_CHILD] is
    recorded at the path ["X[child 1]"]; the one that is recorded has the
    path ["X > [child 1]"]. *)
Lemma extra_child_path_has_separator :
  differences (compare_trees (Some (mkNode "X" [leaf "A"; leaf "B"]))
                 (Some (mkNode "X" [leaf "A"])))
  = [mkDifference "X" "1" "2" CHILD_COUNT_MISMATCH;
     mkDifference "X > [child 1]" "(absent)" "B" EXTRA_CHILD]
  /\ ~ (exists d,
          d ∈ differences (compare_trees (Some (mkNode "X" [leaf "A"; leaf "B"]))
                             (Some (mkNode "X" [leaf "A"])))
          /\ kind d = EXTRA_CHILD /\ path d = "X[child 1]").
Proof.
  split; [reflexivity|]. intros (d & Hd & Hk & Hp).
  change (d ∈ [mkDifference "X" "1" "2" CHILD_COUNT_MISMATCH;
     mkDifference "X > [child 1]" "(absent)" "B" EXTRA_CHILD]) in Hd.
  apply elem_of_cons in Hd as [->|Hd]; [discriminate|].
  apply elem_of_cons in Hd as [->|Hd]; [discriminate|].
  by apply elem_of_nil in Hd.
Qed.

(* ===================================================================== *)
(** ** Facts about the tables of mapping.py *)
(* ===================================================================== *)

#[local] Opaque TS_TO_PSI SKIP_TS_NODES SKIP_PSI_NODES WRAPPER_COLLAPSE
  type_names type_children.

(** [test_every_skip_ts_node_has_none_mapping]. *)
Lemma skip_ts_has_no_mapping (n : string) :
  n ∈ SKIP_TS_NODES -> TS_TO_PSI !! n = Some None.
Proof.
  intros Hn.
  assert (Hall : forallb (fun n => bool_decide (TS_TO_PSI !! n = Some None))
                   (elements SKIP_TS_NODES) = true) by (vm_compute; reflexivity).
  rewrite forallb_forall in Hall.
  apply elem_of_elements, list_elem_of_In, Hall in Hn.
  by apply bool_decide_eq_true in Hn.
Qed.

Lemma skip_ts_get (n : string) : n ∈ SKIP_TS_NODES -> TS_TO_PSI_get n = None.
Proof. intros Hn. unfold TS_TO_PSI_get. by rewrite skip_ts_has_no_mapping. Qed.

(** The keys of [TS_TO_PSI] with a given value are among those that a scan
    of the table finds. *)
Lemma keys_of_value (v : option string) (n : string) :
  TS_TO_PSI !! n = Some v ->
  n ∈ (map_to_list TS_TO_PSI ≫= fun kv => if decide (kv.2 = v) then [kv.1] else []).
Proof.
  intros Hn. apply elem_of_map_to_list in Hn. apply list_elem_of_bind.
  exists (n, v). split; [|done]. simpl. rewrite decide_True by done.
  apply list_elem_of_here.
Qed.

(** Scans the table for the keys of the value in [H] and closes the goal at
    each of them. *)
Ltac scan_keys H :=
  apply keys_of_value in H; vm_compute in H;
  repeat (apply elem_of_cons in H as [->|H]; [by auto|]);
  by apply elem_of_nil in H.

Lemma mapped_to_FUN (n : string) :
  TS_TO_PSI !! n = Some (Some "FUN") ->
  n = "function_declaration" \/ n = "anonymous_function".
Proof. intros Hn. scan_keys Hn. Qed.

Lemma mapped_to_PROPERTY (n : string) :
  TS_TO_PSI !! n = Some (Some "PROPERTY") -> n = "property_declaration".
Proof. intros Hn. scan_keys Hn. Qed.

(** Both wildcard keys of [WRAPPER_COLLAPSE] are in [SKIP_PSI_NODES]. *)
Lemma wildcard_keys_are_skipped (n : string) :
  WRAPPER_COLLAPSE !! n = Some "*" -> n ∈ SKIP_PSI_NODES.
Proof.
  intros Hn.
  assert (Hall : forallb (fun kv : string * string =>
                    implb (String.eqb kv.2 "*") (bool_decide (kv.1 ∈ SKIP_PSI_NODES)))
                   (map_to_list WRAPPER_COLLAPSE) = true) by (vm_compute; reflexivity).
  rewrite forallb_forall in Hall.
  apply elem_of_map_to_list, list_elem_of_In, Hall in Hn. simpl in Hn.
  by apply bool_decide_eq_true in Hn.
Qed.

(** The names that [_normalize_psi_node] prunes by name before it consults
    the skip set are not in the skip set. *)
Lemma pruned_names_not_skipped (n : string) :
  n ∈ SKIP_PSI_NODES ->
  String.eqb n "PACKAGE_DIRECTIVE" = false
  /\ String.eqb n "IMPORT_LIST" = false
  /\ String.eqb n "MODIFIER_LIST" = false
  /\ String.eqb n "VALUE_PARAMETER_LIST" = false
  /\ String.eqb n "DOT_QUALIFIED_EXPRESSION" = false.
Proof.
  intros Hn.
  assert (Hall : forallb (fun n =>
      negb (String.eqb n "PACKAGE_DIRECTIVE") && negb (String.eqb n "IMPORT_LIST")
      && negb (String.eqb n "MODIFIER_LIST")
      && negb (String.eqb n "VALUE_PARAMETER_LIST")
      && negb (String.eqb n "DOT_QUALIFIED_EXPRESSION"))
    (elements SKIP_PSI_NODES) = true) by (vm_compute; reflexivity).
  rewrite forallb_forall in Hall.
  apply elem_of_elements, list_elem_of_In, Hall in Hn.
  repeat (apply andb_prop in Hn as [Hn ?]).
  repeat split; by apply negb_true_iff.
Qed.

(* ===================================================================== *)
(** ** The normalizers: the recursion as Python has it *)
(* ===================================================================== *)

Lemma _normalize_ts_child_unfold (node : Node) :
  _normalize_ts_child node =
    match _normalize_ts_node node with
    | Some result => [result]
    | None => flat_map _normalize_ts_child (children node)
    end.
Proof. by destruct node. Qed.

Lemma _normalize_psi_child_unfold (node : Node) :
  _normalize_psi_child node =
    match _normalize_psi_node node with
    | Some result => [result]
    | None => flat_map _normalize_psi_child (children node)
    end.
Proof. by destruct node. Qed.

Lemma _flatten_call_expression_unfold (inner : Node) (rest : list Node) :
  _flatten_call_expression (inner :: rest) =
    if negb (String.eqb (name inner) "CALL_EXPRESSION") then inner :: rest
    else _flatten_call_expression (children inner) ++ rest.
Proof.
  cbn [_flatten_call_expression]. destruct (negb _); [done|]. f_equal.
  destruct inner as [n [|c cs]]; [done|]. cbn [flatten_inner children].
  cbn [_flatten_call_expression]. by destruct (String.eqb (name c) _).
Qed.

(* ===================================================================== *)
(** ** The normalizers: skipped nodes *)
(* ===================================================================== *)

Lemma length_one_head (l : list Node) :
  Nat.eqb (length l) 1 = true -> exists c, l = [c] /\ head l = Some c.
Proof. destruct l as [|c [|c' l]]; try done. by exists c. Qed.

(** A skipped tree-sitter node, by the number of its normalized
    children. *)
Lemma ts_body_skip (node : Node) (raw : list Node) :
  name node ∈ SKIP_TS_NODES ->
  _normalize_ts_node_body node raw =
    if Nat.eqb (length (_nest_property_accessors raw)) 1
    then head (_nest_property_accessors raw) else None.
Proof.
  intros Hn. unfold _normalize_ts_node_body.
  rewrite (bool_decide_eq_true_2 _ Hn), (skip_ts_get _ Hn).
  cbv iota. cbv zeta.
  destruct (Nat.ltb 1 (length (_nest_property_accessors raw))); reflexivity.
Qed.

(** A tree-sitter node with no mapped name that is not in the skip set. *)
Lemma ts_body_unmapped (node : Node) (raw : list Node) :
  name node ∉ SKIP_TS_NODES -> TS_TO_PSI_get (name node) = None ->
  _normalize_ts_node_body node raw =
    let normalized_children := _nest_property_accessors raw in
    if Nat.eqb (length normalized_children) 1 then head normalized_children
    else if Nat.ltb 1 (length normalized_children)
         then Some (mkNode (name node) normalized_children)
         else None.
Proof.
  intros Hn Hget. unfold _normalize_ts_node_body.
  rewrite (bool_decide_eq_false_2 _ Hn), Hget. reflexivity.
Qed.

(** A skipped PSI node, by the number of its normalized children. *)
Lemma psi_body_skip (node : Node) (nc : list Node) :
  name node ∈ SKIP_PSI_NODES ->
  _normalize_psi_node_body node nc =
    if Nat.eqb (length nc) 1 then head nc else None.
Proof.
  intros Hn. unfold _normalize_psi_node_body.
  destruct (pruned_names_not_skipped _ Hn) as (-> & -> & -> & -> & ->).
  cbn [andb]. rewrite (bool_decide_eq_true_2 _ Hn).
  destruct (Nat.ltb 1 (length nc)); reflexivity.
Qed.

(** C6. A tree-sitter node whose name has the value [None] in [TS_TO_PSI]
    and that ends up with exactly one normalized child is replaced by that
    child: [normalize_ts] returns the child for it, and in the child list
    of a parent the child stands in its place. *)
Theorem unmapped_single_child_promoted (node c : Node) :
  TS_TO_PSI !! name node = Some None ->
  normalized_children_ts node = [c] ->
  normalize_ts node = Some c /\ _normalize_ts_child node = [c].
Proof.
  intros Hmap Hone.
  assert (Hnode : _normalize_ts_node node = Some c).
  { unfold _normalize_ts_node. cbv zeta.
    unfold normalized_children_ts in Hone.
    destruct (decide (name node ∈ SKIP_TS_NODES)) as [Hs|Hs].
    - rewrite (ts_body_skip _ _ Hs), Hone. reflexivity.
    - assert (Hget : TS_TO_PSI_get (name node) = None)
        by (unfold TS_TO_PSI_get; rewrite Hmap; reflexivity).
      rewrite (ts_body_unmapped _ _ Hs Hget). cbv zeta. rewrite Hone.
      reflexivity. }
  split; [exact Hnode|]. rewrite _normalize_ts_child_unfold, Hnode. reflexivity.
Qed.

(** C6 at [statements] over one [integer_literal]. *)
Lemma unmapped_single_child_promoted_witness :
  normalize_ts (mkNode "statements" [leaf "integer_literal"])
  = Some (leaf "INTEGER_CONSTANT")
  /\ _normalize_ts_child (mkNode "statements" [leaf "integer_literal"])
     = [leaf "INTEGER_CONSTANT"].
Proof.
  apply (unmapped_single_child_promoted
           (mkNode "statements" [leaf "integer_literal"])
           (leaf "INTEGER_CONSTANT")); vm_compute; reflexivity.
Defined.

(** C5, as the specification words it, fails on both sides: a node of a
    skip set that ends up with two normalized children and has no mapped
    name is not turned into a node of its own name; the normalizer returns
    [None] for it. *)
Lemma skipped_node_is_not_retained :
  (name (mkNode "statements" [leaf "integer_literal"; leaf "integer_literal"])
     ∈ SKIP_TS_NODES
   /\ TS_TO_PSI_get "statements" = None
   /\ normalized_children_ts
        (mkNode "statements" [leaf "integer_literal"; leaf "integer_literal"])
      = [leaf "INTEGER_CONSTANT"; leaf "INTEGER_CONSTANT"]
   /\ normalize_ts
        (mkNode "statements" [leaf "integer_literal"; leaf "integer_literal"])
      = None)
  /\ (name (mkNode "BODY" [leaf "CLASS"; leaf "FUN"]) ∈ SKIP_PSI_NODES
      /\ normalized_children_psi (mkNode "BODY" [leaf "CLASS"; leaf "FUN"])
         = [leaf "CLASS"; leaf "FUN"]
      /\ normalize_psi (mkNode "BODY" [leaf "CLASS"; leaf "FUN"]) = None).
Proof.
  repeat split; vm_compute; reflexivity.
Qed.

(** C5, as the code has it. A tree-sitter node that has no mapped name and
    is not in the skip set, and ends up with more than one normalized
    child, becomes a node of its own name with all of those children.  A
    node of either skip set that ends up with more than one normalized
    child is dropped ([None]); the child-level function then splices the
    normalized children of the dropped node into the list of its parent,
    so none of them is lost below the root. *)
Theorem multiple_children_fallback :
  (forall node : Node,
     name node ∉ SKIP_TS_NODES -> TS_TO_PSI_get (name node) = None ->
     1 < length (normalized_children_ts node) ->
     normalize_ts node
     = Some (mkNode (name node) (normalized_children_ts node)))
  /\ (forall node : Node,
        name node ∈ SKIP_TS_NODES ->
        1 < length (normalized_children_ts node) ->
        normalize_ts node = None
        /\ _normalize_ts_child node
           = flat_map _normalize_ts_child (children node))
  /\ (forall node : Node,
        name node ∈ SKIP_PSI_NODES ->
        1 < length (normalized_children_psi node) ->
        normalize_psi node = None
        /\ _normalize_psi_child node = normalized_children_psi node).
Proof.
  split; [|split].
  - intros node Hs Hget Hlen. unfold normalize_ts, _normalize_ts_node. cbv zeta.
    rewrite (ts_body_unmapped _ _ Hs Hget). cbv zeta.
    fold (normalized_children_ts node).
    destruct (Nat.eqb_spec (length (normalized_children_ts node)) 1) as [E|_];
      [lia|].
    destruct (Nat.ltb_spec 1 (length (normalized_children_ts node))) as [_|E];
      [reflexivity|lia].
  - intros node Hs Hlen.
    assert (Hnone : _normalize_ts_node node = None).
    { unfold _normalize_ts_node. cbv zeta. rewrite (ts_body_skip _ _ Hs).
      fold (normalized_children_ts node).
      destruct (Nat.eqb_spec (length (normalized_children_ts node)) 1) as [E|_];
        [lia|reflexivity]. }
    split; [exact Hnone|]. rewrite _normalize_ts_child_unfold, Hnone. reflexivity.
  - intros node Hs Hlen.
    assert (Hnone : _normalize_psi_node node = None).
    { unfold _normalize_psi_node. cbv zeta. rewrite (psi_body_skip _ _ Hs).
      fold (normalized_children_psi node).
      destruct (Nat.eqb_spec (length (normalized_children_psi node)) 1) as [E|_];
        [lia|reflexivity]. }
    split; [exact Hnone|]. rewrite _normalize_psi_child_unfold, Hnone. reflexivity.
Qed.

(** C5 at an [ERROR] node, a [statements] node and a [BODY] node, each with
    two children. *)
Lemma multiple_children_fallback_witness :
  normalize_ts (mkNode "ERROR" [leaf "integer_literal"; leaf "null_literal"])
  = Some (mkNode "ERROR" [leaf "INTEGER_CONSTANT"; leaf "NULL"])
  /\ (normalize_ts
        (mkNode "statements" [leaf "integer_literal"; leaf "null_literal"])
      = None
      /\ _normalize_ts_child
           (mkNode "statements" [leaf "integer_literal"; leaf "null_literal"])
         = [leaf "INTEGER_CONSTANT"; leaf "NULL"])
  /\ (normalize_psi (mkNode "BODY" [leaf "CLASS"; leaf "FUN"]) = None
      /\ _normalize_psi_child (mkNode "BODY" [leaf "CLASS"; leaf "FUN"])
         = [leaf "CLASS"; leaf "FUN"]).
Proof.
  destruct multiple_children_fallback as (Hts & Hskip & Hpsi).
  split; [|split].
  - apply (Hts (mkNode "ERROR" [leaf "integer_literal"; leaf "null_literal"])).
    + intros Hin. by vm_compute in Hin.
    + vm_compute; reflexivity.
    + vm_compute; lia.
  - apply (Hskip (mkNode "statements" [leaf "integer_literal"; leaf "null_literal"])).
    + vm_compute; reflexivity.
    + vm_compute; lia.
  - apply (Hpsi (mkNode "BODY" [leaf "CLASS"; leaf "FUN"])).
    + vm_compute; reflexivity.
    + vm_compute; lia.
Defined.

(** C7, as the specification words it, fails: a wildcard wrapper with no
    normalized child, or with two, is not retained. *)
Lemma wildcard_wrapper_is_not_retained :
  (WRAPPER_COLLAPSE !! "ANNOTATED_EXPRESSION" = Some "*"
   /\ normalized_children_psi (leaf "ANNOTATED_EXPRESSION") = []
   /\ normalize_psi (leaf "ANNOTATED_EXPRESSION") = None)
  /\ (WRAPPER_COLLAPSE !! "LABELED_EXPRESSION" = Some "*"
      /\ normalized_children_psi
           (mkNode "LABELED_EXPRESSION" [leaf "CLASS"; leaf "FUN"])
         = [leaf "CLASS"; leaf "FUN"]
      /\ normalize_psi (mkNode "LABELED_EXPRESSION" [leaf "CLASS"; leaf "FUN"])
         = None).
Proof. repeat split; vm_compute; reflexivity. Qed.

(** C7, as the code has it. A PSI node whose name is a wildcard key of
    [WRAPPER_COLLAPSE] is replaced by its normalized child when it has
    exactly one, at the root and in the child list of a parent; with none
    or several it is dropped ([None]), because both
    wildcard keys are in [SKIP_PSI_NODES] and the skip set is consulted
    first, and its normalized children are spliced into the list of its
    parent. *)
Theorem wildcard_wrapper_collapse (node : Node) :
  WRAPPER_COLLAPSE !! name node = Some "*" ->
  (forall c : Node,
     normalized_children_psi node = [c] ->
     normalize_psi node = Some c /\ _normalize_psi_child node = [c])
  /\ (length (normalized_children_psi node) <> 1 ->
      normalize_psi node = None
      /\ _normalize_psi_child node = normalized_children_psi node).
Proof.
  intros Hs%wildcard_keys_are_skipped.
  assert (Hbody : _normalize_psi_node node =
            if Nat.eqb (length (normalized_children_psi node)) 1
            then head (normalized_children_psi node) else None).
  { unfold _normalize_psi_node. cbv zeta. rewrite (psi_body_skip _ _ Hs).
    reflexivity. }
  split.
  - intros c Hc.
    assert (Hnode : _normalize_psi_node node = Some c)
      by (rewrite Hbody, Hc; reflexivity).
    split; [exact Hnode|].
    rewrite _normalize_psi_child_unfold, Hnode. reflexivity.
  - intros Hlen.
    assert (Hnone : _normalize_psi_node node = None).
    { rewrite Hbody.
      destruct (Nat.eqb_spec (length (normalized_children_psi node)) 1) as [E|_];
        [destruct (Hlen E)|reflexivity]. }
    split; [exact Hnone|].
    rewrite _normalize_psi_child_unfold, Hnone. reflexivity.
Qed.

(** C7 at an [ANNOTATED_EXPRESSION] over one [CLASS]. *)
Lemma wildcard_wrapper_collapse_witness :
  (forall c : Node,
     normalized_children_psi (mkNode "ANNOTATED_EXPRESSION" [leaf "CLASS"]) = [c] ->
     normalize_psi (mkNode "ANNOTATED_EXPRESSION" [leaf "CLASS"]) = Some c
     /\ _normalize_psi_child (mkNode "ANNOTATED_EXPRESSION" [leaf "CLASS"]) = [c])
  /\ (length (normalized_children_psi
                (mkNode "ANNOTATED_EXPRESSION" [leaf "CLASS"])) <> 1 ->
      normalize_psi (mkNode "ANNOTATED_EXPRESSION" [leaf "CLASS"]) = None
      /\ _normalize_psi_child (mkNode "ANNOTATED_EXPRESSION" [leaf "CLASS"])
         = normalized_children_psi (mkNode "ANNOTATED_EXPRESSION" [leaf "CLASS"])).
Proof.
  apply (wildcard_wrapper_collapse (mkNode "ANNOTATED_EXPRESSION" [leaf "CLASS"])).
  vm_compute; reflexivity.
Defined.

(** C10, as the code has it. A PSI tree whose root is in [SKIP_PSI_NODES]
    and does not end up with exactly one normalized child normalizes to
    [None].  Comparing a present candidate tree with it reports
    [PSI_PARSE_ERROR]; a candidate that is itself absent is tested first
    and reports [TS_PARSE_ERROR]: with the candidate normalized by
    [normalize_ts], the status is [PSI_PARSE_ERROR] exactly when that
    gives a tree. *)
Theorem skipped_root_reads_as_parse_error (psi : Node) :
  name psi ∈ SKIP_PSI_NODES ->
  length (normalized_children_psi psi) <> 1 ->
  normalize_psi psi = None
  /\ (forall ts : Node,
        compare_trees (Some ts) (normalize_psi psi)
        = mkCompareResult PSI_PARSE_ERROR [])
  /\ compare_trees None (normalize_psi psi) = mkCompareResult TS_PARSE_ERROR []
  /\ (forall ts_tree : Node,
        compare_trees (normalize_ts ts_tree) (normalize_psi psi)
        = mkCompareResult
            match normalize_ts ts_tree with
            | Some _ => PSI_PARSE_ERROR
            | None => TS_PARSE_ERROR
            end []).
Proof.
  intros Hs Hlen.
  assert (Hnone : normalize_psi psi = None).
  { unfold normalize_psi, _normalize_psi_node. cbv zeta.
    rewrite (psi_body_skip _ _ Hs). fold (normalized_children_psi psi).
    destruct (Nat.eqb_spec (length (normalized_children_psi psi)) 1) as [E|_];
      [destruct (Hlen E)|reflexivity]. }
  split; [exact Hnone|]. rewrite Hnone.
  split; [reflexivity|]. split; [reflexivity|].
  intros ts_tree. by destruct (normalize_ts ts_tree).
Qed.

(** C10 at a [BODY] root with two children. *)
Lemma skipped_root_reads_as_parse_error_witness :
  normalize_psi (mkNode "BODY" [leaf "CLASS"; leaf "FUN"]) = None
  /\ (forall ts : Node,
        compare_trees (Some ts)
          (normalize_psi (mkNode "BODY" [leaf "CLASS"; leaf "FUN"]))
        = mkCompareResult PSI_PARSE_ERROR [])
  /\ compare_trees None (normalize_psi (mkNode "BODY" [leaf "CLASS"; leaf "FUN"]))
     = mkCompareResult TS_PARSE_ERROR []
  /\ (forall ts_tree : Node,
        compare_trees (normalize_ts ts_tree)
          (normalize_psi (mkNode "BODY" [leaf "CLASS"; leaf "FUN"]))
        = mkCompareResult
            match normalize_ts ts_tree with
            | Some _ => PSI_PARSE_ERROR
            | None => TS_PARSE_ERROR
            end []).
Proof.
  apply (skipped_root_reads_as_parse_error
           (mkNode "BODY" [leaf "CLASS"; leaf "FUN"])).
  - vm_compute; reflexivity.
  - vm_compute; lia.
Defined.

(** C10, as the claim words it: the reference root [BODY[CLASS, FUN]] is
    in [SKIP_PSI_NODES] and has two normalized children, yet the
    comparison with the candidate [statements[class_declaration,
    class_declaration]], which normalizes to [None] as well, reports
    [TS_PARSE_ERROR], not [PSI_PARSE_ERROR]. *)
Lemma failed_candidate_reads_as_ts_parse_error :
  name (mkNode "BODY" [leaf "CLASS"; leaf "FUN"]) ∈ SKIP_PSI_NODES
  /\ length (normalized_children_psi (mkNode "BODY" [leaf "CLASS"; leaf "FUN"]))
     <> 1
  /\ compare_trees
       (normalize_ts
          (mkNode "statements"
             [leaf "class_declaration"; leaf "class_declaration"]))
       (normalize_psi (mkNode "BODY" [leaf "CLASS"; leaf "FUN"]))
     = mkCompareResult TS_PARSE_ERROR []
  /\ status
       (compare_trees
          (normalize_ts
             (mkNode "statements"
                [leaf "class_declaration"; leaf "class_declaration"]))
          (normalize_psi (mkNode "BODY" [leaf "CLASS"; leaf "FUN"])))
     <> PSI_PARSE_ERROR.
Proof.
  split; [vm_compute; reflexivity|]. split; [vm_compute; lia|].
  assert (H : compare_trees
       (normalize_ts
          (mkNode "statements"
             [leaf "class_declaration"; leaf "class_declaration"]))
       (normalize_psi (mkNode "BODY" [leaf "CLASS"; leaf "FUN"]))
     = mkCompareResult TS_PARSE_ERROR []) by (vm_compute; reflexivity).
  split; [exact H|]. rewrite H. discriminate.
Qed.

(* ===================================================================== *)
(** ** The normalizers: termination *)
(* ===================================================================== *)

Lemma depth_le_forest_depth (c : Node) (cs : list Node) :
  c ∈ cs -> depth c <= forest_depth cs.
Proof.
  induction 1 as [c cs|c c' cs _ IH]; simpl; lia.
Qed.

Lemma extend_all_Some (f : Node -> option (list Node)) (g : Node -> list Node)
    (cs : list Node) :
  Forall (fun c => f c = Some (g c)) cs ->
  Calls.extend_all f cs = Some (flat_map g cs).
Proof.
  induction 1 as [|c cs Hc _ IH]; simpl; [done|]. by rewrite Hc, IH.
Qed.

(** With fuel for the depth of the tree, the calls of the tree-sitter
    normalizer all return, and return what the total functions compute. *)
Lemma ts_calls_return (node : Node) :
  (forall fuel, 2 * depth node - 1 <= fuel ->
     Calls._normalize_ts_node fuel node = Some (_normalize_ts_node node))
  /\ (forall fuel, 2 * depth node <= fuel ->
        Calls._normalize_ts_child fuel node = Some (_normalize_ts_child node)).
Proof.
  induction node as [n cs IH] using Node_forall_ind.
  rewrite depth_unfold. cbn [children].
  assert (Hchildren : forall fuel, 2 * forest_depth cs <= fuel ->
    Calls.extend_all (Calls._normalize_ts_child fuel) cs
    = Some (flat_map _normalize_ts_child cs)).
  { intros fuel Hfuel. apply extend_all_Some.
    rewrite Forall_forall in IH. apply Forall_forall. intros c Hc.
    apply (IH c Hc). apply depth_le_forest_depth in Hc. lia. }
  assert (Hnode : forall fuel, 2 * S (forest_depth cs) - 1 <= fuel ->
    Calls._normalize_ts_node fuel (mkNode n cs)
    = Some (_normalize_ts_node (mkNode n cs))).
  { intros [|fuel] Hfuel; [lia|]. cbn [Calls._normalize_ts_node children].
    by rewrite Hchildren by lia. }
  split; [exact Hnode|].
  intros [|fuel] Hfuel; [lia|]. cbn [Calls._normalize_ts_child children].
  rewrite Hnode by lia. rewrite _normalize_ts_child_unfold.
  destruct (_normalize_ts_node (mkNode n cs)); [done|].
  by rewrite Hchildren by lia.
Qed.

(** The same for the PSI normalizer. *)
Lemma psi_calls_return (node : Node) :
  (forall fuel, 2 * depth node - 1 <= fuel ->
     Calls._normalize_psi_node fuel node = Some (_normalize_psi_node node))
  /\ (forall fuel, 2 * depth node <= fuel ->
        Calls._normalize_psi_child fuel node = Some (_normalize_psi_child node)).
Proof.
  induction node as [n cs IH] using Node_forall_ind.
  rewrite depth_unfold. cbn [children].
  assert (Hchildren : forall fuel, 2 * forest_depth cs <= fuel ->
    Calls.extend_all (Calls._normalize_psi_child fuel) cs
    = Some (flat_map _normalize_psi_child cs)).
  { intros fuel Hfuel. apply extend_all_Some.
    rewrite Forall_forall in IH. apply Forall_forall. intros c Hc.
    apply (IH c Hc). apply depth_le_forest_depth in Hc. lia. }
  assert (Hnode : forall fuel, 2 * S (forest_depth cs) - 1 <= fuel ->
    Calls._normalize_psi_node fuel (mkNode n cs)
    = Some (_normalize_psi_node (mkNode n cs))).
  { intros [|fuel] Hfuel; [lia|]. cbn [Calls._normalize_psi_node children].
    by rewrite Hchildren by lia. }
  split; [exact Hnode|].
  intros [|fuel] Hfuel; [lia|]. cbn [Calls._normalize_psi_child children].
  rewrite Hnode by lia. rewrite _normalize_psi_child_unfold.
  destruct (_normalize_psi_node (mkNode n cs)); [done|].
  by rewrite Hchildren by lia.
Qed.

(** The recursion of [_flatten_call_expression] goes down the first
    children. *)
Lemma flatten_calls_return (inner : Node) :
  forall fuel, depth inner <= fuel ->
    Calls._flatten_call_expression fuel (children inner)
    = Some (flatten_inner inner).
Proof.
  induction inner as [n cs IH] using Node_forall_ind.
  intros [|fuel] Hfuel; [rewrite depth_unfold in Hfuel; lia|].
  rewrite depth_unfold in Hfuel. cbn [children] in *.
  destruct cs as [|c rest]; [done|].
  cbn [Calls._flatten_call_expression flatten_inner children].
  destruct (String.eqb (name c) "CALL_EXPRESSION"); [|done]. cbn [negb].
  apply Forall_cons in IH as [IHc _]. rewrite IHc; [done|].
  simpl in Hfuel. lia.
Qed.

(** C9. The recursive functions of the normalizer return on every tree:
    a call stack of twice the depth of the tree is enough for
    [_normalize_ts_node] and [_normalize_ts_child], and for
    [_normalize_psi_node] and [_normalize_psi_child], because a call on a
    node only calls on that node's children (and [_normalize_*_child]
    once on the node itself, which calls on the children); one more than
    the depth of the deepest tree of the list is enough for
    [_flatten_call_expression], which calls itself on the children of the
    first node.  Any larger bound gives the same result. *)
Theorem normalizer_calls_return :
  (forall (node : Node) (k : nat),
     Calls._normalize_ts_node (2 * depth node + k) node = Some (normalize_ts node)
     /\ Calls._normalize_ts_child (2 * depth node + k) node
        = Some (_normalize_ts_child node))
  /\ (forall (node : Node) (k : nat),
        Calls._normalize_psi_node (2 * depth node + k) node
        = Some (normalize_psi node)
        /\ Calls._normalize_psi_child (2 * depth node + k) node
           = Some (_normalize_psi_child node))
  /\ (forall (cs : list Node) (k : nat),
        Calls._flatten_call_expression (S (forest_depth cs) + k) cs
        = Some (_flatten_call_expression cs)).
Proof.
  split; [|split].
  - intros node k. destruct (ts_calls_return node) as [Hn Hc].
    split; [apply Hn|apply Hc]; lia.
  - intros node k. destruct (psi_calls_return node) as [Hn Hc].
    split; [apply Hn|apply Hc]; lia.
  - intros [|inner rest] k; [done|].
    cbn [Nat.add Calls._flatten_call_expression _flatten_call_expression].
    destruct (negb (String.eqb (name inner) "CALL_EXPRESSION")); [done|].
    rewrite flatten_calls_return; [done|]. simpl. lia.
Qed.

(* ===================================================================== *)
(** ** The normalizers: the receiver wrapper *)
(* ===================================================================== *)

Lemma unwrap_fold (cs acc : list Node) :
  fold_left (fun result child =>
      if String.eqb (name child) "FUNCTION_TYPE_RECEIVER"
      then result ++ children child
      else result ++ [child]) cs acc
  = acc ++ flat_map promote_receiver cs.
Proof.
  revert acc. induction cs as [|c cs IH]; intros acc; simpl.
  - by rewrite app_nil_r.
  - rewrite IH. unfold promote_receiver at 2.
    destruct (String.eqb (name c) _); by rewrite <- app_assoc.
Qed.

(** [_unwrap_receiver_type] puts the children of every receiver wrapper in
    its place and leaves the other nodes where they are. *)
Lemma _unwrap_receiver_type_spec (cs : list Node) :
  _unwrap_receiver_type cs = flat_map promote_receiver cs.
Proof.
  unfold _unwrap_receiver_type.
  destruct (any_named "FUNCTION_TYPE_RECEIVER" cs) eqn:Hany; cbn [negb].
  - apply unwrap_fold.
  - induction cs as [|c cs IH]; [done|]. cbn [any_named existsb] in Hany.
    apply orb_false_elim in Hany as [Hc Hcs]. cbn [flat_map].
    unfold promote_receiver at 1. rewrite Hc. cbn [app]. f_equal. by apply IH.
Qed.

Lemma inject_fold_keeps (c : Node) (cs : list Node) :
  name c <> "VALUE_PARAMETER" ->
  forall result param_group : list Node,
    c ∈ result \/ c ∈ cs ->
    c ∈ (fold_left (fun '(result, param_group) child =>
          if String.eqb (name child) "VALUE_PARAMETER" then
            (result, param_group ++ [child])
          else
            let result :=
              if is_empty param_group then result
              else result ++ [mkNode "VALUE_PARAMETER_LIST" param_group] in
            (result ++ [child], []))
          cs (result, param_group)).1.
Proof.
  intros Hname. induction cs as [|child cs IH]; intros result param_group Hc.
  - simpl. destruct Hc as [Hc|Hc]; [done|by apply elem_of_nil in Hc].
  - cbn [fold_left]. destruct (String.eqb_spec (name child) "VALUE_PARAMETER") as [Hvp|Hvp].
    + apply IH. destruct Hc as [Hc|Hc]; [by left|].
      apply elem_of_cons in Hc as [->|Hc]; [done|by right].
    + apply IH. destruct Hc as [Hc|Hc].
      * left. rewrite elem_of_app. left.
        destruct (is_empty param_group); [done|]. rewrite elem_of_app. by left.
      * apply elem_of_cons in Hc as [->|Hc]; [|by right].
        left. rewrite elem_of_app. right. apply list_elem_of_here.
Qed.

Lemma inject_keeps (c : Node) (cs : list Node) :
  name c <> "VALUE_PARAMETER" -> c ∈ cs ->
  c ∈ _inject_value_parameter_list cs.
Proof.
  intros Hname Hc. unfold _inject_value_parameter_list.
  destruct (negb (any_named "VALUE_PARAMETER" cs)); [done|].
  pose proof (inject_fold_keeps c cs Hname [] [] (or_intror Hc)) as Hfold.
  destruct (fold_left _ cs ([], [])) as [result param_group]. simpl in Hfold.
  destruct (is_empty param_group); [done|]. rewrite elem_of_app. by left.
Qed.

Lemma flatten_keeps (c : Node) (cs : list Node) :
  name c <> "CALL_EXPRESSION" -> c ∈ cs -> c ∈ _flatten_call_expression cs.
Proof.
  intros Hname Hc. destruct cs as [|inner rest]; [done|].
  cbn [_flatten_call_expression].
  destruct (String.eqb_spec (name inner) "CALL_EXPRESSION") as [Hin|Hin]; [|done].
  cbn [negb]. rewrite elem_of_app. right.
  apply elem_of_cons in Hc as [->|Hc]; [done|done].
Qed.

Lemma wrap_keeps (c : Node) (cs : list Node) :
  name c ∉ type_names -> c ∈ cs ->
  c ∈ _wrap_bare_types_in_value_parameter cs.
Proof.
  intros Hname Hc. unfold _wrap_bare_types_in_value_parameter.
  destruct (negb _); [done|]. cbv zeta. destruct (any_named _ cs); [done|].
  apply list_elem_of_In, in_map_iff. exists c. split; [|by apply list_elem_of_In].
  by rewrite bool_decide_eq_false_2.
Qed.

Lemma subtree_child (m : string) (l : list Node) (c : Node) :
  c ∈ l -> exists pos, subtree (mkNode m l) pos = Some c.
Proof.
  intros (i & Hi)%list_elem_of_lookup. exists [i]. simpl. by rewrite Hi.
Qed.

Lemma subtree_grandchild (m b : string) (l : list Node) (c : Node) :
  c ∈ l -> exists pos, subtree (mkNode m [mkNode b l]) pos = Some c.
Proof.
  intros (i & Hi)%list_elem_of_lookup. exists [0; i]. simpl. by rewrite Hi.
Qed.

Lemma subtree_only (l : list Node) (r c : Node) :
  Nat.eqb (length l) 1 = true -> head l = Some r -> c ∈ l ->
  exists pos, subtree r pos = Some c.
Proof.
  intros (x & -> & Hx)%length_one_head Hr Hc. simpl in Hr. injection Hr as ->.
  apply list_elem_of_singleton in Hc as ->. by exists [].
Qed.

Lemma is_empty_no_elem (l : list Node) (c : Node) :
  is_empty l = true -> c ∈ l -> False.
Proof. destruct l; [|done]. intros _ Hc. by apply elem_of_nil in Hc. Qed.

Lemma mapped_to_FUNCTION_TYPE (n : string) :
  TS_TO_PSI !! n = Some (Some "FUNCTION_TYPE") -> n = "function_type".
Proof. intros Hn. scan_keys Hn. Qed.

(** A tree-sitter node that is not skipped and has a mapped name goes
    through the rules for mapped nodes, under the name that the
    [check_expression] rule settles. *)
Lemma ts_body_mapped (node : Node) (raw : list Node) (mapped : string) :
  name node ∉ SKIP_TS_NODES ->
  TS_TO_PSI_get (name node) = Some mapped ->
  _normalize_ts_node_body node raw =
    _normalize_ts_node_mapped node
      (if String.eqb (name node) "check_expression" then
         if existsb (fun c => bool_decide (name c ∈ type_children))
              (children node)
         then "IS_EXPRESSION" else "BINARY_EXPRESSION"
       else mapped)
      (_nest_property_accessors raw).
Proof.
  intros Hs Hget. unfold _normalize_ts_node_body.
  rewrite (bool_decide_eq_false_2 _ Hs), Hget. reflexivity.
Qed.

Lemma expression_body_result (body mapped : string) (node : Node)
    (nc : list Node) (res : option Node) :
  expression_body body mapped node nc = Some res ->
  res = None \/ (Nat.eqb (length nc) 1 = true /\ res = head nc).
Proof.
  unfold expression_body. cbv zeta.
  repeat match goal with
         | |- context [if ?b then _ else _] => destruct b eqn:?
         end; try discriminate; intros [= <-]; auto.
Qed.

Lemma expression_body_not_block (body mapped : string) (node : Node)
    (nc : list Node) :
  String.eqb mapped "BLOCK" = false -> expression_body body mapped node nc = None.
Proof. intros H. unfold expression_body. by rewrite H. Qed.

Lemma receiver_not_a_type_name : "FUNCTION_TYPE_RECEIVER" ∉ type_names.
Proof. intros H. by vm_compute in H. Qed.

(** The rules for mapped nodes do not take a receiver wrapper out of the
    child list, unless the name is [FUN] or [PROPERTY]. *)
Lemma mapped_rules_keep_receiver (node r c : Node) (mapped : string)
    (nc : list Node) :
  mapped <> "FUN" -> mapped <> "PROPERTY" ->
  _normalize_ts_node_mapped node mapped nc = Some r ->
  c ∈ nc -> name c = "FUNCTION_TYPE_RECEIVER" ->
  exists pos, subtree r pos = Some c.
Proof.
  intros Hf%String.eqb_neq Hp%String.eqb_neq Hr Hc Hname.
  assert (Hvp : name c <> "VALUE_PARAMETER") by (rewrite Hname; discriminate).
  assert (Hcall : name c <> "CALL_EXPRESSION") by (rewrite Hname; discriminate).
  assert (Htype : name c ∉ type_names)
    by (rewrite Hname; apply receiver_not_a_type_name).
  assert (Hchild : forall m l, c ∈ l -> Some (mkNode m l) = Some r ->
            exists pos, subtree r pos = Some c).
  { intros m l Hl [= <-]. exact (subtree_child _ _ _ Hl). }
  assert (Hwrapped : forall m b l, c ∈ l -> Some (mkNode m [mkNode b l]) = Some r ->
            exists pos, subtree r pos = Some c).
  { intros m b l Hl [= <-]. exact (subtree_grandchild _ _ _ _ Hl). }
  unfold _normalize_ts_node_mapped in Hr.
  destruct (String.eqb_spec mapped "BLOCK") as [->|H0].
  { destruct (expression_body "control_structure_body" _ _ _) as [res|] eqn:E1.
    { apply expression_body_result in E1 as [->|[Hone ->]]; [discriminate Hr|].
      exact (subtree_only _ _ _ Hone Hr Hc). }
    simpl in Hr.
    destruct (expression_body "function_body" _ _ _) as [res|] eqn:E2.
    { apply expression_body_result in E2 as [->|[Hone ->]]; [discriminate Hr|].
      exact (subtree_only _ _ _ Hone Hr Hc). }
    eauto. }
  apply String.eqb_neq in H0.
  rewrite (expression_body_not_block "control_structure_body" _ _ _ H0) in Hr.
  destruct (String.eqb_spec mapped "DOT_QUALIFIED_EXPRESSION") as [->|H1].
  { simpl in Hr. destruct (is_empty nc); [discriminate Hr|]. eauto. }
  destruct (String.eqb_spec mapped "PRIMARY_CONSTRUCTOR") as [->|H2].
  { simpl in Hr. eauto using inject_keeps. }
  destruct (String.eqb_spec mapped "PROPERTY_ACCESSOR") as [->|H3].
  { simpl in Hr. eauto using inject_keeps. }
  destruct (String.eqb_spec mapped "CALL_EXPRESSION") as [->|H4].
  { simpl in Hr. eauto using flatten_keeps. }
  destruct (String.eqb_spec mapped "FUNCTION_LITERAL") as [->|H5].
  { simpl in Hr. destruct (is_empty nc) eqn:He; [|eauto].
    destruct (is_empty_no_elem _ _ He Hc). }
  destruct (String.eqb_spec mapped "CLASS_INITIALIZER") as [->|H6].
  { simpl in Hr. destruct (is_empty nc) eqn:He; simpl in Hr; [|eauto].
    destruct (is_empty_no_elem _ _ He Hc). }
  destruct (String.eqb_spec mapped "OBJECT_LITERAL") as [->|H7].
  { simpl in Hr. destruct (is_empty nc) eqn:He; simpl in Hr; [|eauto].
    destruct (is_empty_no_elem _ _ He Hc). }
  destruct (String.eqb_spec mapped "VALUE_PARAMETER_LIST") as [->|H8].
  { simpl in Hr.
    destruct (is_empty (_wrap_bare_types_in_value_parameter nc));
      [discriminate Hr|]. eauto using wrap_keeps. }
  destruct (String.eqb_spec mapped "MODIFIER_LIST") as [->|H9].
  { simpl in Hr. destruct (is_empty nc); [discriminate Hr|]. eauto. }
  apply String.eqb_neq in H1, H2, H3, H4, H5, H6, H7, H8, H9.
  rewrite ?Hf, ?Hp, ?H1, ?H2, ?H3, ?H4, ?H5, ?H6, ?H7, ?H8, ?H9 in Hr.
  cbn [andb orb] in Hr. cbv zeta in Hr.
  rewrite (expression_body_not_block "function_body" _ _ _ H0) in Hr.
  eauto.
Qed.

(** Outside [FUN] and [PROPERTY], a receiver wrapper among the normalized
    children of a node is still there, whole, in what the node becomes. *)
Lemma receiver_kept (node r c : Node) :
  TS_TO_PSI_get (name node) <> Some "FUN" ->
  TS_TO_PSI_get (name node) <> Some "PROPERTY" ->
  normalize_ts node = Some r ->
  c ∈ normalized_children_ts node ->
  name c = "FUNCTION_TYPE_RECEIVER" ->
  exists pos, subtree r pos = Some c.
Proof.
  intros Hfun Hprop Hr Hc Hname.
  unfold normalize_ts, _normalize_ts_node in Hr. cbv zeta in Hr.
  unfold normalized_children_ts in Hc.
  set (raw := flat_map _normalize_ts_child (children node)) in *.
  clearbody raw.
  destruct (decide (name node ∈ SKIP_TS_NODES)) as [Hs|Hs].
  { rewrite (ts_body_skip _ _ Hs) in Hr.
    destruct (Nat.eqb (length (_nest_property_accessors raw)) 1) eqn:Hone;
      [|discriminate Hr]. exact (subtree_only _ _ _ Hone Hr Hc). }
  destruct (TS_TO_PSI_get (name node)) as [mapped|] eqn:Hget.
  2:{ rewrite (ts_body_unmapped _ _ Hs Hget) in Hr. cbv zeta in Hr.
      destruct (Nat.eqb (length (_nest_property_accessors raw)) 1) eqn:Hone.
      - exact (subtree_only _ _ _ Hone Hr Hc).
      - destruct (Nat.ltb 1 _); [|discriminate Hr]. injection Hr as <-.
        exact (subtree_child _ _ _ Hc). }
  rewrite (ts_body_mapped _ _ _ Hs Hget) in Hr.
  eapply mapped_rules_keep_receiver; [| |exact Hr|exact Hc|exact Hname].
  - destruct (String.eqb (name node) "check_expression");
      [destruct (existsb _ _); discriminate|congruence].
  - destruct (String.eqb (name node) "check_expression");
      [destruct (existsb _ _); discriminate|congruence].
Qed.

Lemma mapped_FUN_or_PROPERTY (node : Node) (mapped : string) (nc : list Node) :
  mapped = "FUN" \/ mapped = "PROPERTY" ->
  _normalize_ts_node_mapped node mapped nc
  = Some (mkNode mapped (_unwrap_receiver_type nc)).
Proof. intros [->| ->]; reflexivity. Qed.

Lemma mapped_FUNCTION_TYPE (node : Node) (nc : list Node) :
  _normalize_ts_node_mapped node "FUNCTION_TYPE" nc
  = Some (mkNode "FUNCTION_TYPE" nc).
Proof. reflexivity. Qed.

Lemma not_skipped_not_check (n : string) :
  n = "function_declaration" \/ n = "anonymous_function"
  \/ n = "property_declaration" \/ n = "function_type" ->
  (n ∉ SKIP_TS_NODES) /\ String.eqb n "check_expression" = false.
Proof.
  intros [->|[->|[->| ->]]]; (split; [intros H; by vm_compute in H|reflexivity]).
Qed.

(** C8. A tree-sitter node mapped to [FUN] or [PROPERTY] becomes a node
    of that name in whose child list every [FUNCTION_TYPE_RECEIVER] has been
    replaced by its own children; a node mapped to [FUNCTION_TYPE] keeps
    its normalized children as they are; and whatever the name, if it is
    not mapped to [FUN] or [PROPERTY], a [FUNCTION_TYPE_RECEIVER] among the
    normalized children of a node is found whole, with its children under
    it, in the node that [normalize_ts] returns. *)
Theorem receiver_unwrapped_only_under_fun_or_property :
  (forall (node : Node) (mapped : string),
     TS_TO_PSI !! name node = Some (Some mapped) ->
     mapped = "FUN" \/ mapped = "PROPERTY" ->
     normalize_ts node
     = Some (mkNode mapped
               (flat_map promote_receiver (normalized_children_ts node))))
  /\ (forall node : Node,
        TS_TO_PSI !! name node = Some (Some "FUNCTION_TYPE") ->
        normalize_ts node
        = Some (mkNode "FUNCTION_TYPE" (normalized_children_ts node)))
  /\ (forall node r c : Node,
        TS_TO_PSI_get (name node) <> Some "FUN" ->
        TS_TO_PSI_get (name node) <> Some "PROPERTY" ->
        normalize_ts node = Some r ->
        c ∈ normalized_children_ts node ->
        name c = "FUNCTION_TYPE_RECEIVER" ->
        exists pos, subtree r pos = Some c).
Proof.
  split; [|split].
  - intros node mapped Hmap Hor.
    assert (Hn : name node = "function_declaration"
                 \/ name node = "anonymous_function"
                 \/ name node = "property_declaration"
                 \/ name node = "function_type").
    { destruct Hor as [->| ->].
      - apply mapped_to_FUN in Hmap as [H|H]; auto.
      - apply mapped_to_PROPERTY in Hmap. auto. }
    apply not_skipped_not_check in Hn as [Hs Hcheck].
    assert (Hget : TS_TO_PSI_get (name node) = Some mapped)
      by (unfold TS_TO_PSI_get; rewrite Hmap; reflexivity).
    unfold normalize_ts, _normalize_ts_node. cbv zeta.
    rewrite (ts_body_mapped _ _ _ Hs Hget), Hcheck.
    rewrite (mapped_FUN_or_PROPERTY _ _ _ Hor), _unwrap_receiver_type_spec.
    reflexivity.
  - intros node Hmap.
    assert (Hn : name node = "function_declaration"
                 \/ name node = "anonymous_function"
                 \/ name node = "property_declaration"
                 \/ name node = "function_type").
    { apply mapped_to_FUNCTION_TYPE in Hmap. auto. }
    apply not_skipped_not_check in Hn as [Hs Hcheck].
    assert (Hget : TS_TO_PSI_get (name node) = Some "FUNCTION_TYPE")
      by (unfold TS_TO_PSI_get; rewrite Hmap; reflexivity).
    unfold normalize_ts, _normalize_ts_node. cbv zeta.
    rewrite (ts_body_mapped _ _ _ Hs Hget), Hcheck.
    apply mapped_FUNCTION_TYPE.
  - exact receiver_kept.
Qed.

(** C8 at a [function_declaration], a [function_type] and an
    [anonymous_initializer] over a [receiver_type]. *)
Lemma receiver_unwrapped_only_under_fun_or_property_witness :
  normalize_ts
    (mkNode "function_declaration"
       [mkNode "receiver_type" [mkNode "user_type" [leaf "type_identifier"]]])
  = Some (mkNode "FUN" [leaf "USER_TYPE"])
  /\ normalize_ts
       (mkNode "function_type"
          [mkNode "receiver_type" [leaf "user_type"]; leaf "user_type"])
     = Some (mkNode "FUNCTION_TYPE"
               [mkNode "FUNCTION_TYPE_RECEIVER" [leaf "USER_TYPE"];
                leaf "USER_TYPE"])
  /\ exists pos,
       subtree
         (mkNode "CLASS_INITIALIZER"
            [mkNode "BLOCK"
               [mkNode "FUNCTION_TYPE_RECEIVER" [leaf "USER_TYPE"]]])
         pos
       = Some (mkNode "FUNCTION_TYPE_RECEIVER" [leaf "USER_TYPE"]).
Proof.
  destruct receiver_unwrapped_only_under_fun_or_property as (Hfun & Hty & Hany).
  split; [|split].
  - apply (Hfun
      (mkNode "function_declaration"
         [mkNode "receiver_type" [mkNode "user_type" [leaf "type_identifier"]]])
      "FUN"); [vm_compute; reflexivity|by left].
  - apply (Hty
      (mkNode "function_type"
         [mkNode "receiver_type" [leaf "user_type"]; leaf "user_type"])).
    vm_compute; reflexivity.
  - apply (Hany
      (mkNode "anonymous_initializer" [mkNode "receiver_type" [leaf "user_type"]])).
    + vm_compute. discriminate.
    + vm_compute. discriminate.
    + vm_compute; reflexivity.
    + vm_compute. apply list_elem_of_here.
    + reflexivity.
Defined.

(* ===================================================================== *)
(** ** More on the comparator *)
(* ===================================================================== *)

Lemma children_diffs_nil (cp : string) (tcs : list Node) :
  Forall (fun t => forall p path, diffs t p path = [] -> t = p) tcs ->
  forall pcs, length tcs = length pcs ->
    children_diffs cp tcs pcs = [] -> tcs = pcs.
Proof.
  induction 1 as [|t tcs Ht _ IH]; intros [|p pcs] Hlen Hnil;
    try discriminate Hlen; [reflexivity|].
  simpl in Hnil. apply app_eq_nil in Hnil as [Hd Hr].
  f_equal; [exact (Ht _ _ Hd)|]. apply IH; [|exact Hr].
  simpl in Hlen. lia.
Qed.

(** Two trees that give no difference are the same tree. *)
Lemma diffs_nil_eq (t : Node) :
  forall (p : Node) (path : string), diffs t p path = [] -> t = p.
Proof.
  induction t as [tn tcs IH] using Node_forall_ind. intros [pn pcs] path Hnil.
  rewrite diffs_unfold in Hnil. cbv zeta in Hnil. cbn [name children] in Hnil.
  apply app_eq_nil in Hnil as [Hname Hnil].
  apply app_eq_nil in Hnil as [Hcount Hnil].
  apply app_eq_nil in Hnil as [Hchildren _].
  unfold name_diff in Hname. cbn [name] in Hname.
  destruct (String.eqb_spec tn pn) as [->|_]; [|discriminate Hname].
  unfold count_diff in Hcount. cbn [children] in Hcount.
  destruct (Nat.eqb_spec (length tcs) (length pcs)) as [Hlen|_];
    [|discriminate Hcount].
  f_equal. exact (children_diffs_nil _ _ IH _ Hlen Hchildren).
Qed.

(** X1. Two present trees compare as [MATCH] exactly when they are equal,
    and as [MISMATCH] otherwise; the list of differences is empty exactly
    when they are equal. *)
Theorem match_iff_equal (a b : Node) :
  (status (compare_trees (Some a) (Some b)) = MATCH <-> a = b)
  /\ (status (compare_trees (Some a) (Some b)) = MISMATCH <-> a <> b)
  /\ (differences (compare_trees (Some a) (Some b)) = [] <-> a = b).
Proof.
  rewrite status_compare_trees, differences_compare_trees.
  destruct (diffs a b "") as [|d ds] eqn:Hd.
  - apply diffs_nil_eq in Hd as ->. repeat split; try done.
  - assert (Hne : a <> b).
    { intros ->. rewrite diffs_same in Hd. discriminate Hd. }
    repeat split; try done.
Qed.

(** X2. One [CHILD_COUNT_MISMATCH] is recorded for each common position at
    which the two nodes have different numbers of children, at that
    position's path, with the reference's count as [expected] and the
    candidate's as [actual], in decimal; none is recorded elsewhere. *)
Theorem count_mismatch_per_position (ts psi : Node) :
  filter (fun d => kind d = CHILD_COUNT_MISMATCH)
    (differences (compare_trees (Some ts) (Some psi)))
  ≡ₚ omap (count_mismatch_at ts psi) (positions ts psi).
Proof.
  rewrite filter_diffs_by_position, <- flat_map_option_list.
  erewrite flat_map_ext; [reflexivity|]. intros pos.
  unfold local_at, count_mismatch_at.
  destruct (visit_at ts psi "" pos) as [[[t p] cp]|]; [|reflexivity].
  unfold local_diffs.
  rewrite !filter_app, filter_name_diff, filter_extra_diffs, filter_missing_diffs.
  simpl. rewrite app_nil_r. unfold count_diff.
  destruct (decide (length (children t) = length (children p))) as [E|E].
  - apply Nat.eqb_eq in E. rewrite E. reflexivity.
  - apply Nat.eqb_neq in E. rewrite E. reflexivity.
Qed.

Lemma extra_diffs_count (t p : Node) (cp : string) (d : Difference) :
  d ∈ extra_diffs t p cp \/ d ∈ missing_diffs t p cp ->
  (exists i, path d = child_path_of cp i)
  /\ mkDifference cp (str (length (children p))) (str (length (children t)))
       CHILD_COUNT_MISMATCH ∈ count_diff t p cp.
Proof.
  intros Hd.
  assert (Hpath : exists i, path d = child_path_of cp i).
  { destruct Hd as [Hd|Hd];
      apply list_elem_of_In, in_map_iff in Hd as (i & <- & _); by exists i. }
  split; [exact Hpath|].
  assert (Hne : length (children t) <> length (children p)).
  { intros E. unfold extra_diffs, missing_diffs in Hd. cbv zeta in Hd.
    rewrite E, Nat.min_id, Nat.sub_diag in Hd. simpl in Hd.
    destruct Hd as [Hd|Hd]; by apply elem_of_nil in Hd. }
  unfold count_diff. apply Nat.eqb_neq in Hne. rewrite Hne.
  apply list_elem_of_here.
Qed.

(** X3. An [EXTRA_CHILD] or [MISSING_CHILD] never comes alone: its path is
    that of a parent followed by [" > [child i]"], and the list holds a
    [CHILD_COUNT_MISMATCH] at the parent's path. *)
Theorem unmatched_child_has_count_mismatch (ts psi : Node) (d : Difference) :
  d ∈ differences (compare_trees (Some ts) (Some psi)) ->
  kind d = EXTRA_CHILD \/ kind d = MISSING_CHILD ->
  exists (parent : string) (i : nat) (e : Difference),
    path d = parent +:+ " > [child " +:+ str i +:+ "]"
    /\ e ∈ differences (compare_trees (Some ts) (Some psi))
    /\ kind e = CHILD_COUNT_MISMATCH /\ path e = parent.
Proof.
  rewrite differences_compare_trees, (diffs_by_position ts psi "").
  intros Hd Hk. apply list_elem_of_In, in_flat_map in Hd as (pos & Hpos & Hd).
  unfold local_at in Hd.
  destruct (visit_at ts psi "" pos) as [[[t p] cp]|] eqn:Hv;
    [|destruct Hd].
  assert (Hem : d ∈ extra_diffs t p cp \/ d ∈ missing_diffs t p cp).
  { unfold local_diffs in Hd. apply list_elem_of_In in Hd.
    rewrite !elem_of_app in Hd. destruct Hd as [Hd|[Hd|[Hd|Hd]]]; auto.
    - unfold name_diff in Hd. destruct (negb _);
        [|by apply elem_of_nil in Hd].
      apply list_elem_of_singleton in Hd as ->. by destruct Hk.
    - unfold count_diff in Hd. destruct (negb _);
        [|by apply elem_of_nil in Hd].
      apply list_elem_of_singleton in Hd as ->. by destruct Hk. }
  apply extra_diffs_count in Hem as [[i Hi] He].
  exists cp, i, (mkDifference cp (str (length (children p)))
                   (str (length (children t))) CHILD_COUNT_MISMATCH).
  split; [exact Hi|]. split; [|by split].
  rewrite (diffs_by_position ts psi "").
  apply list_elem_of_In, in_flat_map. exists pos. split; [exact Hpos|].
  unfold local_at. rewrite Hv. unfold local_diffs. apply list_elem_of_In.
  rewrite !elem_of_app. auto.
Qed.

(** X3 at [X[A, B]] against [X[A]]. *)
Lemma unmatched_child_has_count_mismatch_witness :
  exists (parent : string) (i : nat) (e : Difference),
    path (mkDifference "X > [child 1]" "(absent)" "B" EXTRA_CHILD)
    = parent +:+ " > [child " +:+ str i +:+ "]"
    /\ e ∈ differences (compare_trees (Some (mkNode "X" [leaf "A"; leaf "B"]))
                          (Some (mkNode "X" [leaf "A"])))
    /\ kind e = CHILD_COUNT_MISMATCH /\ path e = parent.
Proof.
  apply (unmatched_child_has_count_mismatch
           (mkNode "X" [leaf "A"; leaf "B"]) (mkNode "X" [leaf "A"])
           (mkDifference "X > [child 1]" "(absent)" "B" EXTRA_CHILD)).
  - apply list_elem_of_In. vm_compute. right. left. reflexivity.
  - left. reflexivity.
Defined.

(** X4. [_compare_nodes] only appends: what the accumulator held comes
    first in the result, unchanged, and what is appended does not depend
    on it. *)
Theorem compare_nodes_appends (t p : Node) (path : string)
    (differences : list Difference) :
  _compare_nodes t p path differences
  = differences ++ _compare_nodes t p path [].
Proof. exact (_compare_nodes_acc t p path differences). Qed.

(* ===================================================================== *)
(** ** The list rewrites of the tree-sitter normalizer *)
(* ===================================================================== *)

Lemma size_unfold (t : Node) : size t = S (forest_size (children t)).
Proof. destruct t; reflexivity. Qed.

Lemma forest_size_app (l k : list Node) :
  forest_size (l ++ k) = forest_size l + forest_size k.
Proof. induction l as [|c l IH]; simpl; [done|]. rewrite IH. lia. Qed.

Lemma _nest_property_accessors_unfold (cs : list Node) :
  _nest_property_accessors cs =
    if negb (any_named "PROPERTY_ACCESSOR" cs) then cs
    else fold_left nest_step cs [].
Proof. reflexivity. Qed.

Lemma nest_step_snoc (l : list Node) (prop child : Node) :
  nest_step (l ++ [prop]) child =
    if String.eqb (name child) "PROPERTY_ACCESSOR"
       && String.eqb (name prop) "PROPERTY"
    then l ++ [mkNode "PROPERTY" (children prop ++ [child])]
    else (l ++ [prop]) ++ [child].
Proof.
  unfold nest_step. rewrite last_snoc. destruct (_ && _); [|done].
  rewrite length_app. simpl. rewrite Nat.add_1_r. simpl.
  rewrite insert_app_r_alt by lia. rewrite Nat.sub_diag. reflexivity.
Qed.

Lemma accessors_nested_snoc (l : list Node) (x : Node) :
  accessors_nested (l ++ [x]) <->
  accessors_nested l
  /\ (forall a, last l = Some a ->
        ~ (name a = "PROPERTY" /\ name x = "PROPERTY_ACCESSOR")).
Proof.
  induction l as [|a [|b l] IH].
  - simpl. split; [|done]. intros _. split; [done|]. intros a [=].
  - simpl. split.
    + intros [H _]. split; [done|]. by intros ? [= <-].
    + intros [_ H]. split; [by apply H|done].
  - change ((a :: b :: l) ++ [x]) with (a :: (b :: l) ++ [x]).
    change (accessors_nested (a :: (b :: l) ++ [x]))
      with (~ (name a = "PROPERTY" /\ name b = "PROPERTY_ACCESSOR")
            /\ accessors_nested ((b :: l) ++ [x])).
    change (accessors_nested (a :: b :: l))
      with (~ (name a = "PROPERTY" /\ name b = "PROPERTY_ACCESSOR")
            /\ accessors_nested (b :: l)).
    rewrite IH. change (last (a :: b :: l)) with (last (b :: l)). tauto.
Qed.

Lemma accessors_nested_middle (l r : list Node) (a b : Node) :
  accessors_nested (l ++ a :: b :: r) ->
  ~ (name a = "PROPERTY" /\ name b = "PROPERTY_ACCESSOR").
Proof.
  induction l as [|x [|y l] IH]; simpl.
  - tauto.
  - tauto.
  - intros [_ H]. apply IH. exact H.
Qed.

Lemma nest_step_nested (result : list Node) (child : Node) :
  accessors_nested result -> accessors_nested (nest_step result child).
Proof.
  intros Hr. destruct result as [|x l _] using rev_ind.
  - done.
  - rewrite nest_step_snoc.
    destruct (String.eqb_spec (name child) "PROPERTY_ACCESSOR") as [Hc|Hc];
      destruct (String.eqb_spec (name x) "PROPERTY") as [Hx|Hx]; cbn [andb].
    + apply accessors_nested_snoc in Hr as [Hl Hlast].
      apply accessors_nested_snoc. split; [exact Hl|].
      intros a _ [_ H]. discriminate H.
    + apply accessors_nested_snoc. split; [exact Hr|].
      intros a Ha. rewrite last_snoc in Ha. injection Ha as <-. tauto.
    + apply accessors_nested_snoc. split; [exact Hr|]. tauto.
    + apply accessors_nested_snoc. split; [exact Hr|]. tauto.
Qed.

Lemma nest_loop_nested (cs result : list Node) :
  accessors_nested result -> accessors_nested (fold_left nest_step cs result).
Proof.
  revert result. induction cs as [|c cs IH]; intros result Hr; [done|].
  simpl. apply IH, nest_step_nested, Hr.
Qed.

Lemma no_accessor_nested (cs : list Node) :
  any_named "PROPERTY_ACCESSOR" cs = false -> accessors_nested cs.
Proof.
  induction cs as [|a [|b cs] IH]; try done.
  intros H. cbn [any_named existsb] in H.
  apply orb_false_elim in H as [_ H]. split.
  - intros [_ Hb]. cbn [existsb] in H. apply orb_false_elim in H as [H _].
    apply String.eqb_neq in H. contradiction.
  - by apply IH.
Qed.

Lemma nest_loop_fixed (cs result : list Node) :
  accessors_nested (result ++ cs) ->
  fold_left nest_step cs result = result ++ cs.
Proof.
  revert result. induction cs as [|c cs IH]; intros result Hn.
  - by rewrite app_nil_r.
  - simpl. assert (Hstep : nest_step result c = result ++ [c]).
    { destruct result as [|x l _] using rev_ind; [done|].
      rewrite nest_step_snoc. rewrite <- app_assoc in Hn. simpl in Hn.
      apply accessors_nested_middle in Hn.
      destruct (String.eqb_spec (name c) "PROPERTY_ACCESSOR");
        destruct (String.eqb_spec (name x) "PROPERTY"); try done.
      tauto. }
    rewrite Hstep, IH; rewrite <- app_assoc; done.
Qed.

Lemma nest_step_size (result : list Node) (child : Node) :
  forest_size (nest_step result child) = forest_size result + size child.
Proof.
  destruct result as [|x l _] using rev_ind.
  - simpl. lia.
  - rewrite nest_step_snoc. destruct (_ && _).
    + rewrite !forest_size_app. simpl. rewrite forest_size_app, (size_unfold x).
      simpl. lia.
    + rewrite (forest_size_app (l ++ [x])). simpl. lia.
Qed.

Lemma nest_loop_size (cs result : list Node) :
  forest_size (fold_left nest_step cs result)
  = forest_size result + forest_size cs.
Proof.
  revert result. induction cs as [|c cs IH]; intros result; simpl; [lia|].
  rewrite IH, nest_step_size. lia.
Qed.

Lemma nest_step_append (l : list Node) (c : Node) :
  (forall x, last l = Some x -> name x <> "PROPERTY") ->
  nest_step l c = l ++ [c].
Proof.
  intros Hlast. unfold nest_step. destruct (last l) as [x|]; [|reflexivity].
  specialize (Hlast x eq_refl). apply String.eqb_neq in Hlast.
  by rewrite Hlast, andb_false_r.
Qed.

Lemma property_as_node (p : Node) :
  name p = "PROPERTY" -> mkNode "PROPERTY" (children p ++ []) = p.
Proof. destruct p as [n cs]. cbn [name children]. intros ->. by rewrite app_nil_r. Qed.

(** What the loop of [_nest_property_accessors] builds, after a
    [PROPERTY] and after any other node. *)
Lemma nest_loop_absorbed (cs : list Node) :
  (forall l0 p, name p = "PROPERTY" ->
     exists accessors rest rs,
       cs = accessors ++ rest
       /\ Forall (fun a => name a = "PROPERTY_ACCESSOR") accessors
       /\ (forall c, head rest = Some c -> name c <> "PROPERTY_ACCESSOR")
       /\ accessors_absorbed rest rs
       /\ fold_left nest_step cs (l0 ++ [p])
          = l0 ++ mkNode "PROPERTY" (children p ++ accessors) :: rs)
  /\ (forall l, (forall x, last l = Some x -> name x <> "PROPERTY") ->
        exists rs, accessors_absorbed cs rs
                   /\ fold_left nest_step cs l = l ++ rs).
Proof.
  induction cs as [|c cs [IHL IHM]].
  { split.
    - intros l0 p Hp. exists [], [], []. cbn [fold_left app].
      repeat split; [constructor|intros c H; discriminate H|constructor|].
      by rewrite (property_as_node p Hp).
    - intros l _. exists []. split; [constructor|by rewrite app_nil_r]. }
  assert (Hafter : forall l, nest_step l c = l ++ [c] ->
            exists rs, accessors_absorbed (c :: cs) rs
                       /\ fold_left nest_step (c :: cs) l = l ++ rs).
  { intros l Hstep. cbn [fold_left]. rewrite Hstep.
    destruct (String.eqb_spec (name c) "PROPERTY") as [Hc|Hc].
    - destruct (IHL l c Hc) as (accs & rest & rs & -> & Hacc & Hhead & Habs
                                  & Hfold).
      exists (mkNode "PROPERTY" (children c ++ accs) :: rs).
      split; [by apply absorbed_run|exact Hfold].
    - destruct (IHM (l ++ [c])) as (rs & Habs & Hfold).
      { intros x Hx. rewrite last_snoc in Hx. by injection Hx as <-. }
      exists (c :: rs). split; [by apply absorbed_other|].
      by rewrite Hfold, <- app_assoc. }
  split.
  - intros l0 p Hp.
    destruct (String.eqb_spec (name c) "PROPERTY_ACCESSOR") as [Hc|Hc].
    + cbn [fold_left]. rewrite nest_step_snoc, Hc, Hp, !String.eqb_refl.
      cbn [andb].
      destruct (IHL l0 (mkNode "PROPERTY" (children p ++ [c])) eq_refl)
        as (accs & rest & rs & -> & Hacc & Hhead & Habs & Hfold).
      exists (c :: accs), rest, rs.
      repeat split; [by constructor|exact Hhead|exact Habs|].
      rewrite Hfold. cbn [children]. by rewrite <- app_assoc.
    + destruct (Hafter (l0 ++ [p])) as (rs & Habs & Hfold).
      { rewrite nest_step_snoc. apply String.eqb_neq in Hc. by rewrite Hc. }
      exists [], (c :: cs), rs.
      repeat split; [constructor|by intros x [= <-]|exact Habs|].
      rewrite Hfold, (property_as_node p Hp). by rewrite <- app_assoc.
  - intros l Hlast. apply Hafter. by apply nest_step_append.
Qed.

Lemma nest_absorbed (cs : list Node) :
  accessors_absorbed cs (_nest_property_accessors cs).
Proof.
  destruct (nest_loop_absorbed cs) as [_ HM].
  destruct (HM []) as (rs & Habs & Hfold); [intros x H; discriminate H|].
  cbn [app] in Hfold. rewrite _nest_property_accessors_unfold.
  destruct (any_named "PROPERTY_ACCESSOR" cs) eqn:Hany; cbn [negb].
  - rewrite Hfold. exact Habs.
  - apply no_accessor_nested in Hany.
    rewrite (nest_loop_fixed cs [] Hany) in Hfold. cbn [app] in Hfold.
    subst rs. exact Habs.
Qed.

Lemma run_unique (P : Node -> Prop) (a1 : list Node) :
  forall a2 c1 c2 : list Node,
    Forall P a1 -> Forall P a2 ->
    (forall c, head c1 = Some c -> ~ P c) ->
    (forall c, head c2 = Some c -> ~ P c) ->
    a1 ++ c1 = a2 ++ c2 -> a1 = a2 /\ c1 = c2.
Proof.
  induction a1 as [|x a1 IH]; intros [|y a2] c1 c2 H1 H2 Hc1 Hc2 Heq;
    cbn [app] in Heq.
  - by split.
  - subst c1. apply Forall_cons in H2 as [Hy _]. destruct (Hc1 y eq_refl Hy).
  - subst c2. apply Forall_cons in H1 as [Hx _]. destruct (Hc2 x eq_refl Hx).
  - injection Heq as <- Heq. apply Forall_cons in H1 as [_ H1].
    apply Forall_cons in H2 as [_ H2].
    destruct (IH a2 c1 c2 H1 H2 Hc1 Hc2 Heq) as [-> ->]. by split.
Qed.

Lemma accessors_absorbed_functional (cs r1 : list Node) :
  accessors_absorbed cs r1 ->
  forall r2, accessors_absorbed cs r2 -> r1 = r2.
Proof.
  induction 1 as [|c cs rs Hc _ IH|p accs cs rs Hp Hacc Hhead _ IH];
    intros r2 H2.
  - by inversion H2.
  - inversion H2 as [|c' cs' rs' _ Hrest|p' accs' cs' rs' Hp' _ _ _]; subst.
    + f_equal. by apply IH.
    + destruct (Hc Hp').
  - inversion H2 as [|c' cs' rs' Hc' _|p' accs' cs' rs' _ Hacc' Hhead' Hrest Heq];
      subst.
    + destruct (Hc' Hp).
    + destruct (run_unique (fun a => name a = "PROPERTY_ACCESSOR")
                  accs' accs cs' cs Hacc' Hacc Hhead' Hhead)
        as [-> ->]; [assumption|].
      f_equal. by apply IH.
Qed.

(** X5. What [_nest_property_accessors] returns is the list, and the only
    one, in which every [PROPERTY], with the whole run of
    [PROPERTY_ACCESSOR] nodes that directly follows it, is replaced by one
    [PROPERTY] that holds the children of the first followed by those
    accessors, and every other node is kept in its place.  So no [PROPERTY_ACCESSOR] stands right
    after a [PROPERTY] in the result, a second pass changes nothing, and
    the list holds as many nodes, at all depths, as before. *)
Theorem nest_property_accessors_settles (cs : list Node) :
  (forall rs, accessors_absorbed cs rs <-> rs = _nest_property_accessors cs)
  /\ accessors_nested (_nest_property_accessors cs)
  /\ _nest_property_accessors (_nest_property_accessors cs)
     = _nest_property_accessors cs
  /\ forest_size (_nest_property_accessors cs) = forest_size cs.
Proof.
  split.
  { intros rs. split; [|intros ->; apply nest_absorbed].
    intros Hrs. exact (accessors_absorbed_functional _ _ Hrs _ (nest_absorbed cs)). }
  assert (Hn : accessors_nested (_nest_property_accessors cs)).
  { rewrite _nest_property_accessors_unfold.
    destruct (any_named "PROPERTY_ACCESSOR" cs) eqn:Hany; cbn [negb].
    - by apply nest_loop_nested.
    - by apply no_accessor_nested. }
  split; [exact Hn|]. split.
  - rewrite (_nest_property_accessors_unfold (_nest_property_accessors cs)).
    destruct (negb _); [done|]. by apply nest_loop_fixed.
  - rewrite _nest_property_accessors_unfold.
    destruct (negb _); [done|]. by rewrite nest_loop_size.
Qed.

Lemma fold_left_pointwise {A B : Type} (f g : A -> B -> A) (l : list B) (a : A) :
  (forall a b, f a b = g a b) -> fold_left f l a = fold_left g l a.
Proof.
  intros Hfg. revert a. induction l as [|b l IH]; intros a; simpl; [done|].
  by rewrite Hfg, IH.
Qed.

Lemma _inject_value_parameter_list_unfold (cs : list Node) :
  _inject_value_parameter_list cs =
    if negb (any_named "VALUE_PARAMETER" cs) then cs
    else
      let '(result, param_group) := fold_left inject_step cs ([], []) in
      if is_empty param_group then result
      else result ++ [mkNode "VALUE_PARAMETER_LIST" param_group].
Proof.
  unfold _inject_value_parameter_list. destruct (negb _); [reflexivity|].
  erewrite (fold_left_pointwise _ inject_step); [reflexivity|].
  intros [result param_group] child. reflexivity.
Qed.

Lemma any_named_app (n : string) (l k : list Node) :
  any_named n (l ++ k) = any_named n l || any_named n k.
Proof. apply existsb_app. Qed.

Lemma flat_map_expand_app (l k : list Node) :
  flat_map expand_parameter_list (l ++ k)
  = flat_map expand_parameter_list l ++ flat_map expand_parameter_list k.
Proof. apply flat_map_app. Qed.

Lemma expand_parameter_group (g : list Node) :
  expand_parameter_list (mkNode "VALUE_PARAMETER_LIST" g) = g.
Proof. reflexivity. Qed.

(** What the loop of [_inject_value_parameter_list] keeps true. *)
Lemma inject_loop (cs : list Node) :
  forall result param_group : list Node,
    any_named "VALUE_PARAMETER" result = false ->
    any_named "VALUE_PARAMETER"
      (fold_left inject_step cs (result, param_group)).1 = false
    /\ (any_named "VALUE_PARAMETER_LIST" cs = false ->
        flat_map expand_parameter_list
          (fold_left inject_step cs (result, param_group)).1
        ++ (fold_left inject_step cs (result, param_group)).2
        = flat_map expand_parameter_list result ++ param_group ++ cs).
Proof.
  induction cs as [|c cs IH]; intros result param_group Hres.
  - simpl. split; [exact Hres|]. intros _. by rewrite app_nil_r.
  - cbn [fold_left]. unfold inject_step at 2 4 6.
    destruct (String.eqb_spec (name c) "VALUE_PARAMETER") as [Hc|Hc].
    + destruct (IH result (param_group ++ [c]) Hres) as [H1 H2].
      split; [exact H1|]. intros Hl. cbn [any_named existsb] in Hl.
      apply orb_false_elim in Hl as [_ Hl]. rewrite (H2 Hl).
      by rewrite <- app_assoc.
    + cbv zeta.
      assert (Hres' : any_named "VALUE_PARAMETER"
                ((if is_empty param_group then result
                  else result ++ [mkNode "VALUE_PARAMETER_LIST" param_group])
                 ++ [c]) = false).
      { rewrite any_named_app. cbn [any_named existsb].
        apply String.eqb_neq in Hc. rewrite Hc.
        destruct (is_empty param_group); [by rewrite Hres|].
        fold (any_named "VALUE_PARAMETER"
                (result ++ [mkNode "VALUE_PARAMETER_LIST" param_group])).
        rewrite any_named_app, Hres. reflexivity. }
      destruct (IH _ [] Hres') as [H1 H2].
      split; [exact H1|]. intros Hl. cbn [any_named existsb] in Hl.
      apply orb_false_elim in Hl as [Hcl Hl]. rewrite (H2 Hl).
      rewrite flat_map_expand_app. cbn [flat_map app].
      unfold expand_parameter_list at 2. rewrite Hcl, app_nil_r.
      destruct param_group as [|g gs]; cbn [is_empty]; [by rewrite <- app_assoc|].
      rewrite flat_map_expand_app. cbn [flat_map].
      rewrite expand_parameter_group, app_nil_r. by rewrite <- !app_assoc.
Qed.

Lemma no_parameter_grouped (cs : list Node) :
  any_named "VALUE_PARAMETER" cs = false -> parameters_grouped cs cs.
Proof.
  induction cs as [|c cs IH]; [constructor|].
  cbn [any_named existsb]. intros [Hc Hcs]%orb_false_elim.
  apply grouped_other; [by apply String.eqb_neq|by apply IH].
Qed.

(** What the loop of [_inject_value_parameter_list] builds, with what is
    appended after it. *)
Lemma inject_loop_grouped (cs : list Node) :
  forall result group : list Node,
    Forall (fun c => name c = "VALUE_PARAMETER") group ->
    exists rs,
      parameters_grouped (group ++ cs) rs
      /\ (let '(result', group') := fold_left inject_step cs (result, group) in
          if is_empty group' then result'
          else result' ++ [mkNode "VALUE_PARAMETER_LIST" group'])
         = result ++ rs.
Proof.
  induction cs as [|c cs IH]; intros result group Hgroup.
  - cbn [fold_left]. rewrite app_nil_r. destruct group as [|g gs].
    + exists []. split; [constructor|by rewrite app_nil_r].
    + exists [mkNode "VALUE_PARAMETER_LIST" (g :: gs)].
      split; [|reflexivity].
      rewrite <- (app_nil_r (g :: gs)) at 1.
      apply grouped_run; [discriminate|exact Hgroup| |constructor].
      intros c H. discriminate H.
  - cbn [fold_left]. unfold inject_step at 2.
    destruct (String.eqb_spec (name c) "VALUE_PARAMETER") as [Hc|Hc].
    + destruct (IH result (group ++ [c])) as (rs & Hrs & Hfold).
      { apply Forall_app. split; [exact Hgroup|by constructor]. }
      exists rs. split; [|exact Hfold].
      by rewrite <- app_assoc in Hrs.
    + cbv zeta.
      destruct (IH ((if is_empty group then result
                     else result ++ [mkNode "VALUE_PARAMETER_LIST" group])
                    ++ [c]) []) as (rs & Hrs & Hfold); [constructor|].
      cbn [app] in Hrs. rewrite Hfold.
      assert (Hc_rs : parameters_grouped (c :: cs) (c :: rs))
        by (by apply grouped_other).
      destruct group as [|g gs]; cbn [is_empty].
      * exists (c :: rs). split; [exact Hc_rs|by rewrite <- app_assoc].
      * exists (mkNode "VALUE_PARAMETER_LIST" (g :: gs) :: c :: rs). split.
        -- apply grouped_run; [discriminate|exact Hgroup| |exact Hc_rs].
           by intros x [= <-].
        -- by rewrite <- !app_assoc.
Qed.

Lemma inject_grouped (cs : list Node) :
  parameters_grouped cs (_inject_value_parameter_list cs).
Proof.
  rewrite _inject_value_parameter_list_unfold.
  destruct (any_named "VALUE_PARAMETER" cs) eqn:Hany; cbn [negb].
  - destruct (inject_loop_grouped cs [] []) as (rs & Hrs & Hfold);
      [constructor|].
    cbn [app] in Hrs, Hfold. rewrite Hfold. exact Hrs.
  - by apply no_parameter_grouped.
Qed.

Lemma parameters_grouped_functional (cs r1 : list Node) :
  parameters_grouped cs r1 ->
  forall r2, parameters_grouped cs r2 -> r1 = r2.
Proof.
  induction 1 as [|c cs rs Hc _ IH|g cs rs Hg Hvp Hhead _ IH]; intros r2 H2.
  - remember [] as l eqn:El in H2.
    destruct H2 as [|c' cs' rs' _ _|g' cs' rs' Hg' _ _ _];
      [reflexivity|discriminate El|].
    apply app_eq_nil in El as [-> _]. by destruct Hg'.
  - remember (c :: cs) as l eqn:El in H2.
    destruct H2 as [|c' cs' rs' _ Hrest|g' cs' rs' Hg' Hvp' _ _];
      [discriminate El| |].
    + injection El as <- <-. f_equal. by apply IH.
    + destruct g' as [|x g']; [by destruct Hg'|].
      cbn [app] in El. injection El as <- _.
      apply Forall_cons in Hvp' as [Hx _]. destruct (Hc Hx).
  - destruct g as [|x g]; [by destruct Hg|].
    remember ((x :: g) ++ cs) as l eqn:El in H2.
    destruct H2 as [|c' cs' rs' Hc' _|g' cs' rs' _ Hvp' Hhead' Hrest].
    + discriminate El.
    + cbn [app] in El. injection El as <- _.
      apply Forall_cons in Hvp as [Hx _]. destruct (Hc' Hx).
    + destruct (run_unique (fun c => name c = "VALUE_PARAMETER")
                  g' (x :: g) cs' cs Hvp' Hvp Hhead' Hhead)
        as [-> ->]; [exact El|].
      f_equal. by apply IH.
Qed.

(** X6. What [_inject_value_parameter_list] returns is the list, and the
    only one, in which every longest run of consecutive [VALUE_PARAMETER]
    nodes is replaced by one [VALUE_PARAMETER_LIST] that holds the run, and
    every other node is kept in its place.  So no [VALUE_PARAMETER] is left
    in the list itself, and when the list held no [VALUE_PARAMETER_LIST]
    to begin with, replacing every [VALUE_PARAMETER_LIST] of the result by
    its children gives the list back. *)
Theorem inject_value_parameter_list_wraps (cs : list Node) :
  (forall rs, parameters_grouped cs rs <-> rs = _inject_value_parameter_list cs)
  /\ any_named "VALUE_PARAMETER" (_inject_value_parameter_list cs) = false
  /\ (any_named "VALUE_PARAMETER_LIST" cs = false ->
      flat_map expand_parameter_list (_inject_value_parameter_list cs) = cs).
Proof.
  split.
  { intros rs. split; [|intros ->; apply inject_grouped].
    intros Hrs.
    exact (parameters_grouped_functional _ _ Hrs _ (inject_grouped cs)). }
  rewrite _inject_value_parameter_list_unfold.
  destruct (any_named "VALUE_PARAMETER" cs) eqn:Hany; cbn [negb].
  - destruct (inject_loop cs [] [] eq_refl) as [H1 H2].
    destruct (fold_left inject_step cs ([], [])) as [result param_group].
    simpl in H1, H2. destruct param_group as [|g gs]; cbn [is_empty].
    + split; [exact H1|]. intros Hl. rewrite <- (H2 Hl). by rewrite app_nil_r.
    + split.
      * rewrite any_named_app, H1. reflexivity.
      * intros Hl. rewrite flat_map_expand_app. cbn [flat_map].
        rewrite expand_parameter_group, app_nil_r. exact (H2 Hl).
  - split; [exact Hany|]. intros Hl.
    clear Hany. induction cs as [|c cs IH]; [done|].
    cbn [any_named existsb] in Hl. apply orb_false_elim in Hl as [Hc Hl].
    cbn [flat_map]. unfold expand_parameter_list at 1. rewrite Hc.
    cbn [app]. f_equal. by apply IH.
Qed.

Lemma call_chain_snoc (base : list Node) (trailing : list (list Node))
    (lambdas : list Node) :
  call_chain base (trailing ++ [lambdas])
  = mkNode "CALL_EXPRESSION" (call_chain base trailing) :: lambdas.
Proof. unfold call_chain. by rewrite fold_left_app. Qed.

(** X7. [_flatten_call_expression] undoes the nesting of trailing lambdas:
    of a chain of calls wrapped around the child list [base], which does
    not itself start with a [CALL_EXPRESSION], it returns [base] followed
    by the trailing groups, innermost first. *)
Theorem flatten_call_chain (base : list Node) (trailing : list (list Node)) :
  (forall c, head base = Some c -> name c <> "CALL_EXPRESSION") ->
  _flatten_call_expression (call_chain base trailing)
  = base ++ concat trailing.
Proof.
  intros Hbase. induction trailing as [|lambdas trailing IH] using rev_ind.
  - simpl. rewrite app_nil_r. destruct base as [|c base]; [done|].
    cbn [_flatten_call_expression]. specialize (Hbase c eq_refl).
    apply String.eqb_neq in Hbase. by rewrite Hbase.
  - rewrite call_chain_snoc, _flatten_call_expression_unfold.
    cbn [name children]. rewrite String.eqb_refl. cbn [negb].
    rewrite IH, concat_app. simpl. by rewrite app_nil_r, app_assoc.
Qed.

(** X7 at [f() {} {}]: two trailing lambdas around a callee and its
    arguments. *)
Lemma flatten_call_chain_witness :
  _flatten_call_expression
    (call_chain [leaf "REFERENCE"; leaf "VALUE_ARGUMENT_LIST"]
       [[leaf "FUNCTION_LITERAL"]; [leaf "FUNCTION_LITERAL"]])
  = [leaf "REFERENCE"; leaf "VALUE_ARGUMENT_LIST"]
    ++ concat [[leaf "FUNCTION_LITERAL"]; [leaf "FUNCTION_LITERAL"]].
Proof.
  apply (flatten_call_chain [leaf "REFERENCE"; leaf "VALUE_ARGUMENT_LIST"]
           [[leaf "FUNCTION_LITERAL"]; [leaf "FUNCTION_LITERAL"]]).
  intros c [= <-]. discriminate.
Defined.

Lemma wrap_with_parameter (cs : list Node) :
  any_named "VALUE_PARAMETER" cs = true ->
  _wrap_bare_types_in_value_parameter cs = cs.
Proof.
  intros Hvp. unfold _wrap_bare_types_in_value_parameter.
  destruct (negb _); [reflexivity|]. cbv zeta. by rewrite Hvp.
Qed.

Lemma wrap_pointwise (cs : list Node) :
  any_named "VALUE_PARAMETER" cs = false ->
  Forall2 wrapped_type cs (_wrap_bare_types_in_value_parameter cs).
Proof.
  intros Hvp. unfold _wrap_bare_types_in_value_parameter.
  destruct (negb (existsb _ cs)) eqn:Hbare.
  - apply negb_true_iff in Hbare. clear Hvp.
    induction cs as [|c cs IH]; [constructor|].
    cbn [existsb] in Hbare. apply orb_false_elim in Hbare as [Hc Hcs].
    constructor; [|by apply IH]. unfold wrapped_type.
    destruct (bool_decide (name c ∈ type_names)) eqn:Ht; [|reflexivity].
    cbn [andb] in Hc. apply negb_false_iff, String.eqb_eq in Hc.
    apply bool_decide_eq_true in Ht. rewrite Hc in Ht.
    exfalso. revert Ht. clear. intros Ht. by vm_compute in Ht.
  - cbv zeta. rewrite Hvp. clear.
    induction cs as [|c cs IH]; [constructor|]. cbn [map].
    constructor; [|exact IH]. unfold wrapped_type.
    by destruct (bool_decide (name c ∈ type_names)).
Qed.

(** X8. [_wrap_bare_types_in_value_parameter] returns a list that holds
    a [VALUE_PARAMETER] unchanged; in any other list it puts, child by
    child and in the same order, a [VALUE_PARAMETER] that holds the child
    alone in the place of each child with a type name, and keeps every
    other child as it is.  So it keeps the length of the list, a second
    pass changes nothing, and when the list holds no [VALUE_PARAMETER] no
    node with a type name is left in the result. *)
Theorem wrap_bare_types_settles (cs : list Node) :
  (any_named "VALUE_PARAMETER" cs = true ->
   _wrap_bare_types_in_value_parameter cs = cs)
  /\ (any_named "VALUE_PARAMETER" cs = false ->
      Forall2 wrapped_type cs (_wrap_bare_types_in_value_parameter cs))
  /\ length (_wrap_bare_types_in_value_parameter cs) = length cs
  /\ _wrap_bare_types_in_value_parameter
       (_wrap_bare_types_in_value_parameter cs)
     = _wrap_bare_types_in_value_parameter cs
  /\ (any_named "VALUE_PARAMETER" cs = false ->
      existsb (fun c => bool_decide (name c ∈ type_names))
        (_wrap_bare_types_in_value_parameter cs) = false).
Proof.
  split; [apply wrap_with_parameter|]. split; [apply wrap_pointwise|].
  assert (Hnone : existsb (fun c =>
             bool_decide (name c ∈ type_names)
             && negb (String.eqb (name c) "VALUE_PARAMETER"))
            (map (fun child =>
               if bool_decide (name child ∈ type_names)
               then mkNode "VALUE_PARAMETER" [child] else child) cs) = false).
  { induction cs as [|c cs IH]; [done|]. cbn [map existsb].
    rewrite IH, orb_false_r.
    destruct (bool_decide (name c ∈ type_names)) eqn:Hc.
    - cbv beta iota. cbn [name]. rewrite String.eqb_refl. apply andb_false_r.
    - cbv beta iota. by rewrite Hc. }
  assert (Htypes : forall l,
    any_named "VALUE_PARAMETER" l = false ->
    existsb (fun c =>
      bool_decide (name c ∈ type_names)
      && negb (String.eqb (name c) "VALUE_PARAMETER")) l = false ->
    existsb (fun c => bool_decide (name c ∈ type_names)) l = false).
  { clear. induction l as [|c l IH]; [done|]. cbn [any_named existsb].
    intros [Hc Hl]%orb_false_elim [Hb Hr]%orb_false_elim.
    rewrite (IH Hl Hr), orb_false_r. rewrite Hc in Hb. cbn [negb] in Hb.
    by rewrite andb_true_r in Hb. }
  unfold _wrap_bare_types_in_value_parameter at 1 3 4 5.
  destruct (negb (existsb _ cs)) eqn:Hbare.
  { split; [done|]. split.
    - unfold _wrap_bare_types_in_value_parameter. by rewrite Hbare.
    - intros Hvp. apply Htypes; [exact Hvp|].
      by apply negb_true_iff in Hbare. }
  cbv zeta. destruct (any_named "VALUE_PARAMETER" cs) eqn:Hvp.
  { split; [done|]. split; [|discriminate].
    unfold _wrap_bare_types_in_value_parameter.
    rewrite Hbare. cbv zeta. by rewrite Hvp. }
  split; [apply length_map|]. split.
  - unfold _wrap_bare_types_in_value_parameter. rewrite Hnone. reflexivity.
  - intros _. clear. induction cs as [|c cs IH]; [done|]. cbn [map existsb].
    rewrite IH, orb_false_r.
    destruct (bool_decide (name c ∈ type_names)) eqn:Hc; [|exact Hc].
    cbn [name]. vm_compute. reflexivity.
Qed.

(* ===================================================================== *)
(** ** More on the PSI normalizer *)
(* ===================================================================== *)

(** Every key of [WRAPPER_COLLAPSE] is in [SKIP_PSI_NODES]. *)
Lemma collapse_keys_are_skipped (n target : string) :
  WRAPPER_COLLAPSE !! n = Some target -> n ∈ SKIP_PSI_NODES.
Proof.
  intros Hn.
  assert (Hall : forallb (fun kv : string * string =>
                    bool_decide (kv.1 ∈ SKIP_PSI_NODES))
                   (map_to_list WRAPPER_COLLAPSE) = true) by (vm_compute; reflexivity).
  rewrite forallb_forall in Hall.
  apply elem_of_map_to_list, list_elem_of_In, Hall in Hn. simpl in Hn.
  by apply bool_decide_eq_true in Hn.
Qed.

(** A PSI node that is not skipped is dropped or kept as it is, with its
    normalized children: the wrapper-collapse rule never applies. *)
Lemma psi_body_kept (node : Node) (nc : list Node) (r : Node) :
  name node ∉ SKIP_PSI_NODES ->
  _normalize_psi_node_body node nc = Some r ->
  r = mkNode (name node) nc.
Proof.
  intros Hs Hr. unfold _normalize_psi_node_body in Hr.
  rewrite (bool_decide_eq_false_2 _ Hs) in Hr.
  destruct (WRAPPER_COLLAPSE !! name node) as [target|] eqn:Hw.
  { destruct (Hs (collapse_keys_are_skipped _ _ Hw)). }
  repeat match type of Hr with
         | (if ?b then _ else _) = _ => destruct b; [discriminate Hr|]
         end.
  by injection Hr as <-.
Qed.

Lemma psi_node_promotes_or_keeps (node r : Node) :
  _normalize_psi_node node = Some r ->
  (name node ∈ SKIP_PSI_NODES /\ normalized_children_psi node = [r])
  \/ ((name node ∉ SKIP_PSI_NODES)
      /\ r = mkNode (name node) (normalized_children_psi node)).
Proof.
  unfold _normalize_psi_node. cbv zeta.
  fold (normalized_children_psi node). intros Hr.
  destruct (decide (name node ∈ SKIP_PSI_NODES)) as [Hs|Hs].
  - left. split; [exact Hs|]. rewrite (psi_body_skip _ _ Hs) in Hr.
    destruct (Nat.eqb (length (normalized_children_psi node)) 1) eqn:Hone;
      [|discriminate Hr].
    apply length_one_head in Hone as (c & Hc & Hhead).
    rewrite Hhead in Hr. injection Hr as <-. exact Hc.
  - right. split; [exact Hs|]. exact (psi_body_kept _ _ _ Hs Hr).
Qed.

(** X9. What [normalize_psi] returns for a node is either the only
    normalized child of a node of the skip set, or the node itself under
    its own name with its normalized children; it never renames and never
    merges a wrapper into a child, since every key of [WRAPPER_COLLAPSE]
    is in [SKIP_PSI_NODES]. *)
Theorem normalize_psi_promotes_or_keeps (node r : Node) :
  normalize_psi node = Some r ->
  (name node ∈ SKIP_PSI_NODES /\ normalized_children_psi node = [r])
  \/ ((name node ∉ SKIP_PSI_NODES)
      /\ r = mkNode (name node) (normalized_children_psi node)).
Proof. exact (psi_node_promotes_or_keeps node r). Qed.

(** X9 at a [CLASS] over a [BODY] with one [FUN]. *)
Lemma normalize_psi_promotes_or_keeps_witness :
  (name (mkNode "CLASS" [mkNode "BODY" [leaf "FUN"]]) ∈ SKIP_PSI_NODES
   /\ normalized_children_psi (mkNode "CLASS" [mkNode "BODY" [leaf "FUN"]])
      = [mkNode "CLASS" [leaf "FUN"]])
  \/ ((name (mkNode "CLASS" [mkNode "BODY" [leaf "FUN"]]) ∉ SKIP_PSI_NODES)
      /\ mkNode "CLASS" [leaf "FUN"]
         = mkNode (name (mkNode "CLASS" [mkNode "BODY" [leaf "FUN"]]))
             (normalized_children_psi
                (mkNode "CLASS" [mkNode "BODY" [leaf "FUN"]]))).
Proof.
  apply (normalize_psi_promotes_or_keeps
           (mkNode "CLASS" [mkNode "BODY" [leaf "FUN"]])
           (mkNode "CLASS" [leaf "FUN"])).
  vm_compute; reflexivity.
Defined.

Lemma names_unfold (t : Node) :
  names t = name t :: flat_map names (children t).
Proof. destruct t; reflexivity. Qed.

Lemma psi_child_cases (node : Node) :
  (exists r, _normalize_psi_node node = Some r
             /\ _normalize_psi_child node = [r])
  \/ (_normalize_psi_node node = None
      /\ _normalize_psi_child node = normalized_children_psi node).
Proof.
  rewrite _normalize_psi_child_unfold.
  destruct (_normalize_psi_node node) as [r|]; [left; by exists r|by right].
Qed.

(** The nodes that [_normalize_psi_child] returns for a node carry names
    of that node's tree that are not in the skip set, and are together no
    larger than it. *)
Lemma psi_child_names_and_size (node : Node) :
  Forall (fun r => forall n, n ∈ names r ->
                     n ∈ names node /\ n ∉ SKIP_PSI_NODES)
    (_normalize_psi_child node)
  /\ forest_size (_normalize_psi_child node) <= size node.
Proof.
  induction node as [nm cs IH] using Node_forall_ind.
  assert (Hnc : Forall (fun r => forall n, n ∈ names r ->
                     n ∈ flat_map names cs /\ n ∉ SKIP_PSI_NODES)
                  (flat_map _normalize_psi_child cs)
                /\ forest_size (flat_map _normalize_psi_child cs)
                   <= forest_size cs).
  { induction IH as [|c cs [Hc Hsz] _ IHl]; [split; [constructor|done]|].
    destruct IHl as [IHn IHs]. cbn [flat_map]. split.
    - apply Forall_app. split.
      + eapply Forall_impl; [exact Hc|]. intros r Hr n Hn.
        destruct (Hr n Hn) as [H1 H2]. split; [|exact H2].
        apply elem_of_app. by left.
      + eapply Forall_impl; [exact IHn|]. intros r Hr n Hn.
        destruct (Hr n Hn) as [H1 H2]. split; [|exact H2].
        apply elem_of_app. by right.
    - rewrite forest_size_app.
      change (forest_size (c :: cs)) with (size c + forest_size cs). lia. }
  destruct Hnc as [Hnames Hsize].
  change (flat_map _normalize_psi_child cs)
    with (normalized_children_psi (mkNode nm cs)) in Hnames, Hsize.
  rewrite size_unfold, names_unfold. cbn [name children].
  assert (Hsub : Forall (fun r => forall n, n ∈ names r ->
              n ∈ nm :: flat_map names cs /\ n ∉ SKIP_PSI_NODES)
            (normalized_children_psi (mkNode nm cs))).
  { eapply Forall_impl; [exact Hnames|]. intros r Hr n Hn.
    destruct (Hr n Hn) as [H1 H2]. split; [by apply elem_of_cons; right|exact H2]. }
  destruct (psi_child_cases (mkNode nm cs)) as [(r & Hr & ->)|[_ ->]].
  2:{ split; [exact Hsub|lia]. }
  apply (psi_node_promotes_or_keeps (mkNode nm cs) r) in Hr
    as [[_ Hone]|[Hs ->]].
  - rewrite Hone in Hsub, Hsize. split; [exact Hsub|lia].
  - cbn [name]. split.
    + constructor; [|constructor]. intros n Hn. rewrite names_unfold in Hn.
      cbn [name children] in Hn. apply elem_of_cons in Hn as [->|Hn].
      * split; [apply list_elem_of_here|exact Hs].
      * apply list_elem_of_In, in_flat_map in Hn as (c & Hc & Hn).
        apply list_elem_of_In in Hc, Hn.
        rewrite Forall_forall in Hsub. exact (Hsub c Hc n Hn).
    + unfold forest_size at 1. cbn [fold_right]. rewrite size_unfold.
      cbn [children]. lia.
Qed.

Lemma psi_node_in_child (node r : Node) :
  normalize_psi node = Some r -> _normalize_psi_child node = [r].
Proof.
  unfold normalize_psi. intros Hr.
  rewrite _normalize_psi_child_unfold, Hr. reflexivity.
Qed.

(** X10. Every name in the tree that [normalize_psi] returns is a name of
    the input tree and is not in [SKIP_PSI_NODES]: the PSI normalizer
    invents no name and leaves no skipped node behind, at any depth. *)
Theorem normalize_psi_names (node r : Node) (n : string) :
  normalize_psi node = Some r ->
  n ∈ names r ->
  n ∈ names node /\ n ∉ SKIP_PSI_NODES.
Proof.
  intros Hr%psi_node_in_child Hn.
  destruct (psi_child_names_and_size node) as [Hnames _].
  rewrite Hr in Hnames. apply Forall_cons in Hnames as [H _]. exact (H n Hn).
Qed.

(** X10 at a file with a [CLASS] whose [BODY] holds a [FUN]. *)
Lemma normalize_psi_names_witness :
  "FUN" ∈ names (mkNode "KtFile" [mkNode "CLASS" [mkNode "BODY" [leaf "FUN"]]])
  /\ "FUN" ∉ SKIP_PSI_NODES.
Proof.
  apply (normalize_psi_names
           (mkNode "KtFile" [mkNode "CLASS" [mkNode "BODY" [leaf "FUN"]]])
           (mkNode "KtFile" [mkNode "CLASS" [leaf "FUN"]])).
  - vm_compute; reflexivity.
  - apply list_elem_of_In. vm_compute. tauto.
Defined.

(** X11. The tree that [normalize_psi] returns has at most as many nodes
    as the input: the PSI normalizer only removes nodes. *)
Theorem normalize_psi_size (node r : Node) :
  normalize_psi node = Some r -> size r <= size node.
Proof.
  intros Hr%psi_node_in_child.
  destruct (psi_child_names_and_size node) as [_ Hsize].
  rewrite Hr in Hsize. simpl in Hsize. lia.
Qed.

(** X11 at the same file. *)
Lemma normalize_psi_size_witness :
  size (mkNode "KtFile" [mkNode "CLASS" [leaf "FUN"]])
  <= size (mkNode "KtFile" [mkNode "CLASS" [mkNode "BODY" [leaf "FUN"]]]).
Proof.
  apply (normalize_psi_size
           (mkNode "KtFile" [mkNode "CLASS" [mkNode "BODY" [leaf "FUN"]]])
           (mkNode "KtFile" [mkNode "CLASS" [leaf "FUN"]])).
  vm_compute; reflexivity.
Defined.

(* ===================================================================== *)
(** ** normalizer.py: no skipped name survives on the tree-sitter side *)
(* ===================================================================== *)

Lemma _normalize_ts_node_mapped_rules (node : Node) (mapped : string)
    (nc : list Node) :
  _normalize_ts_node_mapped node mapped nc =
  match expression_body "control_structure_body" mapped node nc with
  | Some result => result
  | None =>
      if String.eqb mapped "DOT_QUALIFIED_EXPRESSION" && is_empty nc then None
      else
        match expression_body "function_body" mapped node
                (children_rules mapped nc) with
        | Some result => result
        | None =>
            if String.eqb mapped "MODIFIER_LIST"
               && is_empty (children_rules mapped nc) then None
            else if String.eqb mapped "VALUE_PARAMETER_LIST"
                    && is_empty (children_rules mapped nc) then None
            else Some (mkNode mapped (children_rules mapped nc))
        end
  end.
Proof. reflexivity. Qed.

Lemma clean_mk (nm : string) (l : list Node) :
  nm ∉ SKIP_TS_NODES -> Forall clean_ts l -> clean_ts (mkNode nm l).
Proof.
  intros Hnm Hl n Hn. rewrite names_unfold in Hn. cbn [name children] in Hn.
  apply elem_of_cons in Hn as [->|Hn]; [exact Hnm|].
  apply list_elem_of_In, in_flat_map in Hn as (c & Hc & Hn).
  apply list_elem_of_In in Hc, Hn. rewrite Forall_forall in Hl.
  exact (Hl c Hc n Hn).
Qed.

Lemma clean_children (t : Node) : clean_ts t -> Forall clean_ts (children t).
Proof.
  intros Ht. apply Forall_forall. intros c Hc n Hn. apply Ht.
  rewrite names_unfold. apply elem_of_cons. right.
  apply list_elem_of_In, in_flat_map. exists c.
  split; by apply list_elem_of_In.
Qed.

Lemma clean_head (l : list Node) (r : Node) :
  Forall clean_ts l -> head l = Some r -> clean_ts r.
Proof.
  intros Hl Hr. destruct l as [|c l]; [discriminate Hr|].
  injection Hr as <-. by apply Forall_cons in Hl as [H _].
Qed.

Lemma literal_names_not_skipped (n : string) :
  In n ["PROPERTY"; "VALUE_PARAMETER_LIST"; "VALUE_PARAMETER"; "BLOCK";
        "OBJECT_DECLARATION"; "IS_EXPRESSION"; "BINARY_EXPRESSION"] ->
  n ∉ SKIP_TS_NODES.
Proof.
  intros Hn.
  assert (Hall : forallb (fun n => bool_decide (n ∉ SKIP_TS_NODES))
                   ["PROPERTY"; "VALUE_PARAMETER_LIST"; "VALUE_PARAMETER";
                    "BLOCK"; "OBJECT_DECLARATION"; "IS_EXPRESSION";
                    "BINARY_EXPRESSION"] = true)
    by (vm_compute; reflexivity).
  rewrite forallb_forall in Hall. apply Hall in Hn.
  by apply bool_decide_eq_true in Hn.
Qed.

Ltac literal_name := apply literal_names_not_skipped; simpl; tauto.

Lemma nest_step_clean (result : list Node) (child : Node) :
  Forall clean_ts result -> clean_ts child ->
  Forall clean_ts (nest_step result child).
Proof.
  intros Hr Hc. destruct result as [|prop l _] using rev_ind.
  - by constructor.
  - rewrite nest_step_snoc. apply Forall_app in Hr as [Hl Hp].
    apply Forall_cons in Hp as [Hp _].
    destruct (_ && _).
    + apply Forall_app. split; [exact Hl|]. constructor; [|constructor].
      apply clean_mk.
      * literal_name.
      * apply Forall_app. split; [by apply clean_children|by constructor].
    + apply Forall_app. split; [|by constructor].
      apply Forall_app. split; [exact Hl|by constructor].
Qed.

Lemma nest_clean (cs : list Node) :
  Forall clean_ts cs -> Forall clean_ts (_nest_property_accessors cs).
Proof.
  intros Hcs. rewrite _nest_property_accessors_unfold.
  destruct (negb _); [exact Hcs|].
  assert (H : forall result, Forall clean_ts result ->
            Forall clean_ts (fold_left nest_step cs result)).
  { induction Hcs as [|c cs Hc _ IH]; intros result Hr; [exact Hr|].
    simpl. apply IH, nest_step_clean; assumption. }
  apply H. constructor.
Qed.

Lemma inject_step_clean (state : list Node * list Node) (child : Node) :
  Forall clean_ts state.1 -> Forall clean_ts state.2 -> clean_ts child ->
  Forall clean_ts (inject_step state child).1
  /\ Forall clean_ts (inject_step state child).2.
Proof.
  destruct state as [result group]. cbn [fst snd]. intros Hr Hg Hc.
  unfold inject_step. destruct (String.eqb (name child) "VALUE_PARAMETER").
  - cbn [fst snd]. split; [exact Hr|].
    apply Forall_app. split; [exact Hg|by constructor].
  - cbn [fst snd]. split; [|constructor].
    apply Forall_app. split; [|by constructor].
    destruct (is_empty group); [exact Hr|].
    apply Forall_app. split; [exact Hr|]. constructor; [|constructor].
    apply clean_mk; [|exact Hg]. literal_name.
Qed.

Lemma inject_clean (cs : list Node) :
  Forall clean_ts cs -> Forall clean_ts (_inject_value_parameter_list cs).
Proof.
  intros Hcs. rewrite _inject_value_parameter_list_unfold.
  destruct (negb _); [exact Hcs|].
  assert (H : forall state, Forall clean_ts state.1 -> Forall clean_ts state.2 ->
            Forall clean_ts (fold_left inject_step cs state).1
            /\ Forall clean_ts (fold_left inject_step cs state).2).
  { induction Hcs as [|c cs Hc _ IH]; intros state H1 H2; [by split|].
    simpl. destruct (inject_step_clean state c H1 H2 Hc) as [H3 H4].
    apply IH; assumption. }
  destruct (H ([], [])) as [H1 H2]; [constructor|constructor|].
  destruct (fold_left inject_step cs ([], [])) as [result group].
  cbn [fst snd] in H1, H2. destruct (is_empty group); [exact H1|].
  apply Forall_app. split; [exact H1|]. constructor; [|constructor].
  apply clean_mk; [|exact H2]. literal_name.
Qed.

Lemma unwrap_clean (cs : list Node) :
  Forall clean_ts cs -> Forall clean_ts (_unwrap_receiver_type cs).
Proof.
  intros Hcs. rewrite _unwrap_receiver_type_spec.
  induction Hcs as [|c cs Hc _ IH]; [constructor|].
  simpl. apply Forall_app. split; [|exact IH].
  unfold promote_receiver. destruct (String.eqb _ _).
  - by apply clean_children.
  - by constructor.
Qed.

Lemma flatten_inner_clean (inner : Node) :
  clean_ts inner -> Forall clean_ts (flatten_inner inner).
Proof.
  induction inner as [nm cs IH] using Node_forall_ind.
  intros Hc%clean_children. cbn [children] in Hc. simpl.
  destruct cs as [|c rest]; [constructor|].
  apply Forall_cons in Hc as [Hc Hrest].
  destruct (String.eqb (name c) "CALL_EXPRESSION").
  - apply Forall_app. split; [|exact Hrest].
    apply List.Forall_inv in IH. by apply IH.
  - by constructor.
Qed.

Lemma flatten_clean (cs : list Node) :
  Forall clean_ts cs -> Forall clean_ts (_flatten_call_expression cs).
Proof.
  intros Hcs. unfold _flatten_call_expression.
  destruct cs as [|inner rest]; [exact Hcs|].
  destruct (negb _); [exact Hcs|]. cbv zeta.
  apply Forall_cons in Hcs as [Hi Hrest].
  apply Forall_app. split; [by apply flatten_inner_clean|exact Hrest].
Qed.

Lemma wrap_clean (cs : list Node) :
  Forall clean_ts cs -> Forall clean_ts (_wrap_bare_types_in_value_parameter cs).
Proof.
  intros Hcs. unfold _wrap_bare_types_in_value_parameter.
  destruct (negb _); [exact Hcs|]. cbv zeta.
  destruct (any_named _ _); [exact Hcs|].
  induction Hcs as [|c cs Hc _ IH]; [constructor|].
  simpl. constructor; [|exact IH].
  destruct (bool_decide _); [|exact Hc].
  apply clean_mk; [|by constructor]. literal_name.
Qed.

Lemma children_rules_clean (mapped : string) (cs : list Node) :
  Forall clean_ts cs -> Forall clean_ts (children_rules mapped cs).
Proof.
  intros Hcs. unfold children_rules.
  assert (H1 : Forall clean_ts (rule_inject mapped cs)).
  { unfold rule_inject. destruct (_ || _); [by apply inject_clean|exact Hcs]. }
  assert (H2 : Forall clean_ts (rule_unwrap mapped (rule_inject mapped cs))).
  { unfold rule_unwrap. destruct (_ || _); [by apply unwrap_clean|exact H1]. }
  set (l2 := rule_unwrap mapped (rule_inject mapped cs)) in *. clearbody l2.
  assert (H3 : Forall clean_ts (rule_flatten mapped l2)).
  { unfold rule_flatten. destruct (String.eqb _ _);
      [by apply flatten_clean|exact H2]. }
  set (l3 := rule_flatten mapped l2) in *. clearbody l3.
  assert (H4 : Forall clean_ts (rule_literal mapped l3)).
  { unfold rule_literal. destruct (_ && _); [|exact H3].
    constructor; [|constructor]. apply clean_mk; [|constructor].
    literal_name. }
  set (l4 := rule_literal mapped l3) in *. clearbody l4.
  assert (H5 : Forall clean_ts (rule_initializer mapped l4)).
  { unfold rule_initializer. destruct (_ && _); [|exact H4].
    constructor; [|constructor]. apply clean_mk; [|exact H4].
    literal_name. }
  set (l5 := rule_initializer mapped l4) in *. clearbody l5.
  assert (H6 : Forall clean_ts (rule_object mapped l5)).
  { unfold rule_object. destruct (_ && _); [|exact H5].
    constructor; [|constructor]. apply clean_mk; [|exact H5].
    literal_name. }
  set (l6 := rule_object mapped l5) in *. clearbody l6.
  unfold rule_wrap. destruct (String.eqb _ _); [by apply wrap_clean|exact H6].
Qed.

Lemma expression_body_clean (body mapped : string) (node r : Node)
    (nc : list Node) :
  Forall clean_ts nc ->
  expression_body body mapped node nc = Some (Some r) -> clean_ts r.
Proof.
  intros Hnc [H|[_ H]]%expression_body_result; [discriminate H|].
  symmetry in H. exact (clean_head _ _ Hnc H).
Qed.

Lemma mapped_clean (node r : Node) (mapped : string) (nc : list Node) :
  mapped ∉ SKIP_TS_NODES -> Forall clean_ts nc ->
  _normalize_ts_node_mapped node mapped nc = Some r -> clean_ts r.
Proof.
  intros Hm Hnc. rewrite _normalize_ts_node_mapped_rules.
  destruct (expression_body "control_structure_body" _ _ _) as [res|] eqn:E1.
  { intros ->. exact (expression_body_clean _ _ _ _ _ Hnc E1). }
  destruct (_ && _); [intros H; discriminate H|].
  pose proof (children_rules_clean mapped nc Hnc) as Hrules.
  destruct (expression_body "function_body" _ _ _) as [res|] eqn:E2.
  { intros ->. exact (expression_body_clean _ _ _ _ _ Hrules E2). }
  destruct (_ && _); [intros H; discriminate H|].
  destruct (_ && _); [intros H; discriminate H|].
  intros [= <-]. by apply clean_mk.
Qed.

(** No value of [TS_TO_PSI] is a name of [SKIP_TS_NODES]. *)
Lemma mapped_names_not_skipped (n m : string) :
  TS_TO_PSI_get n = Some m -> m ∉ SKIP_TS_NODES.
Proof.
  unfold TS_TO_PSI_get. intros Hget.
  destruct (TS_TO_PSI !! n) as [v|] eqn:Hn; [|discriminate Hget].
  change (v = Some m) in Hget. subst v. apply elem_of_map_to_list in Hn.
  assert (Hall : forallb (fun kv : string * option string =>
                   match kv.2 with
                   | Some v => bool_decide (v ∉ SKIP_TS_NODES)
                   | None => true
                   end) (map_to_list TS_TO_PSI) = true)
    by (vm_compute; reflexivity).
  rewrite forallb_forall in Hall. apply list_elem_of_In, Hall in Hn.
  cbn [snd] in Hn. by apply bool_decide_eq_true in Hn.
Qed.

Lemma ts_body_clean (node r : Node) (raw : list Node) :
  Forall clean_ts raw ->
  _normalize_ts_node_body node raw = Some r -> clean_ts r.
Proof.
  intros Hraw%nest_clean Hr.
  destruct (decide (name node ∈ SKIP_TS_NODES)) as [Hs|Hs].
  { rewrite (ts_body_skip _ _ Hs) in Hr.
    destruct (Nat.eqb _ 1); [|discriminate Hr]. exact (clean_head _ _ Hraw Hr). }
  destruct (TS_TO_PSI_get (name node)) as [mapped|] eqn:Hget.
  2:{ rewrite (ts_body_unmapped _ _ Hs Hget) in Hr. cbv zeta in Hr.
      destruct (Nat.eqb _ 1); [exact (clean_head _ _ Hraw Hr)|].
      destruct (Nat.ltb 1 _); [|discriminate Hr]. injection Hr as <-.
      by apply clean_mk. }
  rewrite (ts_body_mapped _ _ _ Hs Hget) in Hr.
  eapply mapped_clean; [|exact Hraw|exact Hr].
  destruct (String.eqb (name node) "check_expression").
  - destruct (existsb _ _); literal_name.
  - exact (mapped_names_not_skipped _ _ Hget).
Qed.

Lemma ts_child_clean (node : Node) : Forall clean_ts (_normalize_ts_child node).
Proof.
  induction node as [nm cs IH] using Node_forall_ind.
  rewrite _normalize_ts_child_unfold. unfold _normalize_ts_node. cbv zeta.
  cbn [children].
  assert (Hraw : Forall clean_ts (flat_map _normalize_ts_child cs)).
  { clear -IH. induction IH as [|c cs Hc _ IHcs]; [constructor|].
    simpl. apply Forall_app. by split. }
  destruct (_normalize_ts_node_body (mkNode nm cs) _) as [r|] eqn:Hr;
    [|exact Hraw].
  constructor; [|constructor]. exact (ts_body_clean _ _ _ Hraw Hr).
Qed.

(** X12. No name in the tree that [normalize_ts] returns is in
    [SKIP_TS_NODES]: the rules that keep, rename, wrap, nest, unwrap and
    flatten nodes never leave a skipped node behind, at any depth, and no
    name they introduce is itself a skipped one. *)
Theorem normalize_ts_names_not_skipped (node r : Node) (n : string) :
  normalize_ts node = Some r -> n ∈ names r -> n ∉ SKIP_TS_NODES.
Proof.
  unfold normalize_ts, _normalize_ts_node. cbv zeta. intros Hr.
  assert (Hraw : Forall clean_ts (flat_map _normalize_ts_child (children node))).
  { apply Forall_forall. intros c Hc.
    apply list_elem_of_In, in_flat_map in Hc as (x & _ & Hc).
    apply list_elem_of_In in Hc.
    pose proof (ts_child_clean x) as Hx. rewrite Forall_forall in Hx.
    exact (Hx c Hc). }
  exact (ts_body_clean _ _ _ Hraw Hr n).
Qed.

(** X12 at a function declaration with a receiver type. *)
Lemma normalize_ts_names_not_skipped_witness : "USER_TYPE" ∉ SKIP_TS_NODES.
Proof.
  apply (normalize_ts_names_not_skipped
           (mkNode "function_declaration"
              [mkNode "receiver_type"
                 [mkNode "user_type" [leaf "type_identifier"]]])
           (mkNode "FUN" [leaf "USER_TYPE"])).
  - vm_compute; reflexivity.
  - apply list_elem_of_In. simpl. tauto.
Defined.

(* ===================================================================== *)
(** ** runner.py: normalizing both trees and comparing them *)
(* ===================================================================== *)

(** X13. The status that normalizing and comparing two trees gives:
    [TS_PARSE_ERROR] exactly when the candidate normalizes to nothing,
    whatever the reference does; [PSI_PARSE_ERROR] exactly when only the
    reference normalizes to nothing; [MATCH] exactly when both normalize to
    the same tree; [MISMATCH] exactly when they normalize to different
    trees; and differences are listed only with [MISMATCH]. *)
Theorem normalize_and_compare_status (ts psi : Node) :
  (status (normalize_and_compare ts psi) = TS_PARSE_ERROR
   <-> normalize_ts ts = None)
  /\ (status (normalize_and_compare ts psi) = PSI_PARSE_ERROR
      <-> normalize_ts ts <> None /\ normalize_psi psi = None)
  /\ (status (normalize_and_compare ts psi) = MATCH
      <-> exists t, normalize_ts ts = Some t /\ normalize_psi psi = Some t)
  /\ (status (normalize_and_compare ts psi) = MISMATCH
      <-> exists t p, normalize_ts ts = Some t /\ normalize_psi psi = Some p
                      /\ t <> p)
  /\ (differences (normalize_and_compare ts psi) <> []
      -> status (normalize_and_compare ts psi) = MISMATCH).
Proof.
  unfold normalize_and_compare. cbv zeta.
  destruct (normalize_ts ts) as [t|].
  2:{ cbn [compare_trees status differences]. repeat split; try done.
      - intros [H _]. by destruct H.
      - intros (t & H & _). discriminate H.
      - intros (t & p & H & _). discriminate H. }
  destruct (normalize_psi psi) as [p|].
  2:{ cbn [compare_trees status differences]. repeat split; try done.
      - intros (t' & _ & H). discriminate H.
      - intros (t' & p & _ & H & _). discriminate H. }
  rewrite status_compare_trees, differences_compare_trees.
  destruct (diffs t p "") as [|d ds] eqn:Hd.
  - apply diffs_nil_eq in Hd as ->. repeat split; try done.
    + intros [_ H]. discriminate H.
    + intros _. by exists p.
    + intros (t' & p' & [= <-] & [= <-] & Hne). by destruct Hne.
  - assert (Hne : t <> p).
    { intros ->. rewrite diffs_same in Hd. discriminate Hd. }
    repeat split; try done.
    + intros [_ H]. discriminate H.
    + intros (t' & [= <-] & [= <-]). by destruct Hne.
    + intros _. by exists t, p.
Qed.

(** X14. A tree-sitter tree whose root is in [SKIP_TS_NODES] and does not
    end up with exactly one normalized child normalizes to [None]: the
    branch that would keep such a root under a mapped name is never taken,
    since no name of [SKIP_TS_NODES] has a mapping.  The file is then
    reported as [TS_PARSE_ERROR] whatever the reference tree is. *)
Theorem skipped_ts_root_reads_as_parse_error (ts : Node) :
  name ts ∈ SKIP_TS_NODES ->
  length (normalized_children_ts ts) <> 1 ->
  normalize_ts ts = None
  /\ forall psi : Node,
       normalize_and_compare ts psi = mkCompareResult TS_PARSE_ERROR [].
Proof.
  intros Hs Hlen.
  assert (Hnone : normalize_ts ts = None).
  { unfold normalize_ts, _normalize_ts_node. cbv zeta.
    rewrite (ts_body_skip _ _ Hs). fold (normalized_children_ts ts).
    destruct (Nat.eqb_spec (length (normalized_children_ts ts)) 1) as [E|_];
      [destruct (Hlen E)|reflexivity]. }
  split; [exact Hnone|]. intros psi.
  unfold normalize_and_compare. cbv zeta. rewrite Hnone. reflexivity.
Qed.

(** X14 at a [statements] root with two declarations. *)
Lemma skipped_ts_root_reads_as_parse_error_witness :
  normalize_ts (mkNode "statements"
                  [leaf "class_declaration"; leaf "class_declaration"]) = None
  /\ forall psi : Node,
       normalize_and_compare
         (mkNode "statements"
            [leaf "class_declaration"; leaf "class_declaration"]) psi
       = mkCompareResult TS_PARSE_ERROR [].
Proof.
  apply (skipped_ts_root_reads_as_parse_error
           (mkNode "statements"
              [leaf "class_declaration"; leaf "class_declaration"])).
  - vm_compute; reflexivity.
  - vm_compute; lia.
Defined.

(* ===================================================================== *)
(** ** parser_ts.py: [_parse_node] *)
(* ===================================================================== *)

Lemma _parse_node_unfold (fuel : nat) (tokens : list string) (pos : nat) :
  _parse_node (S fuel) tokens pos =
    if match tokens !! pos with
       | Some tok => negb (String.eqb tok "(")
       | None => true
       end
    then Raised (ValueError
           ("Expected '(' at position " +:+ str pos +:+ ", got "
            +:+ default "EOF" (tokens !! pos)))
    else
      match tokens !! (pos + 1) with
      | None => Raised (ValueError "Unexpected end of input after '('")
      | Some name =>
          match _parse_node_loop fuel tokens (pos + 1 + 1) [] with
          | Returned (children, pos) =>
              if Nat.leb (length tokens) pos then
                Raised (ValueError "Unexpected end of input, expected ')'")
              else Returned (mkNode name children, pos + 1)
          | Raised e => Raised e
          | Unfinished => Unfinished
          end
      end.
Proof. reflexivity. Qed.

Lemma _parse_node_loop_unfold (fuel : nat) (tokens : list string) (pos : nat)
    (children : list Node) :
  _parse_node_loop (S fuel) tokens pos children =
    match tokens !! pos with
    | None => Returned (children, pos)
    | Some tok =>
        if String.eqb tok ")" then Returned (children, pos)
        else if String.eqb tok "(" then
          match _parse_node fuel tokens pos with
          | Returned (child, pos) =>
              _parse_node_loop fuel tokens pos (children ++ [child])
          | Raised e => Raised e
          | Unfinished => Unfinished
          end
        else _parse_node_loop fuel tokens (pos + 1) children
    end.
Proof. reflexivity. Qed.

(** More fuel does not change a result. *)
Lemma parse_more_fuel (tokens : list string) (fuel : nat) :
  (forall pos r, _parse_node fuel tokens pos = r -> r <> Unfinished ->
     forall k, _parse_node (fuel + k) tokens pos = r)
  /\ (forall pos cs r, _parse_node_loop fuel tokens pos cs = r ->
        r <> Unfinished ->
        forall k, _parse_node_loop (fuel + k) tokens pos cs = r).
Proof.
  induction fuel as [|fuel [IHn IHl]].
  { split; intros; subst; exfalso; auto. }
  split.
  - intros pos r Hr Hne k. change (S fuel + k) with (S (fuel + k)).
    rewrite _parse_node_unfold in Hr |- *.
    destruct (match tokens !! pos with Some _ => _ | None => _ end);
      [exact Hr|].
    destruct (tokens !! (pos + 1)) as [nm|]; [|exact Hr].
    destruct (_parse_node_loop fuel tokens (pos + 1 + 1) []) as [[cs p]|e|]
      eqn:Hl.
    + rewrite (IHl _ _ _ Hl ltac:(discriminate) k). exact Hr.
    + rewrite (IHl _ _ _ Hl ltac:(discriminate) k). exact Hr.
    + subst r. exfalso. by apply Hne.
  - intros pos cs r Hr Hne k. change (S fuel + k) with (S (fuel + k)).
    rewrite _parse_node_loop_unfold in Hr |- *.
    destruct (tokens !! pos) as [tok|]; [|exact Hr].
    destruct (String.eqb tok ")"); [exact Hr|].
    destruct (String.eqb tok "(").
    + destruct (_parse_node fuel tokens pos) as [[c p]|e|] eqn:Hn.
      * rewrite (IHn _ _ Hn ltac:(discriminate) k). exact (IHl _ _ _ Hr Hne k).
      * rewrite (IHn _ _ Hn ltac:(discriminate) k). exact Hr.
      * subst r. exfalso. by apply Hne.
    + exact (IHl _ _ _ Hr Hne k).
Qed.

Lemma parse_node_fuel_agree (tokens : list string) (pos f1 f2 : nat) :
  _parse_node f1 tokens pos <> Unfinished ->
  _parse_node f2 tokens pos <> Unfinished ->
  _parse_node f1 tokens pos = _parse_node f2 tokens pos.
Proof.
  intros H1 H2.
  destruct (parse_more_fuel tokens f1) as [M1 _].
  destruct (parse_more_fuel tokens f2) as [M2 _].
  rewrite <- (M1 pos _ eq_refl H1 f2), <- (M2 pos _ eq_refl H2 f1).
  by rewrite Nat.add_comm.
Qed.

Lemma slice_nil {A : Type} (l : list A) (i : nat) : slice l i i = [].
Proof. unfold slice. by rewrite Nat.sub_diag. Qed.

Lemma slice_cons {A : Type} (l : list A) (i j : nat) (x : A) :
  l !! i = Some x -> i < j -> slice l i j = x :: slice l (i + 1) j.
Proof.
  intros Hx Hij. unfold slice.
  rewrite (drop_S l x i Hx). replace (j - i) with (S (j - (i + 1))) by lia.
  simpl. by rewrite Nat.add_1_r.
Qed.

Lemma take_add {A : Type} (l : list A) (a b : nat) :
  take (a + b) l = take a l ++ take b (drop a l).
Proof.
  revert l. induction a as [|a IH]; intros [|x l]; simpl; try done.
  - by rewrite take_nil.
  - by rewrite IH.
Qed.

Lemma slice_app {A : Type} (l : list A) (i m j : nat) :
  i <= m -> m <= j -> slice l i j = slice l i m ++ slice l m j.
Proof.
  intros Him Hmj. unfold slice.
  replace (j - i) with ((m - i) + (j - m)) by lia.
  rewrite take_add, drop_drop. by replace (i + (m - i)) with m by lia.
Qed.

Lemma significant_tokens_of (t : Node) (rest : list string) :
  significant false (tokens_of t ++ rest)
  = tokens_of t ++ significant false rest.
Proof.
  revert rest. induction t as [nm cs IH] using Node_forall_ind. intros rest.
  simpl. f_equal. f_equal. rewrite <- !app_assoc.
  induction IH as [|c cs Hc _ IHcs]; simpl; [done|].
  rewrite <- !app_assoc, Hc. by f_equal.
Qed.

(** What [_parse_node] returns is the tree of the tokens it has read; the
    loop stops at a closing parenthesis or at the end. *)
Lemma parse_reads (tokens : list string) (fuel : nat) :
  (forall pos t pos', _parse_node fuel tokens pos = Returned (t, pos') ->
     pos + 3 <= pos' <= length tokens
     /\ forall rest, significant false (slice tokens pos pos' ++ rest)
                     = tokens_of t ++ significant false rest)
  /\ (forall pos cs cs' pos',
        _parse_node_loop fuel tokens pos cs = Returned (cs', pos') ->
        pos <= pos'
        /\ (pos' < length tokens -> tokens !! pos' = Some ")")
        /\ exists new, cs' = cs ++ new
           /\ forall rest, significant false (slice tokens pos pos' ++ rest)
                = flat_map tokens_of new ++ significant false rest).
Proof.
  induction fuel as [|fuel [IHn IHl]].
  { split; intros; discriminate. }
  split.
  - intros pos t pos'. rewrite _parse_node_unfold.
    destruct (tokens !! pos) as [tok|] eqn:Htok; [|intros H; discriminate H].
    destruct (String.eqb_spec tok "(") as [->|_]; [|intros H; discriminate H].
    cbn [negb]. destruct (tokens !! (pos + 1)) as [nm|] eqn:Hnm;
      [|intros H; discriminate H].
    destruct (_parse_node_loop fuel tokens (pos + 1 + 1) []) as [[cs p]|e|]
      eqn:Hl; try (intros H; discriminate H).
    destruct (Nat.leb_spec (length tokens) p) as [_|Hp];
      [intros H; discriminate H|].
    intros [= <- <-]. apply IHl in Hl as (Hle & Hclose & new & -> & Hsig).
    specialize (Hclose Hp). split; [lia|]. intros rest.
    rewrite (slice_cons _ _ _ _ Htok) by lia.
    rewrite (slice_cons _ _ _ _ Hnm) by lia.
    rewrite (slice_app _ (pos + 1 + 1) p (p + 1)) by lia.
    rewrite (slice_cons _ p _ _ Hclose), slice_nil by lia.
    simpl. f_equal. f_equal. rewrite <- !app_assoc, Hsig. reflexivity.
  - intros pos cs cs' pos'. rewrite _parse_node_loop_unfold.
    destruct (tokens !! pos) as [tok|] eqn:Htok.
    2:{ intros [= <- <-]. apply lookup_ge_None in Htok.
        split; [lia|]. split; [lia|]. exists []. rewrite app_nil_r, slice_nil.
        by split. }
    destruct (String.eqb_spec tok ")") as [->|Hclose].
    { intros [= <- <-]. split; [lia|]. split; [by intros _|].
      exists []. rewrite app_nil_r, slice_nil. by split. }
    destruct (String.eqb_spec tok "(") as [->|Hopen].
    + destruct (_parse_node fuel tokens pos) as [[c p]|e|] eqn:Hn;
        try (intros H; discriminate H).
      intros Hl. apply IHn in Hn as (Hp & Hc).
      apply IHl in Hl as (Hle & Hstop & new & -> & Hsig).
      split; [lia|]. split; [exact Hstop|]. exists (c :: new).
      split; [by rewrite <- app_assoc|]. intros rest.
      rewrite (slice_app _ pos p pos') by lia.
      rewrite <- app_assoc, Hc, Hsig. simpl. by rewrite <- app_assoc.
    + intros Hl. apply IHl in Hl as (Hle & Hstop & new & -> & Hsig).
      split; [lia|]. split; [exact Hstop|]. exists new. split; [done|].
      intros rest. rewrite (slice_cons _ _ _ _ Htok) by lia. simpl.
      apply String.eqb_neq in Hclose, Hopen. rewrite Hclose, Hopen.
      apply Hsig.
Qed.

(** Fuel beyond the number of tokens left is enough. *)
Lemma parse_fuel_enough (tokens : list string) (fuel : nat) :
  (forall pos, length tokens - pos + 1 <= fuel ->
     _parse_node fuel tokens pos <> Unfinished)
  /\ (forall pos cs, length tokens - pos + 2 <= fuel ->
        _parse_node_loop fuel tokens pos cs <> Unfinished).
Proof.
  induction fuel as [|fuel [IHn IHl]].
  { split; intros; lia. }
  split.
  - intros pos Hfuel. rewrite _parse_node_unfold.
    destruct (match tokens !! pos with Some _ => _ | None => _ end);
      [discriminate|].
    destruct (tokens !! (pos + 1)) as [nm|] eqn:Hnm; [|discriminate].
    apply lookup_lt_Some in Hnm.
    pose proof (IHl (pos + 1 + 1) [] ltac:(lia)) as Hl.
    destruct (_parse_node_loop fuel tokens (pos + 1 + 1) []) as [[cs p]|e|];
      [|discriminate|by destruct Hl].
    destruct (Nat.leb _ _); discriminate.
  - intros pos cs Hfuel. rewrite _parse_node_loop_unfold.
    destruct (tokens !! pos) as [tok|] eqn:Htok; [|discriminate].
    apply lookup_lt_Some in Htok.
    destruct (String.eqb tok ")"); [discriminate|].
    destruct (String.eqb tok "(").
    + pose proof (IHn pos ltac:(lia)) as Hn.
      destruct (_parse_node fuel tokens pos) as [[c p]|e|] eqn:Hc;
        [|discriminate|by destruct Hn].
      destruct (parse_reads tokens fuel) as [Hreads _].
      apply Hreads in Hc as [Hp _]. apply IHl. lia.
    + apply IHl. lia.
Qed.

(** X15. [_parse_node] returns or raises on every token list and at every
    position: a bound of one more than the number of tokens is always
    enough, and a larger bound gives the same outcome. *)
Theorem parse_node_finishes (tokens : list string) (pos k : nat) :
  _parse_node (S (length tokens)) tokens pos <> Unfinished
  /\ _parse_node (S (length tokens) + k) tokens pos
     = _parse_node (S (length tokens)) tokens pos.
Proof.
  assert (H : _parse_node (S (length tokens)) tokens pos <> Unfinished).
  { apply parse_fuel_enough. lia. }
  split; [exact H|].
  destruct (parse_more_fuel tokens (S (length tokens))) as [M _].
  exact (M pos _ eq_refl H k).
Qed.

(** X16. What [_parse_node] returns is the tree of the tokens it has read:
    it starts at an opening parenthesis, ends behind a closing one, inside
    the list, and the parentheses and names between them, without the other
    tokens, which are skipped, are the S-expression of the tree returned. *)
Theorem parse_node_reads_its_tree (fuel : nat) (tokens : list string)
    (pos pos' : nat) (t : Node) :
  _parse_node fuel tokens pos = Returned (t, pos') ->
  pos + 3 <= pos' <= length tokens
  /\ significant false (slice tokens pos pos') = tokens_of t.
Proof.
  intros Hr. destruct (parse_reads tokens fuel) as [Hreads _].
  apply Hreads in Hr as [Hp Hsig]. split; [exact Hp|].
  specialize (Hsig []). by rewrite !app_nil_r in Hsig.
Qed.

(** X16 at a list with a field label before the child and a token behind
    the expression. *)
Lemma parse_node_reads_its_tree_witness :
  0 + 3 <= 7 <= length ["("; "a"; "name:"; "("; "b"; ")"; ")"; "("]
  /\ significant false (slice ["("; "a"; "name:"; "("; "b"; ")"; ")"; "("] 0 7)
     = tokens_of (mkNode "a" [leaf "b"]).
Proof.
  apply (parse_node_reads_its_tree 9
           ["("; "a"; "name:"; "("; "b"; ")"; ")"; "("] 0 7
           (mkNode "a" [leaf "b"])).
  vm_compute; reflexivity.
Defined.

Lemma tokens_of_unfold (t : Node) :
  tokens_of t = "(" :: name t :: flat_map tokens_of (children t) ++ [")"].
Proof. by destruct t. Qed.

Lemma lookup_tokens_of_head (t : Node) (pre rest : list string) :
  (pre ++ tokens_of t ++ rest) !! length pre = Some "(".
Proof. destruct t. simpl. by apply list_lookup_middle. Qed.

Lemma parse_children_round_trip (cs : list Node) :
  Forall (fun c => forall pre suf, exists fuel,
            _parse_node fuel (pre ++ tokens_of c ++ suf) (length pre)
            = Returned (c, length pre + length (tokens_of c))) cs ->
  forall pre suf acc, exists fuel,
    _parse_node_loop fuel (pre ++ flat_map tokens_of cs ++ ")" :: suf)
      (length pre) acc
    = Returned (acc ++ cs, length pre + length (flat_map tokens_of cs)).
Proof.
  induction 1 as [|c cs Hc _ IH]; intros pre suf acc.
  - exists 1. rewrite _parse_node_loop_unfold. simpl.
    rewrite list_lookup_middle by done. simpl.
    by rewrite app_nil_r, Nat.add_0_r.
  - destruct (Hc pre (flat_map tokens_of cs ++ ")" :: suf)) as [f1 H1].
    destruct (IH (pre ++ tokens_of c) suf (acc ++ [c])) as [f2 H2].
    exists (S (f1 + f2)). rewrite _parse_node_loop_unfold.
    cbn [flat_map]. rewrite <- !app_assoc.
    rewrite <- !app_assoc in H2.
    rewrite lookup_tokens_of_head. cbn [String.eqb Ascii.eqb Bool.eqb].
    destruct (parse_more_fuel (pre ++ tokens_of c ++ flat_map tokens_of cs
                               ++ ")" :: suf) f1) as [M1 _].
    rewrite (M1 _ _ H1 ltac:(discriminate) f2).
    destruct (parse_more_fuel (pre ++ tokens_of c ++ flat_map tokens_of cs
                               ++ ")" :: suf) f2) as [_ M2].
    rewrite length_app in H2. rewrite Nat.add_comm.
    rewrite (M2 _ _ _ H2 ltac:(discriminate) f1).
    rewrite !length_app, <- ?app_assoc. f_equal. f_equal. lia.
Qed.

Lemma parse_round_trip_some_fuel (t : Node) :
  forall pre suf, exists fuel,
    _parse_node fuel (pre ++ tokens_of t ++ suf) (length pre)
    = Returned (t, length pre + length (tokens_of t)).
Proof.
  induction t as [nm cs IH] using Node_forall_ind. intros pre suf.
  destruct (parse_children_round_trip cs IH (pre ++ ["("; nm]) suf [])
    as [fuel Hl].
  exists (S fuel). rewrite _parse_node_unfold.
  rewrite tokens_of_unfold. cbn [name children app].
  rewrite list_lookup_middle by done. cbn [String.eqb Ascii.eqb Bool.eqb negb].
  replace (pre ++ "(" :: nm :: (flat_map tokens_of cs ++ [")"]) ++ suf)
    with ((pre ++ ["("]) ++ nm :: flat_map tokens_of cs ++ ")" :: suf)
    by (rewrite <- !app_assoc; reflexivity).
  rewrite list_lookup_middle by (rewrite length_app; reflexivity).
  replace ((pre ++ ["("]) ++ nm :: flat_map tokens_of cs ++ ")" :: suf)
    with ((pre ++ ["("; nm]) ++ flat_map tokens_of cs ++ ")" :: suf)
    by (rewrite <- !app_assoc; reflexivity).
  replace (length pre + 1 + 1) with (length (pre ++ ["("; nm]))
    by (rewrite length_app; simpl; lia).
  rewrite Hl. cbn [app].
  destruct (Nat.leb_spec
              (length ((pre ++ ["("; nm]) ++ flat_map tokens_of cs ++ ")" :: suf))
              (length (pre ++ ["("; nm]) + length (flat_map tokens_of cs)))
    as [Hle|_].
  { rewrite !length_app in Hle. simpl in Hle. lia. }
  f_equal. f_equal. rewrite !length_app. simpl. rewrite length_app. simpl. lia.
Qed.

(** X17. Parsing the S-expression of a tree gives the tree back, wherever
    the expression stands in the token list, and the position behind it,
    whatever the names in the tree are. *)
Theorem parse_node_round_trip (t : Node) (pre suf : list string) :
  _parse_node (S (length (pre ++ tokens_of t ++ suf)))
    (pre ++ tokens_of t ++ suf) (length pre)
  = Returned (t, length pre + length (tokens_of t)).
Proof.
  destruct (parse_round_trip_some_fuel t pre suf) as [fuel H].
  rewrite <- H. apply parse_node_fuel_agree.
  - apply parse_fuel_enough. lia.
  - rewrite H. discriminate.
Qed.

Lemma parse_round_trip_any_fuel (t : Node) (pre suf : list string)
    (fuel : nat) :
  _parse_node fuel (pre ++ tokens_of t ++ suf) (length pre) = Unfinished
  \/ _parse_node fuel (pre ++ tokens_of t ++ suf) (length pre)
     = Returned (t, length pre + length (tokens_of t)).
Proof.
  destruct (parse_round_trip_some_fuel t pre suf) as [f0 H].
  destruct (_parse_node fuel (pre ++ tokens_of t ++ suf) (length pre))
    as [r|e|] eqn:Hr; [right| right |by left].
  - rewrite <- H, <- Hr. apply parse_node_fuel_agree.
    + rewrite Hr. discriminate.
    + rewrite H. discriminate.
  - rewrite <- H, <- Hr. apply parse_node_fuel_agree.
    + rewrite Hr. discriminate.
    + rewrite H. discriminate.
Qed.

Lemma parse_raises_value_error (tokens : list string) (fuel : nat) :
  (forall pos e, _parse_node fuel tokens pos = Raised e ->
     exists msg, e = ValueError msg)
  /\ (forall pos cs e, _parse_node_loop fuel tokens pos cs = Raised e ->
        exists msg, e = ValueError msg).
Proof.
  induction fuel as [|fuel [IHn IHl]].
  { split; intros; discriminate. }
  split.
  - intros pos e. rewrite _parse_node_unfold.
    destruct (match tokens !! pos with Some _ => _ | None => _ end);
      [intros [= <-]; by eexists|].
    destruct (tokens !! (pos + 1)) as [nm|]; [|intros [= <-]; by eexists].
    destruct (_parse_node_loop fuel tokens (pos + 1 + 1) []) as [[cs p]|e'|]
      eqn:Hl; [| |intros H; discriminate H].
    + destruct (Nat.leb _ _); [intros [= <-]; by eexists|intros H; discriminate H].
    + intros [= <-]. exact (IHl _ _ _ Hl).
  - intros pos cs e. rewrite _parse_node_loop_unfold.
    destruct (tokens !! pos) as [tok|]; [|intros H; discriminate H].
    destruct (String.eqb tok ")"); [intros H; discriminate H|].
    destruct (String.eqb tok "("); [|apply IHl].
    destruct (_parse_node fuel tokens pos) as [[c p]|e'|] eqn:Hn;
      [apply IHl| |intros H; discriminate H].
    intros [= <-]. exact (IHn _ _ Hn).
Qed.

Lemma lookup_end {A : Type} (l : list A) : (l ++ []) !! length l = None.
Proof. apply lookup_ge_None. rewrite length_app. simpl. lia. Qed.

Lemma truncated_children (cs : list Node) :
  Forall (fun c => forall pre n fuel t' p, n < length (tokens_of c) ->
            _parse_node fuel (pre ++ take n (tokens_of c)) (length pre)
            <> Returned (t', p)) cs ->
  forall pre m fuel acc cs' p,
    m < length (flat_map tokens_of cs ++ [")"]) ->
    _parse_node_loop fuel
      (pre ++ take m (flat_map tokens_of cs ++ [")"])) (length pre) acc
    = Returned (cs', p) ->
    length (pre ++ take m (flat_map tokens_of cs ++ [")"])) <= p.
Proof.
  induction 1 as [|c cs Hc _ IH]; intros pre m [|fuel] acc cs' p Hm;
    try (intros H; discriminate H); rewrite _parse_node_loop_unfold.
  - simpl in Hm. replace m with 0 by lia. cbn [flat_map app take].
    rewrite lookup_end.
    intros [= <- <-]. rewrite length_app. simpl. lia.
  - destruct m as [|m].
    { rewrite firstn_O, lookup_end. intros [= <- <-]. rewrite length_app.
      simpl. lia. }
    cbn [flat_map]. rewrite <- app_assoc.
    assert (Hhead : forall rest, (pre ++ take (S m) (tokens_of c ++ rest))
                                 !! length pre = Some "(").
    { intros rest. destruct c. simpl. by apply list_lookup_middle. }
    rewrite Hhead. cbn [String.eqb Ascii.eqb Bool.eqb].
    destruct (Nat.lt_ge_cases (S m) (length (tokens_of c))) as [Hlt|Hge].
    + rewrite take_app_le by lia.
      destruct (_parse_node fuel _ _) as [[c' p']|e|] eqn:Hn;
        try (intros H; discriminate H).
      destruct (Hc pre (S m) fuel c' p' Hlt Hn).
    + rewrite take_app_ge by exact Hge.
      destruct (parse_round_trip_any_fuel c pre
                  (take (S m - length (tokens_of c))
                     (flat_map tokens_of cs ++ [")"])) fuel) as [Hn|Hn];
        rewrite Hn; [intros H; discriminate H|].
      rewrite app_assoc, <- length_app. apply IH.
      cbn [flat_map] in Hm. rewrite <- app_assoc, length_app in Hm. lia.
Qed.

Lemma truncated_not_returned (t : Node) :
  forall pre n fuel t' p, n < length (tokens_of t) ->
    _parse_node fuel (pre ++ take n (tokens_of t)) (length pre)
    <> Returned (t', p).
Proof.
  induction t as [nm cs IH] using Node_forall_ind.
  intros pre n [|fuel] t' p Hn; [discriminate|].
  rewrite _parse_node_unfold, tokens_of_unfold. cbn [name children].
  destruct n as [|[|m]].
  - rewrite firstn_O, lookup_end. discriminate.
  - rewrite firstn_cons, firstn_O, list_lookup_middle by done.
    cbn [String.eqb Ascii.eqb Bool.eqb negb].
    rewrite (proj2 (lookup_ge_None _ _)) by (rewrite length_app; simpl; lia).
    discriminate.
  - rewrite !firstn_cons, list_lookup_middle by done.
    cbn [String.eqb Ascii.eqb Bool.eqb negb].
    replace (pre ++ "(" :: nm :: take m (flat_map tokens_of cs ++ [")"]))
      with ((pre ++ ["("]) ++ nm :: take m (flat_map tokens_of cs ++ [")"]))
      by (rewrite <- !app_assoc; reflexivity).
    rewrite list_lookup_middle by (rewrite length_app; reflexivity).
    replace ((pre ++ ["("]) ++ nm :: take m (flat_map tokens_of cs ++ [")"]))
      with ((pre ++ ["("; nm]) ++ take m (flat_map tokens_of cs ++ [")"]))
      by (rewrite <- !app_assoc; reflexivity).
    replace (length pre + 1 + 1) with (length (pre ++ ["("; nm]))
      by (rewrite length_app; simpl; lia).
    destruct (_parse_node_loop fuel _ _ []) as [[cs' p']|e|] eqn:Hl;
      try discriminate.
    apply (truncated_children cs IH) in Hl.
    2:{ rewrite tokens_of_unfold in Hn. cbn [name children] in Hn.
        simpl in Hn. lia. }
    apply Nat.leb_le in Hl. rewrite Hl. discriminate.
Qed.

(** X18. A truncated S-expression is refused: on any proper prefix of the
    tokens of a tree, also an empty one, [_parse_node] raises a
    [ValueError] and never returns a partial tree. *)
Theorem parse_node_truncated (t : Node) (pre : list string) (n : nat) :
  n < length (tokens_of t) ->
  exists msg,
    _parse_node (S (length (pre ++ take n (tokens_of t))))
      (pre ++ take n (tokens_of t)) (length pre)
    = Raised (ValueError msg).
Proof.
  intros Hn.
  pose proof (truncated_not_returned t pre n
                (S (length (pre ++ take n (tokens_of t))))) as Hnot.
  destruct (parse_fuel_enough (pre ++ take n (tokens_of t))
              (S (length (pre ++ take n (tokens_of t))))) as [Hfin _].
  specialize (Hfin (length pre) ltac:(lia)).
  destruct (_parse_node _ _ _) as [[t' p]|e|] eqn:Hr.
  - destruct (Hnot t' p Hn eq_refl).
  - destruct (parse_raises_value_error (pre ++ take n (tokens_of t))
                (S (length (pre ++ take n (tokens_of t))))) as [Hv _].
    destruct (Hv _ _ Hr) as [msg ->]. by exists msg.
  - by destruct Hfin.
Qed.

(** X18 at a tree with one child, cut before the last parenthesis. *)
Lemma parse_node_truncated_witness :
  exists msg,
    _parse_node
      (S (length ([] ++ take 5 (tokens_of (mkNode "a" [leaf "b"])))))
      ([] ++ take 5 (tokens_of (mkNode "a" [leaf "b"]))) (length ([] : list string))
    = Raised (ValueError msg).
Proof.
  apply (parse_node_truncated (mkNode "a" [leaf "b"]) [] 5).
  vm_compute; lia.
Defined.

(* ===================================================================== *)
(** ** parser_psi.py: [_build_tree] *)
(* ===================================================================== *)

Lemma _build_tree_unfold (fuel : nat) (lines : list (Z * string))
    (start : nat) (parent_indent : Z) :
  _build_tree (S fuel) lines start parent_indent =
    match lines !! start with
    | None => Raised IndexError
    | Some (indent, name) =>
        match _build_tree_loop fuel lines (start + 1) indent [] with
        | Returned (children, i) => Returned (mkNode name children, i)
        | Raised e => Raised e
        | Unfinished => Unfinished
        end
    end.
Proof. reflexivity. Qed.

Lemma _build_tree_loop_unfold (fuel : nat) (lines : list (Z * string))
    (i : nat) (indent : Z) (children : list Node) :
  _build_tree_loop (S fuel) lines i indent children =
    match lines !! i with
    | None => Returned (children, i)
    | Some (child_indent, _) =>
        if Z.leb child_indent indent then Returned (children, i)
        else
          match _build_tree fuel lines i indent with
          | Returned (child, i) =>
              _build_tree_loop fuel lines i indent (children ++ [child])
          | Raised e => Raised e
          | Unfinished => Unfinished
          end
    end.
Proof. reflexivity. Qed.

Lemma build_more_fuel (lines : list (Z * string)) (fuel : nat) :
  (forall start pi r, _build_tree fuel lines start pi = r ->
     r <> Unfinished -> forall k, _build_tree (fuel + k) lines start pi = r)
  /\ (forall i indent cs r, _build_tree_loop fuel lines i indent cs = r ->
        r <> Unfinished ->
        forall k, _build_tree_loop (fuel + k) lines i indent cs = r).
Proof.
  induction fuel as [|fuel [IHn IHl]].
  { split; intros; subst; exfalso; auto. }
  split.
  - intros start pi r Hr Hne k. change (S fuel + k) with (S (fuel + k)).
    rewrite _build_tree_unfold in Hr |- *.
    destruct (lines !! start) as [[indent nm]|]; [|exact Hr].
    destruct (_build_tree_loop fuel lines (start + 1) indent [])
      as [[cs p]|e|] eqn:Hl.
    + rewrite (IHl _ _ _ _ Hl ltac:(discriminate) k). exact Hr.
    + rewrite (IHl _ _ _ _ Hl ltac:(discriminate) k). exact Hr.
    + subst r. exfalso. by apply Hne.
  - intros i indent cs r Hr Hne k. change (S fuel + k) with (S (fuel + k)).
    rewrite _build_tree_loop_unfold in Hr |- *.
    destruct (lines !! i) as [[ci nm]|]; [|exact Hr].
    destruct (Z.leb ci indent); [exact Hr|].
    destruct (_build_tree fuel lines i indent) as [[c p]|e|] eqn:Hn.
    + rewrite (IHn _ _ _ Hn ltac:(discriminate) k).
      exact (IHl _ _ _ _ Hr Hne k).
    + rewrite (IHn _ _ _ Hn ltac:(discriminate) k). exact Hr.
    + subst r. exfalso. by apply Hne.
Qed.

Lemma build_tree_fuel_agree (lines : list (Z * string)) (start : nat)
    (pi : Z) (f1 f2 : nat) :
  _build_tree f1 lines start pi <> Unfinished ->
  _build_tree f2 lines start pi <> Unfinished ->
  _build_tree f1 lines start pi = _build_tree f2 lines start pi.
Proof.
  intros H1 H2.
  destruct (build_more_fuel lines f1) as [M1 _].
  destruct (build_more_fuel lines f2) as [M2 _].
  rewrite <- (M1 start pi _ eq_refl H1 f2), <- (M2 start pi _ eq_refl H2 f1).
  by rewrite Nat.add_comm.
Qed.

(** What [_build_tree] returns: the lines it has read are those of the
    tree, in order, and they run up to the first line that is not indented
    deeper than the line it started at. *)
Lemma build_reads (lines : list (Z * string)) (fuel : nat) :
  (forall start pi t i, _build_tree fuel lines start pi = Returned (t, i) ->
     start < i <= length lines
     /\ names t = map snd (slice lines start i)
     /\ exists d, lines !! start = Some (d, name t)
        /\ Forall (fun l => (d < l.1)%Z) (slice lines (start + 1) i)
        /\ forall l, lines !! i = Some l -> (l.1 <= d)%Z)
  /\ (forall i indent cs cs' i',
        _build_tree_loop fuel lines i indent cs = Returned (cs', i') ->
        i <= i' /\ (i <= length lines -> i' <= length lines)
        /\ (forall l, lines !! i' = Some l -> (l.1 <= indent)%Z)
        /\ Forall (fun l => (indent < l.1)%Z) (slice lines i i')
        /\ exists new, cs' = cs ++ new
           /\ flat_map names new = map snd (slice lines i i')).
Proof.
  induction fuel as [|fuel [IHn IHl]].
  { split; intros; discriminate. }
  split.
  - intros start pi t i. rewrite _build_tree_unfold.
    destruct (lines !! start) as [[d nm]|] eqn:Hstart;
      [|intros H; discriminate H].
    destruct (_build_tree_loop fuel lines (start + 1) d []) as [[cs p]|e|]
      eqn:Hl; try (intros H; discriminate H).
    intros [= <- <-].
    apply IHl in Hl as (Hle & Hlen & Hstop & Hdeep & new & -> & Hnames).
    pose proof (lookup_lt_Some _ _ _ Hstart) as Hlt.
    split; [lia|]. split.
    + rewrite names_unfold. cbn [name children app].
      rewrite (slice_cons _ _ _ _ Hstart) by lia. cbn [map snd].
      by rewrite Hnames.
    + exists d. by repeat split.
  - intros i indent cs cs' i'. rewrite _build_tree_loop_unfold.
    destruct (lines !! i) as [[ci nm]|] eqn:Hi.
    2:{ intros [= <- <-]. split; [lia|]. split; [lia|].
        split; [intros l Hl; rewrite Hi in Hl; discriminate Hl|].
        rewrite slice_nil. split; [constructor|].
        exists []. by rewrite app_nil_r. }
    destruct (Z.leb_spec ci indent) as [Hci|Hci].
    { intros [= <- <-]. split; [lia|]. split; [lia|].
      split; [intros l Hl; rewrite Hi in Hl; injection Hl as <-; exact Hci|].
      rewrite slice_nil. split; [constructor|].
      exists []. by rewrite app_nil_r. }
    destruct (_build_tree fuel lines i indent) as [[c p]|e|] eqn:Hn;
      try (intros H; discriminate H).
    intros Hl. apply IHn in Hn as (Hp & Hnames & d & Hd & Hdeep & _).
    rewrite Hi in Hd. injection Hd as <- _.
    apply IHl in Hl as (Hle & Hlen & Hstop & Hdeep' & new & -> & Hnames').
    split; [lia|]. split; [lia|]. split; [exact Hstop|].
    rewrite (slice_app _ i p i') by lia. split.
    + apply Forall_app. split; [|exact Hdeep'].
      rewrite (slice_cons _ _ _ _ Hi) by lia. constructor; [exact Hci|].
      eapply Forall_impl; [exact Hdeep|]. intros l Hl. simpl in Hl. lia.
    + exists (c :: new). split; [by rewrite <- app_assoc|].
      cbn [flat_map]. by rewrite map_app, Hnames, Hnames'.
Qed.

Lemma build_never_raises (lines : list (Z * string)) (fuel : nat) :
  (forall start pi e, start < length lines ->
     _build_tree fuel lines start pi <> Raised e)
  /\ (forall i indent cs e, _build_tree_loop fuel lines i indent cs <> Raised e).
Proof.
  induction fuel as [|fuel [IHn IHl]].
  { split; intros; discriminate. }
  split.
  - intros start pi e Hstart. rewrite _build_tree_unfold.
    destruct (lines !! start) as [[d nm]|] eqn:Hs.
    2:{ apply lookup_ge_None in Hs. lia. }
    destruct (_build_tree_loop fuel lines (start + 1) d []) as [[cs p]|e'|]
      eqn:Hl; try discriminate.
    destruct (IHl _ _ _ _ Hl).
  - intros i indent cs e. rewrite _build_tree_loop_unfold.
    destruct (lines !! i) as [[ci nm]|] eqn:Hi; [|discriminate].
    destruct (Z.leb ci indent); [discriminate|].
    apply lookup_lt_Some in Hi.
    destruct (_build_tree fuel lines i indent) as [[c p]|e'|] eqn:Hn;
      [apply IHl| |discriminate].
    destruct (IHn _ _ _ Hi Hn).
Qed.

Lemma build_fuel_enough (lines : list (Z * string)) (fuel : nat) :
  (forall start pi, 1 <= fuel -> 2 * (length lines - start) <= fuel ->
     _build_tree fuel lines start pi <> Unfinished)
  /\ (forall i indent cs, 2 * (length lines - i) + 1 <= fuel ->
        _build_tree_loop fuel lines i indent cs <> Unfinished).
Proof.
  induction fuel as [|fuel [IHn IHl]].
  { split; intros; lia. }
  split.
  - intros start pi _ Hfuel. rewrite _build_tree_unfold.
    destruct (lines !! start) as [[d nm]|] eqn:Hs; [|discriminate].
    apply lookup_lt_Some in Hs.
    pose proof (IHl (start + 1) d [] ltac:(lia)) as Hl.
    destruct (_build_tree_loop fuel lines (start + 1) d []) as [[cs p]|e|];
      [discriminate|discriminate|by destruct Hl].
  - intros i indent cs Hfuel. rewrite _build_tree_loop_unfold.
    destruct (lines !! i) as [[ci nm]|] eqn:Hi; [|discriminate].
    apply lookup_lt_Some in Hi.
    destruct (Z.leb ci indent); [discriminate|].
    pose proof (IHn i indent ltac:(lia) ltac:(lia)) as Hn.
    destruct (_build_tree fuel lines i indent) as [[c p]|e|] eqn:Hc;
      [|discriminate|by destruct Hn].
    destruct (build_reads lines fuel) as [Hreads _].
    apply Hreads in Hc as [Hp _]. apply IHl. lia.
Qed.

(** X19. Started at a line of the list, [_build_tree] returns a tree: it
    never indexes beyond the list, a bound of one more than twice the
    number of lines is always enough, a larger bound gives the same tree,
    and [parent_indent] has no influence. *)
Theorem build_tree_returns (lines : list (Z * string)) (start : nat) :
  start < length lines ->
  exists t i, forall (k : nat) (parent_indent : Z),
    _build_tree (S (2 * length lines) + k) lines start parent_indent
    = Returned (t, i).
Proof.
  intros Hstart.
  destruct (build_fuel_enough lines (S (2 * length lines))) as [Hfin _].
  specialize (Hfin start 0%Z ltac:(lia) ltac:(lia)).
  destruct (build_never_raises lines (S (2 * length lines))) as [Hraise _].
  destruct (_build_tree (S (2 * length lines)) lines start 0) as [[t i]|e|]
    eqn:Hr; [|destruct (Hraise _ _ _ Hstart Hr)|by destruct Hfin].
  exists t, i. intros k pi.
  destruct (build_more_fuel lines (S (2 * length lines))) as [M _].
  rewrite <- (M start 0%Z _ Hr ltac:(discriminate) k).
  generalize (S (2 * length lines) + k). intros [|fuel]; reflexivity.
Qed.

(** X19 at a file line with one class line below it. *)
Lemma build_tree_returns_witness :
  exists t i, forall (k : nat) (parent_indent : Z),
    _build_tree (S (2 * length [(0%Z, "KtFile"); (2%Z, "CLASS")]) + k)
      [(0%Z, "KtFile"); (2%Z, "CLASS")] 0 parent_indent
    = Returned (t, i).
Proof.
  apply (build_tree_returns [(0%Z, "KtFile"); (2%Z, "CLASS")] 0).
  simpl; lia.
Defined.

Lemma length_names (t : Node) : length (names t) = size t.
Proof.
  induction t as [nm cs IH] using Node_forall_ind.
  rewrite names_unfold, size_unfold. cbn [name children length]. f_equal.
  induction IH as [|c cs Hc _ IHcs]; [reflexivity|].
  cbn [flat_map]. rewrite length_app, Hc, IHcs. reflexivity.
Qed.

Lemma length_slice {A : Type} (l : list A) (i j : nat) :
  j <= length l -> length (slice l i j) = j - i.
Proof.
  intros Hj. unfold slice. rewrite length_take, length_drop. lia.
Qed.

(** X20. The tree that [_build_tree] returns has one node for each line it
    has read, and the names of the tree in pre-order are the names of
    those lines in order. *)
Theorem build_tree_reads_its_lines (fuel : nat) (lines : list (Z * string))
    (start i : nat) (parent_indent : Z) (t : Node) :
  _build_tree fuel lines start parent_indent = Returned (t, i) ->
  start < i <= length lines
  /\ names t = map snd (slice lines start i)
  /\ size t = i - start.
Proof.
  intros Hr. destruct (build_reads lines fuel) as [Hreads _].
  apply Hreads in Hr as (Hi & Hnames & _).
  split; [exact Hi|]. split; [exact Hnames|].
  rewrite <- length_names, Hnames, length_map, length_slice; lia.
Qed.

(** X20 at a file with a class and, after a dedent, one more line. *)
Lemma build_tree_reads_its_lines_witness :
  1 < 3 <= length [(0%Z, "X"); (2%Z, "KtFile"); (4%Z, "CLASS"); (2%Z, "FUN")]
  /\ names (mkNode "KtFile" [leaf "CLASS"])
     = map snd (slice [(0%Z, "X"); (2%Z, "KtFile"); (4%Z, "CLASS");
                       (2%Z, "FUN")] 1 3)
  /\ size (mkNode "KtFile" [leaf "CLASS"]) = 3 - 1.
Proof.
  apply (build_tree_reads_its_lines 9
           [(0%Z, "X"); (2%Z, "KtFile"); (4%Z, "CLASS"); (2%Z, "FUN")]
           1 3 0%Z (mkNode "KtFile" [leaf "CLASS"])).
  vm_compute; reflexivity.
Defined.

(** X21. [_build_tree] reads up to the first line that is not indented
    deeper than the line it started at: every line it has read after the
    first is deeper, and the line it stops at, if there is one, is not. *)
Theorem build_tree_stops_at_dedent (fuel : nat) (lines : list (Z * string))
    (start i : nat) (parent_indent : Z) (t : Node) :
  _build_tree fuel lines start parent_indent = Returned (t, i) ->
  exists d, lines !! start = Some (d, name t)
    /\ (forall j l, start < j < i -> lines !! j = Some l -> (d < l.1)%Z)
    /\ (forall l, lines !! i = Some l -> (l.1 <= d)%Z).
Proof.
  intros Hr. destruct (build_reads lines fuel) as [Hreads _].
  apply Hreads in Hr as (Hi & _ & d & Hd & Hdeep & Hstop).
  exists d. split; [exact Hd|]. split; [|exact Hstop].
  intros j l Hj Hl. rewrite Forall_forall in Hdeep. apply Hdeep.
  unfold slice. apply list_elem_of_lookup. exists (j - (start + 1)).
  rewrite lookup_take, lookup_drop, decide_True by lia.
  by replace (start + 1 + (j - (start + 1))) with j by lia.
Qed.

(** X21 at the same lines. *)
Lemma build_tree_stops_at_dedent_witness :
  exists d, [(0%Z, "X"); (2%Z, "KtFile"); (4%Z, "CLASS"); (2%Z, "FUN")] !! 1
            = Some (d, name (mkNode "KtFile" [leaf "CLASS"]))
    /\ (forall j l, 1 < j < 3 ->
          [(0%Z, "X"); (2%Z, "KtFile"); (4%Z, "CLASS"); (2%Z, "FUN")] !! j
          = Some l -> (d < l.1)%Z)
    /\ (forall l,
          [(0%Z, "X"); (2%Z, "KtFile"); (4%Z, "CLASS"); (2%Z, "FUN")] !! 3
          = Some l -> (l.1 <= d)%Z).
Proof.
  apply (build_tree_stops_at_dedent 9
           [(0%Z, "X"); (2%Z, "KtFile"); (4%Z, "CLASS"); (2%Z, "FUN")]
           1 3 0%Z (mkNode "KtFile" [leaf "CLASS"])).
  vm_compute; reflexivity.
Defined.

Lemma lines_of_unfold (step d : Z) (t : Node) :
  lines_of step d t
  = (d, name t) :: flat_map (lines_of step (d + step)%Z) (children t).
Proof. by destruct t. Qed.

Lemma head_lines (step d d0 : Z) (cs : list Node) (rest : list (Z * string)) :
  (d0 <= d)%Z ->
  (forall l, head rest = Some l -> (l.1 <= d0)%Z) ->
  forall l, head (flat_map (lines_of step d) cs ++ rest) = Some l ->
            (l.1 <= d)%Z.
Proof.
  intros Hd Hrest l. destruct cs as [|c cs].
  - simpl. intros Hl. specialize (Hrest l Hl). lia.
  - cbn [flat_map]. rewrite lines_of_unfold. simpl. intros [= <-]. simpl. lia.
Qed.

Lemma build_children_round_trip (step : Z) (cs : list Node) :
  (0 < step)%Z ->
  Forall (fun c => forall d pi pre rest,
            (forall l, head rest = Some l -> (l.1 <= d)%Z) ->
            exists fuel,
              _build_tree fuel (pre ++ lines_of step d c ++ rest)
                (length pre) pi
              = Returned (c, length pre + length (lines_of step d c))) cs ->
  forall d pre rest acc,
    (forall l, head rest = Some l -> (l.1 <= d)%Z) ->
    exists fuel,
      _build_tree_loop fuel
        (pre ++ flat_map (lines_of step (d + step)%Z) cs ++ rest)
        (length pre) d acc
      = Returned (acc ++ cs,
                  length pre
                  + length (flat_map (lines_of step (d + step)%Z) cs)).
Proof.
  intros Hstep. induction 1 as [|c cs Hc _ IH]; intros d pre rest acc Hrest.
  - exists 1. rewrite _build_tree_loop_unfold. cbn [flat_map app length].
    rewrite app_nil_r, Nat.add_0_r.
    destruct rest as [|[ci nm] rest].
    + rewrite lookup_end. reflexivity.
    + rewrite list_lookup_middle by done.
      specialize (Hrest (ci, nm) eq_refl). simpl in Hrest.
      apply Z.leb_le in Hrest. by rewrite Hrest.
  - destruct (Hc (d + step)%Z d pre
                (flat_map (lines_of step (d + step)%Z) cs ++ rest))
      as [f1 H1].
    { apply (head_lines step (d + step)%Z d cs rest); [lia|exact Hrest]. }
    destruct (IH d (pre ++ lines_of step (d + step)%Z c) rest (acc ++ [c])
                Hrest) as [f2 H2].
    exists (S (f1 + f2)). rewrite _build_tree_loop_unfold.
    cbn [flat_map]. rewrite <- !app_assoc. rewrite <- !app_assoc in H2.
    assert (Hhead : (pre ++ lines_of step (d + step)%Z c
                     ++ flat_map (lines_of step (d + step)%Z) cs ++ rest)
                    !! length pre = Some ((d + step)%Z, name c)).
    { rewrite lines_of_unfold. by apply list_lookup_middle. }
    rewrite Hhead.
    destruct (Z.leb_spec (d + step) d) as [Hle|_]; [lia|].
    destruct (build_more_fuel
                (pre ++ lines_of step (d + step)%Z c
                 ++ flat_map (lines_of step (d + step)%Z) cs ++ rest) f1)
      as [M1 _].
    rewrite (M1 _ _ _ H1 ltac:(discriminate) f2).
    destruct (build_more_fuel
                (pre ++ lines_of step (d + step)%Z c
                 ++ flat_map (lines_of step (d + step)%Z) cs ++ rest) f2)
      as [_ M2].
    rewrite length_app in H2. rewrite Nat.add_comm.
    rewrite (M2 _ _ _ _ H2 ltac:(discriminate) f1).
    rewrite !length_app, <- ?app_assoc. f_equal. f_equal. lia.
Qed.

Lemma build_round_trip_some_fuel (step : Z) (t : Node) :
  (0 < step)%Z ->
  forall d pi pre rest,
    (forall l, head rest = Some l -> (l.1 <= d)%Z) ->
    exists fuel,
      _build_tree fuel (pre ++ lines_of step d t ++ rest) (length pre) pi
      = Returned (t, length pre + length (lines_of step d t)).
Proof.
  intros Hstep. induction t as [nm cs IH] using Node_forall_ind.
  intros d pi pre rest Hrest.
  destruct (build_children_round_trip step cs Hstep IH d (pre ++ [(d, nm)])
              rest [] Hrest) as [fuel Hl].
  exists (S fuel). rewrite _build_tree_unfold, lines_of_unfold.
  cbn [name children app].
  rewrite list_lookup_middle by done.
  replace (pre ++ (d, nm) :: flat_map (lines_of step (d + step)%Z) cs ++ rest)
    with ((pre ++ [(d, nm)])
          ++ flat_map (lines_of step (d + step)%Z) cs ++ rest)
    by (rewrite <- !app_assoc; reflexivity).
  replace (length pre + 1) with (length (pre ++ [(d, nm)]))
    by (rewrite length_app; simpl; lia).
  rewrite Hl. cbn [app]. f_equal. f_equal. rewrite length_app. simpl. lia.
Qed.

(** X22. Building the tree from the indented lines of a tree gives the
    tree back and the index behind its lines, wherever they stand in the
    list, provided each level is indented further than the one above and
    the line that follows, if there is one, is not deeper than the root. *)
Theorem build_tree_round_trip (step d parent_indent : Z) (t : Node)
    (pre rest : list (Z * string)) :
  (0 < step)%Z ->
  (forall l, head rest = Some l -> (l.1 <= d)%Z) ->
  _build_tree (S (2 * length (pre ++ lines_of step d t ++ rest)))
    (pre ++ lines_of step d t ++ rest) (length pre) parent_indent
  = Returned (t, length pre + length (lines_of step d t)).
Proof.
  intros Hstep Hrest.
  destruct (build_round_trip_some_fuel step t Hstep d parent_indent pre rest
              Hrest) as [fuel H].
  rewrite <- H. apply build_tree_fuel_agree.
  - apply build_fuel_enough; lia.
  - rewrite H. discriminate.
Qed.

(** X22 at a file with a class that holds a function, two columns a
    level, followed by a line at the root's indent. *)
Lemma build_tree_round_trip_witness :
  _build_tree
    (S (2 * length ([] ++ lines_of 2 0
                            (mkNode "KtFile" [mkNode "CLASS" [leaf "FUN"]])
                    ++ [(0%Z, "X")])))
    ([] ++ lines_of 2 0 (mkNode "KtFile" [mkNode "CLASS" [leaf "FUN"]])
     ++ [(0%Z, "X")])
    (length ([] : list (Z * string))) (-1)
  = Returned (mkNode "KtFile" [mkNode "CLASS" [leaf "FUN"]],
              length ([] : list (Z * string))
              + length (lines_of 2 0
                          (mkNode "KtFile" [mkNode "CLASS" [leaf "FUN"]]))).
Proof.
  apply (build_tree_round_trip 2 0 (-1)
           (mkNode "KtFile" [mkNode "CLASS" [leaf "FUN"]]) [] [(0%Z, "X")]).
  - lia.
  - intros l [= <-]. simpl. lia.
Defined.

(* ===================================================================== *)
(** ** parser_psi.py: which lines become nodes; runner.py: parse errors *)
(* ===================================================================== *)

Lemma prefix_two (a b : Ascii.ascii) (p s : string) :
  String.prefix (String a (String b p)) s = true ->
  exists rest, s = String a (String b rest).
Proof.
  destruct s as [|a' [|b' rest]]; simpl.
  - intros H; discriminate H.
  - destruct (Ascii.ascii_dec a a'); intros H; discriminate H.
  - destruct (Ascii.ascii_dec a a') as [<-|]; [|intros H; discriminate H].
    destruct (Ascii.ascii_dec b b') as [<-|]; [|intros H; discriminate H].
    intros _. by exists rest.
Qed.

(** X23. No line is both skipped and taken for a composite node: a name
    that [_is_composite_node] accepts is never one that [_should_skip]
    drops, so the order of the two tests in [_parse_lines] loses no
    node. *)
Theorem composite_node_is_not_skipped (s : string) :
  _is_composite_node s = true -> _should_skip s = false.
Proof.
  intros Hc. unfold _should_skip.
  assert (Hps : forall q p,
             q = String (Ascii.ascii_of_nat 80)
                   (String (Ascii.ascii_of_nat 115) p) ->
             String.prefix q s = false).
  { intros q p ->. destruct (String.prefix _ s) eqn:Hp; [|reflexivity].
    apply prefix_two in Hp as [rest ->]. vm_compute in Hc. discriminate Hc. }
  rewrite (Hps "PsiElement(" _ eq_refl), (Hps "PsiWhiteSpace(" _ eq_refl),
    (Hps "PsiComment(" _ eq_refl), (Hps "PsiErrorElement" _ eq_refl).
  destruct (String.eqb_spec s "<empty list>") as [->|_]; [|reflexivity].
  vm_compute in Hc. discriminate Hc.
Qed.

(** X23 at [CLASS]. *)
Lemma composite_node_is_not_skipped_witness : _should_skip "CLASS" = false.
Proof. apply (composite_node_is_not_skipped "CLASS"). reflexivity. Defined.

Lemma prefix_empty (sub : string) :
  sub <> "" -> String.prefix sub "" = false.
Proof. by destruct sub. Qed.

Lemma contains_count_from (sub s : string) :
  sub <> "" -> contains sub s = true <-> 0 < count_from sub 0 s.
Proof.
  intros Hsub. induction s as [|c s IH].
  - cbn [contains count_from]. rewrite (prefix_empty _ Hsub). cbn [orb].
    split; [discriminate|lia].
  - cbn [contains count_from].
    destruct (String.prefix sub (String c s)); cbn [orb].
    + split; [lia|reflexivity].
    + exact IH.
Qed.

Lemma contains_count (sub s : string) :
  sub <> "" -> contains sub s = true <-> 0 < count sub s.
Proof.
  intros Hsub. unfold count.
  destruct (String.eqb_spec sub "") as [E|_]; [destruct (Hsub E)|].
  by apply contains_count_from.
Qed.

(** X24. The tree-sitter output is said to have parse errors exactly when
    the number of [ERROR] and [MISSING] nodes counted in it is not zero:
    the error detail of a file never reports zero nodes. *)
Theorem has_parse_errors_iff_counted (ts_output : string) :
  _has_parse_errors ts_output = true <-> 0 < _count_parse_errors ts_output.
Proof.
  unfold _has_parse_errors, _count_parse_errors.
  rewrite orb_true_iff, !contains_count by discriminate. lia.
Qed.

(* ===================================================================== *)
(** ** comparator.py: swapping the two trees *)
(* ===================================================================== *)

Lemma Forall2_map_seq (f g : nat -> Difference) (a n : nat) :
  (forall i, mirrored (f i) (g i)) ->
  Forall2 mirrored (map f (seq a n)) (map g (seq a n)).
Proof.
  intros H. induction (seq a n) as [|i l IH]; simpl; constructor; auto.
Qed.

Lemma diffs_mirrored (t : Node) :
  forall (p : Node) (path path' : string),
    Forall2 mirrored (diffs t p path) (diffs p t path').
Proof.
  induction t as [tn tcs IH] using Node_forall_ind. intros [pn pcs] path path'.
  rewrite !diffs_unfold. cbv zeta. cbn [name children].
  set (cp := current_path_of path pn). set (cp' := current_path_of path' tn).
  clearbody cp cp'.
  apply Forall2_app; [|apply Forall2_app; [|apply Forall2_app]].
  - unfold name_diff. cbn [name]. rewrite (String.eqb_sym pn tn).
    destruct (negb _); repeat constructor.
  - unfold count_diff. cbn [children].
    rewrite (Nat.eqb_sym (length pcs) (length tcs)).
    destruct (negb _); repeat constructor.
  - clear -IH. revert pcs.
    induction IH as [|c tcs Hc _ IHcs]; intros [|q pcs]; simpl;
      try constructor.
    apply Forall2_app; [apply Hc|apply IHcs].
  - unfold extra_diffs, missing_diffs. cbn [children]. cbv zeta.
    rewrite (Nat.min_comm (length pcs) (length tcs)).
    destruct (Nat.le_ge_cases (length tcs) (length pcs)) as [Hle|Hle].
    + replace (length tcs - Nat.min (length tcs) (length pcs)) with 0 by lia.
      cbn [seq map app]. rewrite app_nil_r.
      apply Forall2_map_seq. intros i. by repeat split.
    + replace (length pcs - Nat.min (length tcs) (length pcs)) with 0 by lia.
      cbn [seq map app]. rewrite app_nil_r.
      apply Forall2_map_seq. intros i. by repeat split.
Qed.

(** X25. Swapping the two trees mirrors the result: the status is the
    same, and the differences are as many, in the same order, each with
    expected and actual exchanged and with [EXTRA_CHILD] and
    [MISSING_CHILD] exchanged; only the paths, which are built from the
    names of the second tree, can differ. *)
Theorem compare_trees_swapped (a b : Node) :
  status (compare_trees (Some b) (Some a))
  = status (compare_trees (Some a) (Some b))
  /\ Forall2 mirrored (differences (compare_trees (Some a) (Some b)))
       (differences (compare_trees (Some b) (Some a))).
Proof.
  rewrite !status_compare_trees, !differences_compare_trees.
  pose proof (diffs_mirrored a b "" "") as H.
  split; [|exact H]. by destruct H.
Qed.

Lemma append_empty_r (s : string) : s +:+ "" = s.
Proof.
  induction s as [|x s IH]; [reflexivity|].
  change (String x (s +:+ "") = String x s). by rewrite IH.
Qed.

Lemma current_path_extends (path n : string) :
  exists rest, current_path_of path n = path +:+ rest.
Proof.
  unfold current_path_of. destruct (String.eqb_spec path "") as [->|_].
  - by exists n.
  - by eexists.
Qed.

Lemma diffs_path_extends (t : Node) :
  forall (p : Node) (prefix : string) (d : Difference),
    d ∈ diffs t p prefix ->
    exists rest, path d = current_path_of prefix (name p) +:+ rest.
Proof.
  induction t as [tn tcs IH] using Node_forall_ind. intros [pn pcs] prefix d.
  rewrite diffs_unfold. cbv zeta. cbn [name children].
  set (cp := current_path_of prefix pn). clearbody cp.
  rewrite !elem_of_app. intros [H|[H|[H|[H|H]]]].
  - unfold name_diff in H. destruct (negb _); [|by apply elem_of_nil in H].
    apply list_elem_of_singleton in H as ->. exists "". cbn [path].
    by rewrite append_empty_r.
  - unfold count_diff in H. destruct (negb _); [|by apply elem_of_nil in H].
    apply list_elem_of_singleton in H as ->. exists "". cbn [path].
    by rewrite append_empty_r.
  - revert pcs H. induction IH as [|c tcs Hc _ IHcs]; intros [|q pcs] H;
      simpl in H; try (by apply elem_of_nil in H).
    apply elem_of_app in H as [H|H]; [|exact (IHcs _ H)].
    apply Hc in H as [rest ->].
    destruct (current_path_extends cp (name q)) as [rest' ->].
    exists (rest' +:+ rest). by rewrite append_assoc.
  - unfold extra_diffs in H. apply list_elem_of_In, in_map_iff in H
      as (i & <- & _). cbn [path]. unfold child_path_of. by eexists.
  - unfold missing_diffs in H. apply list_elem_of_In, in_map_iff in H
      as (i & <- & _). cbn [path]. unfold child_path_of. by eexists.
Qed.

(** X26. The path of every difference starts with the name of the root of
    the reference tree: paths are written in the names of the reference
    side, from its root down. *)
Theorem difference_paths_start_at_reference_root (ts psi : Node)
    (d : Difference) :
  d ∈ differences (compare_trees (Some ts) (Some psi)) ->
  exists rest, path d = name psi +:+ rest.
Proof.
  rewrite differences_compare_trees. intros Hd.
  apply diffs_path_extends in Hd as [rest Hd]. exists rest. exact Hd.
Qed.

(** X26 at a candidate with one child more than the reference. *)
Lemma difference_paths_start_at_reference_root_witness :
  exists rest,
    path (mkDifference "X > [child 1]" "(absent)" "B" EXTRA_CHILD)
    = name (mkNode "X" [leaf "A"]) +:+ rest.
Proof.
  apply (difference_paths_start_at_reference_root
           (mkNode "X" [leaf "A"; leaf "B"]) (mkNode "X" [leaf "A"])).
  vm_compute. apply list_elem_of_In. simpl. tauto.
Defined.
